(** * Lola IA backend: in-memory store, prompt builder and HTTP handlers

    A shallow embedding of the Go backend and the proofs of its specified
    properties.

    Definitions:
    - [internal]  : the message and knowledge-file types (package internal);
    - [store]     : [MemoryStore] and its operations (internal/store/memory.go);
    - [utf8], [unicode], [strings], [fmt] : the functions of the Go standard
      library that the backend calls, at the level of bytes;
    - [provider]  : the [ChatProvider] interface, the mock and the OpenAI
      provider (package provider);
    - [server]    : [buildFilesContext], the analyst prompt, the classifier
      and the handlers registered in [main] (package main);
    - [spec]      : the vocabulary in which the properties are stated;
    - [os], [startup] : the environment variables and the file system as
      [main] reads them, the choice of the provider, [preloadSeedCSVs] and
      the start of [main] (package main, package provider);
    - [spec_requests] : more vocabulary, for sequences of requests;
    - [frontend]  : the two updates of the list of attachments (App.tsx).

    Properties: [store_facts], [server_facts], [strings_facts],
    [lower_facts], [valid_facts], [context_facts], [prompt_facts],
    [handler_facts], and [scenarios] for concrete stores and requests;
    then [store_extras], [handler_extras], [startup_extras],
    [classifier_extras], [prompt_extras], [frontend_extras], and
    [more_scenarios].

    A Go [string] is an immutable sequence of bytes; it is modelled as a list
    of 8-bit characters.  Slices are modelled as lists: every accessor of the
    store hands out a copy, so no caller ever holds an alias of the backing
    arrays.  The mutex of the store is not modelled: each operation is a
    function from store to store, as it is under the lock, and a handler runs
    from its first statement to its last without another request in
    between.  The values of [time.Now], the case tables of Unicode and the
    HTTP exchange with the provider belong to the environment and are
    parameters. *)

From Stdlib Require Import ZArith Ascii String DecimalString Lia.
From stdpp Require Import gmap strings list fin_maps.

Open Scope list_scope.

(** ** Go strings *)

Abbreviation gostring := (list ascii).

(** A string literal of the source, as its bytes. *)
Definition str (s : string) : gostring := list_ascii_of_string s.

Definition nl : gostring := [ascii_of_nat 10].
Definition dquote : gostring := [ascii_of_nat 34].

(** The value of a byte, and the byte of a value below 256. *)
Definition byte_val (c : ascii) : Z := Z.of_N (N_of_ascii c).
Definition byte_of (z : Z) : ascii := ascii_of_N (Z.to_N (z mod 256)).

(** Go's [(T, error)] results; an error is kept as its message. *)
Inductive result (A : Type) : Type :=
| Ok (a : A)
| Err (e : gostring).
Arguments Ok {A} a.
Arguments Err {A} e.

(** [time.Time], opaque to this program. *)
Definition Time := Z.

(** ** internal: messages and knowledge files *)

Module internal.

Definition Role := gostring.
Definition RoleUser : Role := str "user".
Definition RoleAssistant : Role := str "assistant".

Record Message := mkMessage {
  Role_ : Role;
  Content : gostring;
  CreatedAt : Time
}.

Record KnowledgeFile := mkKnowledgeFile {
  Name : gostring;
  Size : Z;
  Text : gostring
}.

Record SendMessageRequest := mkSendMessageRequest { req_Content : gostring }.
Record UploadFilesRequest := mkUploadFilesRequest { req_Files : list KnowledgeFile }.

End internal.
Import internal.

(** ** store: the in-memory store *)

Module store.

Record MemoryStore := mkMemoryStore {
  messages : list Message;
  knowledge : list KnowledgeFile
}.

Definition NewMemoryStore : MemoryStore :=
  {| messages := []; knowledge := [] |}.

(** [All] returns a copy of the messages. *)
Definition All (s : MemoryStore) : list Message := messages s.

Definition Append (msg : Message) (s : MemoryStore) : MemoryStore :=
  {| messages := messages s ++ [msg]; knowledge := knowledge s |}.

(** [s.messages = s.messages[:0]] *)
Definition Reset (s : MemoryStore) : MemoryStore :=
  {| messages := take 0 (messages s); knowledge := knowledge s |}.

(** [SeedAssistantHello]; [now] is the value [time.Now()] returns. *)
Definition SeedAssistantHello (text : gostring) (now : Time) (s : MemoryStore)
  : MemoryStore :=
  Append {| Role_ := RoleAssistant; Content := text; CreatedAt := now |} s.

(** First loop of [AddFiles]: [nameToIdx[f.Name] = i] for each stored file,
    [i] counting from the position of the first file of [ks]. *)
Fixpoint index_names (ks : list KnowledgeFile) (i : nat)
    (nameToIdx : gmap gostring nat) : gmap gostring nat :=
  match ks with
  | [] => nameToIdx
  | f :: ks' => index_names ks' (S i) (<[Name f := i]> nameToIdx)
  end.

(** Body of the second loop of [AddFiles].  The index found in the map is
    always within the slice (lemma [upsert_in_range] below), so the
    assignment [s.knowledge[idx] = f] never panics. *)
Definition upsert (acc : list KnowledgeFile * gmap gostring nat)
    (f : KnowledgeFile) : list KnowledgeFile * gmap gostring nat :=
  let '(ks, nameToIdx) := acc in
  match nameToIdx !! Name f with
  | Some idx => (<[idx := f]> ks, nameToIdx)
  | None =>
      let ks' := ks ++ [f] in
      (ks', <[Name f := length ks' - 1]> nameToIdx)
  end.

Definition AddFiles_loop (files : list KnowledgeFile) (ks : list KnowledgeFile)
  : list KnowledgeFile * gmap gostring nat :=
  fold_left upsert files (ks, index_names ks 0 ∅).

(** [AddFiles] returns the new store and [len(s.knowledge)]. *)
Definition AddFiles (files : list KnowledgeFile) (s : MemoryStore)
  : MemoryStore * nat :=
  let ks := fst (AddFiles_loop files (knowledge s)) in
  ({| messages := messages s; knowledge := ks |}, length ks).

(** [ListFiles] returns a copy of the files. *)
Definition ListFiles (s : MemoryStore) : list KnowledgeFile := knowledge s.

(** [RemoveFile] filters the slice in place: [out] shares the backing array
    of [s.knowledge], the write position never overtakes the read position,
    and the slice is cut to the kept elements ([RemoveFile_inplace] below
    spells the loop out on the array). *)
Definition RemoveFile (name : gostring) (s : MemoryStore) : MemoryStore * nat :=
  let out := filter (λ f, Name f ≠ name) (knowledge s) in
  ({| messages := messages s; knowledge := out |}, length out).

(** The loop of [RemoveFile] on the backing array [arr]: [r] is the read
    position of [range], [w] is [len(out)], [n] the number of elements
    still to read. *)
Fixpoint RemoveFile_inplace (name : gostring) (n r w : nat)
    (arr : list KnowledgeFile) : list KnowledgeFile * nat :=
  match n with
  | 0 => (arr, w)
  | S n' =>
      match arr !! r with
      | Some f =>
          if decide (Name f ≠ name)
          then RemoveFile_inplace name n' (S r) (S w) (<[w := f]> arr)
          else RemoveFile_inplace name n' (S r) w arr
      | None => (arr, w)
      end
  end.

(** [s.knowledge = s.knowledge[:0]] *)
Definition ClearFiles (s : MemoryStore) : MemoryStore :=
  {| messages := messages s; knowledge := take 0 (knowledge s) |}.

End store.
Import store.

(** ** unicode/utf8 (Go standard library)

  The tables and the three functions the backend reaches:
  [ValidString] (from [buildFilesContext]), and [DecodeRuneInString] and
  [AppendRune] (from [strings.ToLower] through [strings.Map]).  They follow
  the library's source: the [first] table gives, for a leading byte, the
  size of the sequence (low three bits) and the index of the range accepted
  for the second byte (high four bits). *)

Module utf8.
Local Open Scope Z_scope.

Definition RuneError : Z := 0xFFFD.
Definition RuneSelf : Z := 0x80.
Definition MaxRune : Z := 0x10FFFF.
Definition surrogateMin : Z := 0xD800.
Definition surrogateMax : Z := 0xDFFF.

Definition tx : Z := 0x80.
Definition t2 : Z := 0xC0.
Definition t3 : Z := 0xE0.
Definition t4 : Z := 0xF0.
Definition maskx : Z := 0x3F.
Definition mask2 : Z := 0x1F.
Definition mask3 : Z := 0x0F.
Definition mask4 : Z := 0x07.
Definition rune1Max : Z := 0x7F.
Definition rune2Max : Z := 0x7FF.
Definition rune3Max : Z := 0xFFFF.

Definition locb : Z := 0x80.
Definition hicb : Z := 0xBF.

Definition xx : Z := 0xF1. (* invalid: size 1 *)
Definition as_ : Z := 0xF0. (* ASCII: size 1 *)
Definition s1 : Z := 0x02. (* accept 0, size 2 *)
Definition s2 : Z := 0x13. (* accept 1, size 3 *)
Definition s3 : Z := 0x03. (* accept 0, size 3 *)
Definition s4 : Z := 0x23. (* accept 2, size 3 *)
Definition s5 : Z := 0x34. (* accept 3, size 4 *)
Definition s6 : Z := 0x04. (* accept 0, size 4 *)
Definition s7 : Z := 0x44. (* accept 4, size 4 *)

(** The table [first], by ranges of the leading byte. *)
Definition first (b : Z) : Z :=
  if b <? 0x80 then as_
  else if b <? 0xC2 then xx
  else if b <? 0xE0 then s1
  else if b =? 0xE0 then s2
  else if b <? 0xED then s3
  else if b =? 0xED then s4
  else if b <? 0xF0 then s3
  else if b =? 0xF0 then s5
  else if b <? 0xF4 then s6
  else if b =? 0xF4 then s7
  else xx.

(** The table [acceptRanges] ([lo], [hi]); unlisted entries are zero. *)
Definition acceptRanges (i : Z) : Z * Z :=
  if i =? 0 then (locb, hicb)
  else if i =? 1 then (0xA0, hicb)
  else if i =? 2 then (locb, 0x9F)
  else if i =? 3 then (0x90, hicb)
  else if i =? 4 then (locb, 0x8F)
  else (0, 0).

(** [c < lo || hi < c] *)
Definition outside (c : ascii) (r : Z * Z) : bool :=
  (byte_val c <? fst r) || (snd r <? byte_val c).

(** [ValidString]: the loop over [s[i:]].  The bound check [i+size > n]
    comes before the reads of [s[i+1]], [s[i+2]], [s[i+3]], so those are
    always in range. *)
Fixpoint ValidString (s : gostring) : bool :=
  match s with
  | [] => true
  | si :: t =>
      if byte_val si <? RuneSelf then ValidString t
      else
        let x := first (byte_val si) in
        if x =? xx then false
        else
          let size := Z.land x 7 in
          if Z.of_nat (length s) <? size then false
          else
            let accept := acceptRanges (Z.shiftr x 4) in
            match t with
            | [] => false
            | c1 :: t1 =>
                if outside c1 accept then false
                else if size =? 2 then ValidString t1
                else
                  match t1 with
                  | [] => false
                  | c2 :: t2 =>
                      if outside c2 (locb, hicb) then false
                      else if size =? 3 then ValidString t2
                      else
                        match t2 with
                        | [] => false
                        | c3 :: t3 =>
                            if outside c3 (locb, hicb) then false
                            else ValidString t3
                        end
                  end
            end
  end.

(** [DecodeRuneInString]: the rune at the head of [s] and its width in
    bytes; [(RuneError, 1)] for a byte that starts no valid sequence.  The
    source's mask [rune(x) << 31 >> 31] is all ones exactly when the low
    bit of [x] is set, that is for [xx]. *)
Definition DecodeRuneInString (s : gostring) : Z * nat :=
  match s with
  | [] => (RuneError, 0%nat)
  | c0 :: t =>
      let s0 := byte_val c0 in
      let x := first s0 in
      if as_ <=? x then ((if Z.testbit x 0 then RuneError else s0), 1%nat)
      else
        let sz := Z.land x 7 in
        let accept := acceptRanges (Z.shiftr x 4) in
        if Z.of_nat (length s) <? sz then (RuneError, 1%nat)
        else
          match t with
          | [] => (RuneError, 1%nat)
          | c1 :: t1 =>
              if outside c1 accept then (RuneError, 1%nat)
              else if sz <=? 2 then
                (Z.lor (Z.shiftl (Z.land s0 mask2) 6)
                       (Z.land (byte_val c1) maskx), 2%nat)
              else
                match t1 with
                | [] => (RuneError, 1%nat)
                | c2 :: t2 =>
                    if outside c2 (locb, hicb) then (RuneError, 1%nat)
                    else if sz <=? 3 then
                      (Z.lor (Z.lor (Z.shiftl (Z.land s0 mask3) 12)
                                    (Z.shiftl (Z.land (byte_val c1) maskx) 6))
                             (Z.land (byte_val c2) maskx), 3%nat)
                    else
                      match t2 with
                      | [] => (RuneError, 1%nat)
                      | c3 :: _ =>
                          if outside c3 (locb, hicb) then (RuneError, 1%nat)
                          else
                            (Z.lor (Z.lor (Z.lor
                               (Z.shiftl (Z.land s0 mask4) 18)
                               (Z.shiftl (Z.land (byte_val c1) maskx) 12))
                               (Z.shiftl (Z.land (byte_val c2) maskx) 6))
                               (Z.land (byte_val c3) maskx), 4%nat)
                      end
                end
          end
  end.

(** [AppendRune] on a rune that is not negative (the only use here):
    the bytes appended.  Surrogates and values beyond [MaxRune] are
    written as [RuneError]. *)
Definition enc3 (r : Z) : gostring :=
  [byte_of (Z.lor t3 (Z.shiftr r 12));
   byte_of (Z.lor tx (Z.land (Z.shiftr r 6) maskx));
   byte_of (Z.lor tx (Z.land r maskx))].

Definition AppendRune (r : Z) : gostring :=
  if r <=? rune1Max then [byte_of r]
  else if r <=? rune2Max then
    [byte_of (Z.lor t2 (Z.shiftr r 6)); byte_of (Z.lor tx (Z.land r maskx))]
  else if (MaxRune <? r) || ((surrogateMin <=? r) && (r <=? surrogateMax))
  then enc3 RuneError
  else if r <=? rune3Max then enc3 r
  else
    [byte_of (Z.lor t4 (Z.shiftr r 18));
     byte_of (Z.lor tx (Z.land (Z.shiftr r 12) maskx));
     byte_of (Z.lor tx (Z.land (Z.shiftr r 6) maskx));
     byte_of (Z.lor tx (Z.land r maskx))].

End utf8.

(** ** unicode (Go standard library)

    [unicode.ToLower] maps the ASCII letters itself and looks every other
    rune up in the case tables of the Unicode database; those tables are not
    part of this program and are taken as a parameter. *)

Module unicode.
Local Open Scope Z_scope.

Definition MaxASCII : Z := 0x7F.
Definition char_A : Z := 65.
Definition char_Z : Z := 90.
Definition char_a : Z := 97.

Section CaseTables.
Variable lower_table : Z → Z.

Definition ToLower (r : Z) : Z :=
  if r <=? MaxASCII then
    if (char_A <=? r) && (r <=? char_Z) then r + (char_a - char_A) else r
  else lower_table r.

End CaseTables.

End unicode.

(** ** strings (Go standard library) *)

Module strings.
Import utf8.

(** [len(s) >= len(prefix) && s[:len(prefix)] == prefix] *)
Definition HasPrefix (s prefix : gostring) : bool :=
  bool_decide (length prefix ≤ length s)
  && bool_decide (take (length prefix) s = prefix).

(** [Index]: the position of the first occurrence of [substr] in [s];
    [None] stands for the source's -1. *)
Fixpoint Index (s substr : gostring) : option nat :=
  if HasPrefix s substr then Some 0
  else
    match s with
    | [] => None
    | _ :: s' => S <$> Index s' substr
    end.

(** [Contains(s, substr)] is [Index(s, substr) >= 0]. *)
Definition Contains (s substr : gostring) : bool :=
  match Index s substr with
  | Some _ => true
  | None => false
  end.

(** [Replace(s, old, new, 1)]: the first occurrence of [old] replaced by
    [new]; [s] itself when there is none.  (The backend only calls
    [Replace] with [n = 1].) *)
Definition Replace_1 (s old new : gostring) : gostring :=
  match Index s old with
  | None => s
  | Some j => take j s ++ new ++ drop (j + length old) s
  end.

Section Map.
Variable mapping : Z → Z.

(** [Map(mapping, s)].  The source ranges over the runes of [s]; as long as
    no rune has changed ([changed = false]) the bytes read are kept as they
    are, and from the first rune that [mapping] changes (or the first invalid
    byte, read as [RuneError] of width 1) every mapped rune that is not
    negative is written with [WriteRune] ([WriteByte] for a rune below
    [RuneSelf], which writes the same byte).  The width of a rune that was
    decoded from a valid sequence is its [RuneLen].  [fuel] bounds the number
    of runes; [length s] is enough since every rune of a non-empty string has
    a positive width (lemma [Map_loop_fuel] below). *)
Fixpoint Map_loop (fuel : nat) (changed : bool) (s : gostring) : gostring :=
  match fuel with
  | 0 => []
  | S fuel' =>
      match s with
      | [] => []
      | _ :: _ =>
          let '(c, width) := DecodeRuneInString s in
          let r := mapping c in
          if negb changed && (r =? c)%Z
             && (negb (c =? RuneError)%Z || negb (width =? 1)%nat)
          then take width s ++ Map_loop fuel' false (drop width s)
          else (if (0 <=? r)%Z then AppendRune r else [])
                 ++ Map_loop fuel' true (drop width s)
      end
  end.

Definition Map (s : gostring) : gostring := Map_loop (length s) false s.

End Map.

Definition isUpperByte (c : ascii) : bool :=
  (unicode.char_A <=? byte_val c)%Z && (byte_val c <=? unicode.char_Z)%Z.

Definition lowerByte (c : ascii) : ascii :=
  if isUpperByte c
  then byte_of (byte_val c + (unicode.char_a - unicode.char_A))
  else c.

Section ToLower.
Variable lower_table : Z → Z.

(** [ToLower]: ASCII-only strings are lowered byte by byte (and returned as
    they are when they have no upper-case letter); any other string goes
    through [Map(unicode.ToLower, s)]. *)
Definition ToLower (s : gostring) : gostring :=
  let isASCII := forallb (λ c, (byte_val c <? RuneSelf)%Z) s in
  let hasUpper := existsb isUpperByte s in
  if isASCII then
    if negb hasUpper then s else map lowerByte s
  else Map (unicode.ToLower lower_table) s.

End ToLower.

End strings.

(** ** fmt (Go standard library): the verbs used by the backend *)

Module fmt.

(** [%d] of an [int]. *)
Definition verb_d (n : Z) : gostring := str (NilZero.string_of_int (Z.to_int n)).

End fmt.

(** ** provider: the chat provider interface and its implementations *)

Module provider.

(** The interface [ChatProvider]. *)
Class ChatProvider (P : Type) := {
  Model : P → gostring;
  Reply : P → list Message → gostring → result gostring
}.

(** *** The mock provider *)

Inductive MockProvider := mkMockProvider.

Definition MockProvider_Model (m : MockProvider) : gostring := str "mock-lola-ia".

Definition MockProvider_Reply (m : MockProvider) (history : list Message)
    (userInput : gostring) : result gostring :=
  Ok (str "Entendido. (mock) Me pediste: " ++ dquote ++ userInput ++ dquote).

#[export] Instance MockProvider_ChatProvider : ChatProvider MockProvider :=
  {| Model := MockProvider_Model; Reply := MockProvider_Reply |}.

(** *** The OpenAI provider

    The HTTP exchange is the environment's: [client_Do] stands for
    [p.client.Do], and a response carries what [Reply] reads of it, namely
    the status and the two decodings of the body that the source attempts. *)

Record item := mkItem { item_Role : gostring; item_Content : gostring }.

Record payload := mkPayload {
  payload_Model : gostring;
  payload_Input : list item
}.

Record http_Request := mkRequest {
  Method : gostring;
  URL : gostring;
  Authorization : gostring;
  ContentType : gostring;
  Body : payload
}.

Record http_Response := mkResponse {
  StatusCode : Z;
  (** [resp.Status], the status line text *)
  Status : gostring;
  (** [e.Error.Message] after [Decode(&e)]: empty when the body has no such
      field or is not JSON (the decoding error is dropped by the source) *)
  body_error_Message : gostring;
  (** [Decode(&out)]: the error, or for each element of [out.Output] the
      [Text] of each element of its [Content] *)
  body_Output : result (list (list gostring))
}.

Record OpenAIProvider := mkOpenAIProvider {
  apiKey : gostring;
  model : gostring;
  client_Do : http_Request → result http_Response
}.

Definition OpenAIProvider_Model (p : OpenAIProvider) : gostring := model p.

Definition OpenAIProvider_payload (p : OpenAIProvider) (history : list Message)
    (userInput : gostring) : payload :=
  {| payload_Model := model p;
     payload_Input :=
       [ {| item_Role := str "system";
            item_Content := str "Eres Lola IA, un asistente breve y claro." |} ]
       ++ map (λ m, {| item_Role := Role_ m; item_Content := Content m |}) history
       ++ [ {| item_Role := str "user"; item_Content := userInput |} ] |}.

Definition OpenAIProvider_Reply (p : OpenAIProvider) (history : list Message)
    (userInput : gostring) : result gostring :=
  let req :=
    {| Method := str "POST";
       URL := str "https://api.openai.com/v1/responses";
       Authorization := str "Bearer " ++ apiKey p;
       ContentType := str "application/json";
       Body := OpenAIProvider_payload p history userInput |} in
  match client_Do p req with
  | Err err => Err err
  | Ok resp =>
      if (400 <=? StatusCode resp)%Z then
        if bool_decide (body_error_Message resp ≠ [])
        then Err (body_error_Message resp)
        else Err (str "openai error: " ++ Status resp)
      else
        match body_Output resp with
        | Err err => Err err
        | Ok out =>
            (* len(out.Output) > 0 && len(out.Output[0].Content) > 0 *)
            match out with
            | (text :: _) :: _ => Ok text
            | _ => Err (str "respuesta vacía de OpenAI")
            end
        end
  end.

#[export] Instance OpenAIProvider_ChatProvider : ChatProvider OpenAIProvider :=
  {| Model := OpenAIProvider_Model; Reply := OpenAIProvider_Reply |}.

End provider.

(** ** server: prompt assembly and the HTTP handlers of [main] *)

Module server.
Import strings provider.

(** *** buildFilesContext *)

Definition maxPerFileBytes : nat := 20 * 1024.
Definition maxTotalBytes : nat := 80 * 1024.

Definition context_header : gostring :=
  str "[Contexto de archivos CSV cargados]" ++ nl ++
  str "Puedes usar estos datos para responder si el usuario los menciona o pide análisis." ++ nl.

(** [fmt.Fprintf(&b, "- %s (%d bytes)\n", f.Name, f.Size)] *)
Definition file_line (f : KnowledgeFile) : gostring :=
  str "- " ++ Name f ++ str " (" ++ fmt.verb_d (Size f) ++ str " bytes)" ++ nl.

(** [for !utf8.ValidString(txt) && len(txt) > 0 { txt = txt[:len(txt)-1] }];
    each turn of the loop shortens [txt], so [length txt] turns are enough. *)
Fixpoint trim_invalid (fuel : nat) (txt : gostring) : gostring :=
  match fuel with
  | 0 => txt
  | S fuel' =>
      if negb (utf8.ValidString txt) && bool_decide (0 < length txt)
      then trim_invalid fuel' (take (length txt - 1) txt)
      else txt
  end.

(** The excerpt of [f] written when [total] bytes of content are already in
    the context: the per-file cut, the cut to the remaining budget, and the
    trimming of an invalid tail. *)
Definition file_excerpt (total : nat) (f : KnowledgeFile) : gostring :=
  let txt := Text f in
  let txt := if bool_decide (maxPerFileBytes < length txt)
             then take maxPerFileBytes txt else txt in
  let txt := if bool_decide (maxTotalBytes < total + length txt)
             then take (maxTotalBytes - total) txt else txt in
  trim_invalid (length txt) txt.

Definition content_marker : gostring := str "Contenido (parcial):" ++ nl ++ nl.

(** One turn of the loop over the files: the builder [b] and [total]. *)
Definition context_step (acc : gostring * nat) (f : KnowledgeFile)
    : gostring * nat :=
  let '(b, total) := acc in
  let b := b ++ file_line f in
  if bool_decide (maxTotalBytes ≤ total) then (b, total)
  else
    let txt := file_excerpt total f in
    if bool_decide (0 < length txt)
    then (b ++ content_marker ++ txt ++ nl ++ nl, total + length txt)
    else (b, total).

Definition buildFilesContext (mem : MemoryStore) : gostring :=
  let files := ListFiles mem in
  if bool_decide (length files = 0) then []
  else fst (fold_left context_step files (context_header, 0)).

(** *** The analyst prompt *)

Definition analystTemplate : gostring :=
  str "You are an expert market researcher and data analyst for a major financial institution. Your task is to analyze raw customer feedback and summarize the key insights. Below is a collection of customer feedback data from various sources including social media, surveys, and chat logs." ++ nl ++
  str "Customer Data: {Insert your raw customer data here}" ++ nl ++
  str "User Query: {Insert the Nubanker's question here, e.g., " ++ dquote ++ str "what are credit card customers' main pain points from the last 3 months?" ++ dquote ++ str "}" ++ nl ++
  str "Instructions:" ++ nl ++
  str "Analyze the provided " ++ dquote ++ str "Customer Data" ++ dquote ++ str " to answer the " ++ dquote ++ str "User Query." ++ dquote ++ nl ++
  str "Synthesize the key information into a concise summary." ++ nl ++
  str "Identify the main pain points, frustrations, and underlying customer needs mentioned in the data." ++ nl ++
  str "Translate the pain points into specific, actionable feedback that can be used by product and operations teams" ++ nl ++
  str "List the top 3 most frequently mentioned topics or themes related to the query. For each topic, calculate the approximate percentage of mentions it accounts for." ++ nl ++
  str "For each of the top 3 topics, provide 1-2 direct quotes (verbatim) from the data to serve as concrete examples." ++ nl ++
  nl ++
  str "Mode rules:" ++ nl ++
  str "- Use the required output format ONLY if the User Query is about analyzing data/feedback (e.g., asks for insights, summary, pain points, frequencies/percentages, themes/topics, verbatim quotes, surveys, social listening, or similar analysis tasks)." ++ nl ++
  str "- If the User Query is NOT about data analysis (e.g., greetings, casual questions, UI/help questions, deployment, configuration), DO NOT use the formatted sections. Respond briefly and directly in neutral Spanish without any of the formatted headers." ++ nl ++
  str "- If there is no relevant Customer Data for the User Query, say so concisely and still follow the previous rule about whether to use the formatted sections." ++ nl ++
  nl ++
  str "Output language: Respond strictly in neutral Spanish." ++ nl ++
  nl ++
  str "When the analysis mode applies, format the final response using the exact structure below. Do not include any extra text, introductions, or conclusions outside of this format." ++ nl ++
  str "Format:" ++ nl ++
  str "--- Summary [Provide a concise, high-level summary here.]" ++ nl ++
  str "--- Main Pain Points & Needs [List the main pain points and needs using bullet points.]" ++ nl ++
  str "--- Actionable Feedback [List actionable feedback using bullet points.]" ++ nl ++
  str "--- Top 3 Topics and (%) of Mentions [List the topics with their percentage here, e.g., 1. Topic One (X%) 2. Topic Two (Y%) 3. Topic Three (Z%) ]" ++ nl ++
  str "--- Examples of Verbatim for those main topics [Provide verbatim examples here, clearly separating them by topic.]".

Definition placeholder_data : gostring := str "{Insert your raw customer data here}".

Definition placeholder_query : gostring :=
  str "{Insert the Nubanker's question here, e.g., " ++ dquote ++
  str "what are credit card customers' main pain points from the last 3 months?" ++
  dquote ++ str "}".

Definition buildAnalystPrompt (userQuery csvContext : gostring) : gostring :=
  let s := Replace_1 analystTemplate placeholder_data csvContext in
  let s := Replace_1 s placeholder_query userQuery in
  s.

Definition keywords : list gostring :=
  [ str "analiza"; str "análisis"; str "analysis"; str "analizar"; str "insights";
    str "resumen"; str "summary"; str "puntos de dolor"; str "pain points";
    str "temas"; str "topics"; str "top 3"; str "top3"; str "%"; str "porcentaje";
    str "frecuencia"; str "tendencias"; str "trends"; str "verbatim"; str "citas";
    str "quotes"; str "encuesta"; str "surveys"; str "feedback"; str "quejas";
    str "needs"; str "necesidades"; str "social"; str "menciones"; str "cluster";
    str "tema"; str "csv"; str "datos"; str "data" ].

Definition filesMax : nat := 50.

(** [useAnalyst := true] in [main]. *)
Definition useAnalyst : bool := true.

Section Classifier.
Variable lower_table : Z → Z.

(** The loop returns at the first keyword found in the lowered query. *)
Definition isAnalystQuery (q : gostring) : bool :=
  let ql := ToLower lower_table q in
  existsb (λ kw, Contains ql kw) keywords.

End Classifier.

(** *** The handlers

    A handler runs on a [World]: the store, the number of calls made to
    [time.Now] so far, and the log of the calls made to the provider.  The
    values [time.Now] returns are the environment's ([now]). *)

Record World := mkWorld {
  mem : MemoryStore;
  ticks : nat;
  provider_calls : list (list Message * gostring)
}.

Definition M (A : Type) : Type := World → A * World.

#[export] Instance M_ret : MRet M := λ A a w, (a, w).
#[export] Instance M_bind : MBind M :=
  λ A B f m w, let '(a, w') := m w in f a w'.

(** The bodies written with [c.JSON]. *)
Inductive JSON :=
| H_error (msg : gostring)
| H_error_max (msg : gostring) (max : nat)
| H_ok
| H_model (name : gostring)
| H_files (files : list KnowledgeFile)
| H_total (total : nat)
| ChatHistory (msgs : list Message)
| SendMessageResponse (reply : Message) (model_name : gostring)
| UploadFilesResponse (count total : nat).

Record Response := mkHTTPResponse { status : nat; body : JSON }.

Definition c_JSON (code : nat) (obj : JSON) : M Response :=
  mret {| status := code; body := obj |}.

(** A request as the router hands it to a handler; a body is [None] when
    [c.BindJSON] fails. *)
Inductive Request :=
| GET_api_model
| GET_api_messages
| POST_api_messages (req : option SendMessageRequest)
| POST_api_reset
| GET_api_files
| POST_api_files (req : option UploadFilesRequest)
| DELETE_api_files
| DELETE_api_files_name (name : gostring).

Section Handlers.
Context {P : Type} `{ChatProvider P}.
Variable chat : P.
Variable lower_table : Z → Z.
Variable now : nat → Time.

Definition time_Now : M Time :=
  λ w, (now (ticks w),
        {| mem := mem w; ticks := S (ticks w); provider_calls := provider_calls w |}).

(** A store operation, run on the store of the world. *)
Definition on_mem {A : Type} (op : MemoryStore → MemoryStore * A) : M A :=
  λ w, let '(s, a) := op (mem w) in
       (a, {| mem := s; ticks := ticks w; provider_calls := provider_calls w |}).

Definition mem_All : M (list Message) := on_mem (λ s, (s, All s)).
Definition mem_Append (msg : Message) : M unit := on_mem (λ s, (Append msg s, tt)).
Definition mem_Reset : M unit := on_mem (λ s, (Reset s, tt)).
Definition mem_ListFiles : M (list KnowledgeFile) := on_mem (λ s, (s, ListFiles s)).
Definition mem_AddFiles (files : list KnowledgeFile) : M nat := on_mem (AddFiles files).
Definition mem_RemoveFile (name : gostring) : M nat := on_mem (RemoveFile name).
Definition mem_ClearFiles : M unit := on_mem (λ s, (ClearFiles s, tt)).

Definition mem_SeedAssistantHello (text : gostring) : M unit :=
  t ← time_Now;
  on_mem (λ s, (SeedAssistantHello text t s, tt)).

(** [chat.Reply(history, prompt)], logged. *)
Definition chat_Reply (history : list Message) (prompt : gostring)
    : M (result gostring) :=
  λ w, (Reply chat history prompt,
        {| mem := mem w; ticks := ticks w;
           provider_calls := provider_calls w ++ [(history, prompt)] |}).

(** The prompt of a message: the analyst template when the query is
    classified as analytical, the query itself otherwise. *)
Definition build_prompt (content : gostring) : M gostring :=
  if useAnalyst && isAnalystQuery lower_table content then
    csvCtx ← on_mem (λ s, (s, buildFilesContext s));
    mret (buildAnalystPrompt content csvCtx)
  else mret content.

Definition handle_POST_api_messages (req : option SendMessageRequest)
    : M Response :=
  match req with
  | None => c_JSON 400 (H_error (str "content requerido"))
  | Some req =>
      if bool_decide (req_Content req = []) then
        c_JSON 400 (H_error (str "content requerido"))
      else
        t ← time_Now;
        let userMsg :=
          {| Role_ := RoleUser; Content := req_Content req; CreatedAt := t |} in
        mem_Append userMsg;;
        prompt ← build_prompt (req_Content req);
        history ← mem_All;
        r ← chat_Reply history prompt;
        match r with
        | Err err => c_JSON 502 (H_error err)
        | Ok replyText =>
            t' ← time_Now;
            let assistantMsg :=
              {| Role_ := RoleAssistant; Content := replyText; CreatedAt := t' |} in
            mem_Append assistantMsg;;
            c_JSON 200 (SendMessageResponse assistantMsg (Model chat))
        end
  end.

Definition handle_POST_api_reset : M Response :=
  mem_Reset;;
  mem_SeedAssistantHello (str "He reiniciado la conversación. ¿En qué te ayudo?");;
  c_JSON 200 H_ok.

Definition handle_POST_api_files (req : option UploadFilesRequest) : M Response :=
  match req with
  | None => c_JSON 400 (H_error (str "JSON inválido o vacío"))
  | Some req =>
      if bool_decide (length (req_Files req) = 0) then
        c_JSON 400 (H_error (str "files requerido"))
      else
        files ← mem_ListFiles;
        let current := length files in
        let incoming := length (req_Files req) in
        if bool_decide (filesMax < current + incoming) then
          c_JSON 413 (H_error_max (str "se excede el máximo de archivos") filesMax)
        else
          total ← mem_AddFiles (req_Files req);
          c_JSON 200 (UploadFilesResponse (length (req_Files req)) total)
  end.

Definition handle_DELETE_api_files_name (name : gostring) : M Response :=
  left ← mem_RemoveFile name;
  c_JSON 200 (H_total left).

(** The routes of [main]. *)
Definition handle (r : Request) : M Response :=
  match r with
  | GET_api_model => c_JSON 200 (H_model (Model chat))
  | GET_api_messages => msgs ← mem_All; c_JSON 200 (ChatHistory msgs)
  | POST_api_messages req => handle_POST_api_messages req
  | POST_api_reset => handle_POST_api_reset
  | GET_api_files => files ← mem_ListFiles; c_JSON 200 (H_files files)
  | POST_api_files req => handle_POST_api_files req
  | DELETE_api_files => mem_ClearFiles;; c_JSON 200 H_ok
  | DELETE_api_files_name name => handle_DELETE_api_files_name name
  end.

(** The store at start-up: [NewMemoryStore], then the greeting. *)
Definition startup : M unit :=
  mem_SeedAssistantHello (str "¡Hola! Soy Lola IA lista para ayudarte 🚀").

End Handlers.

Definition initial_world : World :=
  {| mem := NewMemoryStore; ticks := 0; provider_calls := [] |}.

End server.

(** ** Vocabulary of the properties *)

Module spec.
Import strings provider server.

(** The names of the stored files, in the order of the list. *)
Definition names (ks : list KnowledgeFile) : list gostring := map Name ks.

(** What the loops of [AddFiles] maintain between the slice (through its
    names) and the map [nameToIdx]: an index of the map points at a file of
    that name, and every stored name has an index. *)
Definition idx_ok (ns : list gostring) (nameToIdx : gmap gostring nat) : Prop :=
  (∀ name i, nameToIdx !! name = Some i → ns !! i = Some name)
  ∧ (∀ name, name ∈ ns → is_Some (nameToIdx !! name)).

(** The operations of the store, as a caller can issue them. *)
Inductive store_op :=
| OpAppend (msg : Message)
| OpReset
| OpSeedAssistantHello (text : gostring) (now : Time)
| OpAddFiles (files : list KnowledgeFile)
| OpRemoveFile (name : gostring)
| OpClearFiles.

Definition run_op (s : MemoryStore) (o : store_op) : MemoryStore :=
  match o with
  | OpAppend msg => Append msg s
  | OpReset => Reset s
  | OpSeedAssistantHello text now => SeedAssistantHello text now s
  | OpAddFiles files => fst (AddFiles files s)
  | OpRemoveFile name => fst (RemoveFile name s)
  | OpClearFiles => ClearFiles s
  end.

Definition run_ops (ops : list store_op) (s : MemoryStore) : MemoryStore :=
  fold_left run_op ops s.

Definition is_reset (o : store_op) : bool :=
  match o with
  | OpReset => true
  | _ => false
  end.

(** The messages a sequence of operations appends, in the order of arrival. *)
Definition appended_by (o : store_op) : list Message :=
  match o with
  | OpAppend msg => [msg]
  | OpSeedAssistantHello text now =>
      [ {| Role_ := RoleAssistant; Content := text; CreatedAt := now |} ]
  | _ => []
  end.

Definition appended (ops : list store_op) : list Message :=
  flat_map appended_by ops.

Definition no_reset (ops : list store_op) : bool :=
  forallb (λ o, negb (is_reset o)) ops.

(** The client input errors: a body that does not bind, a message without
    content, an upload without files, an upload that takes the number of
    files beyond [filesMax] (by the handler's count, or by the number of
    files the store would hold). *)
Definition client_input_error (r : Request) (w : World) : Prop :=
  match r with
  | POST_api_messages None => True
  | POST_api_messages (Some req) => req_Content req = []
  | POST_api_files None => True
  | POST_api_files (Some req) =>
      req_Files req = []
      ∨ filesMax < length (knowledge (mem w)) + length (req_Files req)
      ∨ filesMax < (AddFiles (req_Files req) (mem w)).2
  | _ => False
  end.

(** The status the specification gives each of them. *)
Definition error_status (r : Request) : nat :=
  match r with
  | POST_api_files (Some req) =>
      if bool_decide (req_Files req = []) then 400 else 413
  | _ => 400
  end.

Definition error_message (b : JSON) : option gostring :=
  match b with
  | H_error msg => Some msg
  | H_error_max msg _ => Some msg
  | _ => None
  end.

(** What makes [OpenAIProvider.Reply] fail, read off an exchange. *)
Definition openai_failure (r : result http_Response) : Prop :=
  match r with
  | Err _ => True
  | Ok resp =>
      (400 ≤ StatusCode resp)%Z
      ∨ match body_Output resp with
        | Err _ => True
        | Ok out => out = [] ∨ ∃ rest, out = [] :: rest
        end
  end.

Definition openai_request (p : OpenAIProvider) (history : list Message)
    (userInput : gostring) : http_Request :=
  {| Method := str "POST";
     URL := str "https://api.openai.com/v1/responses";
     Authorization := str "Bearer " ++ apiKey p;
     ContentType := str "application/json";
     Body := OpenAIProvider_payload p history userInput |}.

(** The message the handler stores for a request, the history and the prompt
    it hands to the provider. *)
Definition user_message (now : nat → Time) (content : gostring) (w : World) : Message :=
  {| Role_ := RoleUser; Content := content; CreatedAt := now (ticks w) |}.

Definition prompt_of (lower_table : Z → Z) (content : gostring) (w : World) : gostring :=
  if isAnalystQuery lower_table content
  then buildAnalystPrompt content (buildFilesContext (mem w))
  else content.

(** What a file contributes to the context when its excerpt is [e]: its
    summary line and, for a non-empty excerpt, the marker, the excerpt and
    two newlines. *)
Definition render (f : KnowledgeFile) (e : gostring) : gostring :=
  file_line f
  ++ (if bool_decide (0 < length e) then content_marker ++ e ++ nl ++ nl else []).

(** The excerpt of a file when [total] bytes of content are written: none
    once the budget is spent. *)
Definition excerpt_at (total : nat) (f : KnowledgeFile) : gostring :=
  if bool_decide (maxTotalBytes ≤ total) then [] else file_excerpt total f.

(** The excerpts of the files; [total] is the number of content bytes
    written before the first of them. *)
Fixpoint excerpts (total : nat) (files : list KnowledgeFile) : list gostring :=
  match files with
  | [] => []
  | f :: fs => excerpt_at total f :: excerpts (total + length (excerpt_at total f)) fs
  end.

(** Four files of 20 KiB of ASCII each: their excerpts use the whole budget. *)
Definition big_file (name : string) : KnowledgeFile :=
  {| Name := str name; Size := 20480;
     Text := replicate maxPerFileBytes (ascii_of_nat 97) |}.

Definition big_store : MemoryStore :=
  (AddFiles [big_file "a.csv"; big_file "b.csv"; big_file "c.csv"; big_file "d.csv"]
            NewMemoryStore).1.

(** [p] occurs in [s] at position [i]. *)
Definition occurs_at (s p : gostring) (i : nat) : Prop :=
  take (length p) (drop i s) = p.

(** The three fixed pieces of the template: before the data placeholder,
    between the two placeholders, after the query placeholder. *)
Definition template_pieces : gostring * gostring * gostring :=
  match Index analystTemplate placeholder_data with
  | Some i =>
      let rest := drop (i + length placeholder_data) analystTemplate in
      match Index rest placeholder_query with
      | Some j =>
          (take i analystTemplate, take j rest,
           drop (j + length placeholder_query) rest)
      | None => (take i analystTemplate, rest, [])
      end
  | None => (analystTemplate, [], [])
  end.

Definition template_head : gostring := template_pieces.1.1.
Definition template_mid : gostring := template_pieces.1.2.
Definition template_tail : gostring := template_pieces.2.

(** The analyst prompt as the specification words it: the template with the
    CSV context and the query in the place of its two placeholders. *)
Definition filled_template (userQuery csvContext : gostring) : gostring :=
  template_head ++ csvContext ++ template_mid ++ userQuery ++ template_tail.

(** The section markers of the output format. *)
Definition sectionMarkers : list gostring :=
  [ str "--- Summary";
    str "--- Main Pain Points & Needs";
    str "--- Actionable Feedback";
    str "--- Top 3 Topics and (%) of Mentions";
    str "--- Examples of Verbatim for those main topics" ].

Definition lbrace : ascii := ascii_of_nat 123.
Definition newline : ascii := ascii_of_nat 10.

(** An ASCII byte that is not an upper-case letter: lowering leaves it. *)
Definition lower_ascii (c : ascii) : bool :=
  (byte_val c <? utf8.RuneSelf)%Z && negb (isUpperByte c).

(** *** Concrete stores and requests *)

Definition no_case_table : Z → Z := λ r, r.
Definition epoch : nat → Time := λ _, 0%Z.

(** The scenario of the specification: [a.csv], then the same name again. *)
Definition a_csv : KnowledgeFile :=
  {| Name := str "a.csv"; Size := 7; Text := str "x,y" ++ nl ++ str "1,2" |}.
Definition a_csv_again : KnowledgeFile :=
  {| Name := str "a.csv"; Size := 11; Text := str "x,y,z" ++ nl ++ str "1,2,3" |}.
Definition b_csv : KnowledgeFile :=
  {| Name := str "b.csv"; Size := 3; Text := str "p,q" |}.

Definition one_file_store : MemoryStore := (AddFiles [a_csv] NewMemoryStore).1.

Definition world_of (s : MemoryStore) : World :=
  {| mem := s; ticks := 0; provider_calls := [] |}.

(** Fifty files, named after their number. *)
Definition numbered_file (i : nat) : KnowledgeFile :=
  {| Name := fmt.verb_d (Z.of_nat i) ++ str ".csv"; Size := 1; Text := str "x" |}.
Definition full_store : MemoryStore :=
  (AddFiles (numbered_file <$> seq 0 filesMax) NewMemoryStore).1.

(** A file whose text is the text of the query placeholder. *)
Definition placeholder_file : KnowledgeFile :=
  {| Name := str "notes.csv"; Size := 119; Text := placeholder_query |}.
Definition placeholder_store : MemoryStore :=
  (AddFiles [placeholder_file] NewMemoryStore).1.

(** An OpenAI provider whose every exchange ends as [outcome]. *)
Definition openai_with (outcome : result http_Response) : OpenAIProvider :=
  {| apiKey := str "sk-test"; model := str "gpt-4.1-mini";
     client_Do := λ _, outcome |}.

Definition server_error : http_Response :=
  {| StatusCode := 500; Status := str "500 Internal Server Error";
     body_error_Message := str "overloaded"; body_Output := Err (str "EOF") |}.

(** A response with a 3xx status and a well-formed body. *)
Definition multiple_choices : http_Response :=
  {| StatusCode := 300; Status := str "300 Multiple Choices";
     body_error_Message := []; body_Output := Ok [[str "hola"]] |}.

Definition hola : gostring := str "hola".

Definition first_message : Message :=
  {| Role_ := RoleUser; Content := str "uno"; CreatedAt := 1%Z |}.
Definition second_message : Message :=
  {| Role_ := RoleAssistant; Content := str "dos"; CreatedAt := 2%Z |}.

End spec.

(** ** The start of [main]: environment, provider and seed files *)

(** What [main] reads of the operating system: the environment variables
    (after [godotenv.Load]) and the file system, as the three calls of
    [preloadSeedCSVs] see it. *)
Module os.

Definition Env := gmap gostring gostring.

(** [os.LookupEnv]: the value and whether the variable is set. *)
Definition LookupEnv (env : Env) (key : gostring) : option gostring := env !! key.

(** [os.Getenv]: the value, empty when the variable is not set. *)
Definition Getenv (env : Env) (key : gostring) : gostring := default [] (env !! key).

Record DirEntry := mkDirEntry {
  entry_IsDir : bool;
  entry_Name : gostring
}.

Record FileSystem := mkFileSystem {
  (** [os.Stat(dir)], read through [st.IsDir()] *)
  Stat : gostring → result bool;
  ReadDir : gostring → result (list DirEntry);
  ReadFile : gostring → result gostring
}.

End os.

Module startup.
Import strings provider server os.

(** [strings.HasSuffix]:
    [len(s) >= len(suffix) && s[len(s)-len(suffix):] == suffix] *)
Definition HasSuffix (s suffix : gostring) : bool :=
  bool_decide (length suffix ≤ length s)
  && bool_decide (drop (length s - length suffix) s = suffix).

(** *** The provider *)

Section Provider.
Variable env : Env.
(** [p.client.Do] of the client that [NewOpenAIProvider] makes. *)
Variable client : http_Request → result http_Response.

Definition NewOpenAIProvider (model : gostring) : result OpenAIProvider :=
  let key := Getenv env (str "OPENAI_API_KEY") in
  if bool_decide (key = []) then Err (str "OPENAI_API_KEY vacío")
  else
    let model := if bool_decide (model = []) then str "gpt-4.1-mini" else model in
    Ok {| apiKey := key; model := model; client_Do := client |}.

(** A value of the interface [ChatProvider] in [main]: one of the two
    implementations. *)
Inductive Chat :=
| Chat_OpenAI (p : OpenAIProvider)
| Chat_Mock (m : MockProvider).

#[export] Instance Chat_ChatProvider : ChatProvider Chat :=
  {| Model c := match c with
                | Chat_OpenAI p => Model p
                | Chat_Mock m => Model m
                end;
     Reply c := match c with
                | Chat_OpenAI p => Reply p
                | Chat_Mock m => Reply m
                end |}.

(** [var chat provider.ChatProvider] and the two [if]s that set it; [None]
    is the nil interface. *)
Definition choose_provider : Chat :=
  let chat : option Chat :=
    match LookupEnv env (str "OPENAI_API_KEY") with
    | Some _ =>
        let mdl := Getenv env (str "OPENAI_MODEL") in
        match NewOpenAIProvider mdl with
        | Ok p => Some (Chat_OpenAI p)
        | Err _ => None
        end
    | None => None
    end in
  match chat with
  | None => Chat_Mock mkMockProvider
  | Some chat => chat
  end.

End Provider.

(** *** preloadSeedCSVs

    The lines written to the standard output are not modelled. *)

Section Preload.
Variable lower_table : Z → Z.
Variable fs : FileSystem.
(** [filepath.Join] *)
Variable filepath_Join : gostring → gostring → gostring.

(** One turn of the loop over the entries of the directory. *)
Definition gather (dir : gostring) (files : list KnowledgeFile) (e : DirEntry)
    : list KnowledgeFile :=
  if entry_IsDir e then files
  else
    let name := entry_Name e in
    if HasSuffix (ToLower lower_table name) (str ".csv") then
      match ReadFile fs (filepath_Join dir name) with
      | Err _ => files
      | Ok b =>
          files ++ [ {| Name := name; Size := Z.of_nat (length b); Text := b |} ]
      end
    else files.

(** [preloadSeedCSVs] returns the new store and the number of files it
    handed to [AddFiles].  [files[:slots]] is within range: it is reached
    with [slots < len(files)]. *)
Definition preloadSeedCSVs (dir : gostring) (mem : MemoryStore)
    : MemoryStore * nat :=
  if bool_decide (dir = []) then (mem, 0)
  else
    match Stat fs dir with
    | Err _ => (mem, 0)
    | Ok isDir =>
        if negb isDir then (mem, 0)
        else
          match ReadDir fs dir with
          | Err _ => (mem, 0)
          | Ok entries =>
              let files := fold_left (gather dir) entries [] in
              if bool_decide (length files = 0) then (mem, 0)
              else if bool_decide (filesMax < length (ListFiles mem) + length files)
              then
                let slots : Z :=
                  (Z.of_nat filesMax - Z.of_nat (length (ListFiles mem)))%Z in
                if bool_decide (slots ≤ 0)%Z then (mem, 0)
                else
                  let files := take (Z.to_nat slots) files in
                  ((AddFiles files mem).1, length files)
              else ((AddFiles files mem).1, length files)
          end
    end.

Variable env : Env.
Variable now : nat → Time.

(** [seedDir] of [main]. *)
Definition seedDir : gostring :=
  let d := Getenv env (str "SEED_CSV_DIR") in
  if bool_decide (d = []) then str "./seed" else d.

(** [main] up to the routes: the new store, the greeting, the seed files. *)
Definition boot : M unit :=
  startup now;;
  _ ← on_mem (preloadSeedCSVs seedDir);
  mret tt.

End Preload.

End startup.

(** ** More vocabulary *)

Module spec_requests.
Import strings provider server spec os startup.

(** The file that [preloadSeedCSVs] makes of a directory entry, if any. *)
Definition seed_file (lower_table : Z → Z) (fs : FileSystem)
    (filepath_Join : gostring → gostring → gostring) (dir : gostring)
    (e : DirEntry) : option KnowledgeFile :=
  if entry_IsDir e then None
  else if HasSuffix (ToLower lower_table (entry_Name e)) (str ".csv") then
    match ReadFile fs (filepath_Join dir (entry_Name e)) with
    | Ok b => Some {| Name := entry_Name e; Size := Z.of_nat (length b); Text := b |}
    | Err _ => None
    end
  else None.

Definition hello : gostring := str "¡Hola! Soy Lola IA lista para ayudarte 🚀".

Section Requests.
Context {P : Type} `{ChatProvider P}.
Variable chat : P.
Variable lower_table : Z → Z.
Variable now : nat → Time.

(** The world after a sequence of requests, served one after the other. *)
Definition run_requests (rs : list Request) (w : World) : World :=
  fold_left (λ w r, (handle chat lower_table now r w).2) rs w.

(** The provider calls a request makes. *)
Definition calls_of (r : Request) (w : World) : list (list Message * gostring) :=
  match r with
  | POST_api_messages (Some req) =>
      if bool_decide (req_Content req = []) then []
      else [(All (mem w) ++ [user_message now (req_Content req) w],
             prompt_of lower_table (req_Content req) w)]
  | _ => []
  end.

(** The answer of the provider to a message with [content]. *)
Definition reply_of (content : gostring) (w : World) : result gostring :=
  Reply chat (All (mem w) ++ [user_message now content w])
        (prompt_of lower_table content w).

Definition assistant_message (text : gostring) (w : World) : Message :=
  {| Role_ := RoleAssistant; Content := text; CreatedAt := now (S (ticks w)) |}.

(** The effect of a request on the store, in the operations of the store. *)
Definition store_after (r : Request) (w : World) : MemoryStore :=
  match r with
  | POST_api_messages (Some req) =>
      if bool_decide (req_Content req = []) then mem w
      else
        let s := Append (user_message now (req_Content req) w) (mem w) in
        match reply_of (req_Content req) w with
        | Err _ => s
        | Ok text => Append (assistant_message text w) s
        end
  | POST_api_reset =>
      SeedAssistantHello (str "He reiniciado la conversación. ¿En qué te ayudo?")
        (now (ticks w)) (Reset (mem w))
  | POST_api_files (Some req) =>
      if bool_decide (req_Files req = []) then mem w
      else if bool_decide (filesMax < length (knowledge (mem w)) + length (req_Files req))
      then mem w
      else (AddFiles (req_Files req) (mem w)).1
  | DELETE_api_files => ClearFiles (mem w)
  | DELETE_api_files_name name => (RemoveFile name (mem w)).1
  | _ => mem w
  end.

(** The number of calls of [time.Now] a request makes. *)
Definition clock_reads (r : Request) (w : World) : nat :=
  match r with
  | POST_api_messages (Some req) =>
      if bool_decide (req_Content req = []) then 0
      else match reply_of (req_Content req) w with
           | Err _ => 1
           | Ok _ => 2
           end
  | POST_api_reset => 1
  | _ => 0
  end.

End Requests.

(** The two greetings of the server. *)
Definition greetings : list gostring :=
  [ str "¡Hola! Soy Lola IA lista para ayudarte 🚀";
    str "He reiniciado la conversación. ¿En qué te ayudo?" ].

Definition is_greeting (m : Message) : Prop :=
  Role_ m = RoleAssistant ∧ Content m ∈ greetings.

(** A conversation that starts with one of them. *)
Definition starts_with_greeting (msgs : list Message) : Prop :=
  ∃ m, msgs !! 0 = Some m ∧ is_greeting m.

(** Messages in the order of their times, and none of them after [t]. *)
Definition chronological (msgs : list Message) : Prop :=
  ∀ i j mi mj, i ≤ j → msgs !! i = Some mi → msgs !! j = Some mj →
    (CreatedAt mi ≤ CreatedAt mj)%Z.

Definition not_after (t : Time) (msgs : list Message) : Prop :=
  Forall (λ m, (CreatedAt m ≤ t)%Z) msgs.

(** A clock that does not go back. *)
Definition monotone (now : nat → Time) : Prop :=
  ∀ i j, i ≤ j → (now i ≤ now j)%Z.

(** The operations of the store on its files, and the others. *)
Definition file_op (o : store_op) : bool :=
  match o with
  | OpAddFiles _ | OpRemoveFile _ | OpClearFiles => true
  | _ => false
  end.

(** The item of the OpenAI payload for a message. *)
Definition item_of (m : Message) : item :=
  {| item_Role := Role_ m; item_Content := Content m |}.

Definition system_item : item :=
  {| item_Role := str "system";
     item_Content := str "Eres Lola IA, un asistente breve y claro." |}.

(** A byte that is not an opening brace. *)
Definition not_lbrace (c : ascii) : bool := negb (Ascii.eqb c lbrace).

(** A string of ASCII bytes. *)
Definition is_ascii (s : gostring) : bool :=
  forallb (λ c, (byte_val c <? utf8.RuneSelf)%Z) s.

(** *** A concrete environment *)

(** A clock that advances by one at each reading. *)
Definition tick_clock : nat → Time := Z.of_nat.

(** No environment variable is set. *)
Definition no_env : Env := ∅.

Definition join_slash (dir name : gostring) : gostring := dir ++ str "/" ++ name.

(** A seed directory: two CSV files, one of them with an upper-case
    extension, a sub-directory, a text file and a CSV file that cannot be
    read. *)
Definition seed_entries : list DirEntry :=
  [ {| entry_IsDir := false; entry_Name := str "a.csv" |};
    {| entry_IsDir := true; entry_Name := str "old.csv" |};
    {| entry_IsDir := false; entry_Name := str "notes.txt" |};
    {| entry_IsDir := false; entry_Name := str "locked.csv" |};
    {| entry_IsDir := false; entry_Name := str "B.CSV" |} ].

Definition seed_fs : FileSystem :=
  {| Stat := λ _, Ok true;
     ReadDir := λ _, Ok seed_entries;
     ReadFile := λ p,
       if bool_decide (p = str "./seed/locked.csv")
       then Err (str "permission denied")
       else Ok (str "x,y" ++ nl ++ str "1,2") |}.

Definition two_requests : list Request :=
  [ POST_api_files (Some {| req_Files := [b_csv] |});
    DELETE_api_files_name (str "a.csv") ].

End spec_requests.

(** ** The list of attachments of the frontend (App.tsx)

    The two state updates of the list of attachments.  A JavaScript [Map]
    keeps its entries in the order in which their keys were first set;
    [set] on a key that is there replaces the value where it stands.  The
    names are compared as the [Map] and [!==] compare strings, by their
    contents: the type of the names is any type with a decidable equality. *)

Module frontend.

Section Attachments.
Context {K V : Type} `{EqDecision K}.
(** [a.name] *)
Variable name : V → K.

(** [map.set(k, v)] *)
Fixpoint Map_set (m : list (K * V)) (k : K) (v : V) : list (K * V) :=
  match m with
  | [] => [(k, v)]
  | (k', v') :: m' =>
      if decide (k' = k) then (k', v) :: m'
      else (k', v') :: Map_set m' k v
  end.

(** [new Map(prev.map(a => [a.name, a]))] *)
Definition Map_of (prev : list V) : list (K * V) :=
  fold_left (λ m a, Map_set m (name a) a) prev [].

(** The update of [handleFilesSelected]:
    [for (const a of loaded) map.set(a.name, a);
     return Array.from(map.values())] *)
Definition merge_attachments (prev loaded : list V) : list V :=
  snd <$> fold_left (λ m a, Map_set m (name a) a) loaded (Map_of prev).

(** The update of [removeAttachment]:
    [prev.filter(a => a.name !== name)] *)
Definition remove_attachment (n : K) (prev : list V) : list V :=
  filter (λ a, name a ≠ n) prev.

(** The entries of a [Map] of attachments: each key is the name of its
    value. *)
Definition keyed (m : list (K * V)) : Prop :=
  Forall (λ kv, kv.1 = name kv.2) m.

End Attachments.

End frontend.

(** * Properties of the store *)

Module store_facts.
Import spec.

#[local] Arguments upsert : simpl never.

Lemma idx_ok_empty : idx_ok [] ∅.
Proof.
  split; intros name; [intros i | intros Hin].
  - by rewrite lookup_empty.
  - by apply elem_of_nil in Hin.
Qed.

(** Appending a name and recording its position keeps the map in step. *)
Lemma idx_ok_snoc ns m n :
  idx_ok ns m → idx_ok (ns ++ [n]) (<[n := length ns]> m).
Proof.
  intros [Hpos Hall]. split.
  - intros name i. rewrite lookup_insert. case_decide as Hn.
    + intros [= <-]. subst. by rewrite list_lookup_middle.
    + intros Hi. apply Hpos in Hi. by apply lookup_app_l_Some.
  - intros name [Hin | ->%list_elem_of_singleton]%elem_of_app.
    + destruct (Hall _ Hin) as [i Hi]. rewrite lookup_insert. case_decide; eauto.
    + rewrite lookup_insert_eq. eauto.
Qed.

Lemma index_names_ok ks : ∀ pre m,
  idx_ok pre m → idx_ok (pre ++ names ks) (index_names ks (length pre) m).
Proof.
  induction ks as [|f ks IH]; intros pre m Hok; simpl.
  - by rewrite app_nil_r.
  - replace (pre ++ Name f :: names ks) with ((pre ++ [Name f]) ++ names ks)
      by (by rewrite <- app_assoc).
    replace (S (length pre)) with (length (pre ++ [Name f]))
      by (rewrite length_app; simpl; lia).
    apply IH. by apply idx_ok_snoc.
Qed.

Lemma index_names_idx_ok ks : idx_ok (names ks) (index_names ks 0 ∅).
Proof. apply (index_names_ok ks [] ∅ idx_ok_empty). Qed.

(** Replacing a file by one of the same name keeps the names. *)
Lemma names_insert_same ks i f g :
  ks !! i = Some g → Name g = Name f → names (<[i := f]> ks) = names ks.
Proof.
  intros Hi Hn. unfold names. rewrite list_fmap_insert.
  apply list_insert_id. by rewrite list_lookup_fmap, Hi, <- Hn.
Qed.

Lemma idx_ok_lookup ns m ks name i :
  ns = names ks → idx_ok ns m → m !! name = Some i →
  ∃ g, ks !! i = Some g ∧ Name g = name.
Proof.
  intros -> [Hpos _] Hi. apply Hpos in Hi. unfold names in Hi.
  rewrite list_lookup_fmap in Hi.
  destruct (ks !! i) as [g|]; simplify_eq/=. eauto.
Qed.

(** The index found by [upsert] is within the slice. *)
Lemma upsert_in_range ks m f idx :
  idx_ok (names ks) m → m !! Name f = Some idx → idx < length ks.
Proof.
  intros Hok Hi. destruct (idx_ok_lookup _ _ ks _ _ eq_refl Hok Hi) as (g & Hg & _).
  by apply lookup_lt_Some in Hg.
Qed.

Lemma idx_ok_not_in ns m name : idx_ok ns m → m !! name = None → name ∉ ns.
Proof.
  intros [_ Hall] Hnone Hin. destruct (Hall _ Hin) as [i Hi]. congruence.
Qed.

(** One turn of the second loop of [AddFiles]. *)
Lemma upsert_present ks m f idx :
  idx_ok (names ks) m → m !! Name f = Some idx →
  upsert (ks, m) f = (<[idx := f]> ks, m)
  ∧ names (<[idx := f]> ks) = names ks
  ∧ names ks !! idx = Some (Name f).
Proof.
  intros Hok Hi. unfold upsert. rewrite Hi. split; [done|].
  destruct (idx_ok_lookup _ _ ks _ _ eq_refl Hok Hi) as (g & Hg & Hn).
  split; [by eapply names_insert_same|].
  by apply Hok.
Qed.

Lemma upsert_absent ks m f :
  m !! Name f = None →
  upsert (ks, m) f = (ks ++ [f], <[Name f := length ks]> m).
Proof.
  intros Hnone. unfold upsert. rewrite Hnone. simpl.
  rewrite length_app. simpl. by replace (length ks + 1 - 1) with (length ks) by lia.
Qed.

Lemma upsert_idx_ok ks m f :
  idx_ok (names ks) m →
  idx_ok (names (upsert (ks, m) f).1) (upsert (ks, m) f).2.
Proof.
  intros Hok. destruct (m !! Name f) as [idx|] eqn:Hi.
  - destruct (upsert_present _ _ _ _ Hok Hi) as (-> & Hn & _). simpl.
    by rewrite Hn.
  - rewrite (upsert_absent _ _ _ Hi). simpl. unfold names. rewrite fmap_app. simpl.
    replace (length ks) with (length (names ks)) by apply length_map.
    by apply idx_ok_snoc.
Qed.

Lemma upsert_NoDup ks m f :
  idx_ok (names ks) m → NoDup (names ks) → NoDup (names (upsert (ks, m) f).1).
Proof.
  intros Hok Hnd. destruct (m !! Name f) as [idx|] eqn:Hi.
  - destruct (upsert_present _ _ _ _ Hok Hi) as (-> & Hn & _). simpl.
    by rewrite Hn.
  - rewrite (upsert_absent _ _ _ Hi). simpl. unfold names. rewrite fmap_app. simpl.
    apply NoDup_app. split; [done|]. split; [|apply NoDup_singleton].
    intros x Hx ->%list_elem_of_singleton.
    by apply (idx_ok_not_in _ _ _ Hok Hi).
Qed.

(** A file already placed at the index of its name stays there while files
    of other names are upserted. *)
Lemma upsert_keeps ks m g f idx :
  idx_ok (names ks) m → Name g ≠ Name f →
  m !! Name f = Some idx → ks !! idx = Some f →
  (upsert (ks, m) g).2 !! Name f = Some idx ∧ (upsert (ks, m) g).1 !! idx = Some f.
Proof.
  intros Hok Hne Hm Hk. destruct (m !! Name g) as [j|] eqn:Hj.
  - destruct (upsert_present _ _ _ _ Hok Hj) as (-> & _ & Hnj). simpl.
    split; [done|]. rewrite list_lookup_insert_ne; [done|].
    intros ->. unfold names in Hnj. rewrite list_lookup_fmap, Hk in Hnj.
    simplify_eq/=.
  - rewrite (upsert_absent _ _ _ Hj). simpl. split.
    + by rewrite lookup_insert_ne.
    + by apply lookup_app_l_Some.
Qed.

(** After its own turn, a file sits at the index of its name. *)
Lemma upsert_places ks m f :
  idx_ok (names ks) m →
  ∃ idx, (upsert (ks, m) f).2 !! Name f = Some idx
         ∧ (upsert (ks, m) f).1 !! idx = Some f
         ∧ (m !! Name f = None → idx = length ks).
Proof.
  intros Hok. destruct (m !! Name f) as [idx|] eqn:Hi.
  - destruct (upsert_present _ _ _ _ Hok Hi) as (-> & _ & _). simpl.
    exists idx. split; [done|]. split; [|done].
    apply list_lookup_insert_eq. by eapply upsert_in_range.
  - rewrite (upsert_absent _ _ _ Hi). simpl. exists (length ks).
    split; [by rewrite lookup_insert_eq|]. split; [|done].
    by rewrite list_lookup_middle.
Qed.

(** A stored file whose name is not the uploaded one is not touched. *)
Lemma upsert_untouched ks m f i g :
  idx_ok (names ks) m → ks !! i = Some g → Name g ≠ Name f →
  (upsert (ks, m) f).1 !! i = Some g.
Proof.
  intros Hok Hg Hne. destruct (m !! Name f) as [idx|] eqn:Hi.
  - destruct (upsert_present _ _ _ _ Hok Hi) as (-> & _ & Hn). simpl.
    rewrite list_lookup_insert_ne; [done|].
    intros ->. unfold names in Hn. rewrite list_lookup_fmap, Hg in Hn.
    simplify_eq/=.
  - rewrite (upsert_absent _ _ _ Hi). simpl. by apply lookup_app_l_Some.
Qed.

Lemma upsert_names_prefix ks m f :
  idx_ok (names ks) m → names ks `prefix_of` names (upsert (ks, m) f).1.
Proof.
  intros Hok. destruct (m !! Name f) as [idx|] eqn:Hi.
  - destruct (upsert_present _ _ _ _ Hok Hi) as (-> & Hn & _). simpl.
    by rewrite Hn.
  - rewrite (upsert_absent _ _ _ Hi). simpl. unfold names. rewrite fmap_app.
    by apply prefix_app_r.
Qed.

Lemma upsert_length ks m f :
  idx_ok (names ks) m →
  length (upsert (ks, m) f).1
  = length ks + (if bool_decide (Name f ∈ names ks) then 0 else 1).
Proof.
  intros Hok. destruct (m !! Name f) as [idx|] eqn:Hi.
  - destruct (upsert_present _ _ _ _ Hok Hi) as (-> & _ & Hn). simpl.
    rewrite length_insert. rewrite bool_decide_eq_true_2; [lia|].
    by eapply list_elem_of_lookup_2.
  - rewrite (upsert_absent _ _ _ Hi). simpl. rewrite length_app. simpl.
    rewrite bool_decide_eq_false_2; [lia|]. by eapply idx_ok_not_in.
Qed.

(** *** The whole loop *)

Lemma loop_idx_ok files : ∀ ks m,
  idx_ok (names ks) m →
  idx_ok (names (fold_left upsert files (ks, m)).1) (fold_left upsert files (ks, m)).2.
Proof.
  induction files as [|f files IH]; intros ks m Hok; simpl; [done|].
  destruct (upsert (ks, m) f) as [ks' m'] eqn:Hu.
  apply IH. pose proof (upsert_idx_ok ks m f Hok) as H'. by rewrite Hu in H'.
Qed.

Lemma loop_NoDup files : ∀ ks m,
  idx_ok (names ks) m → NoDup (names ks) →
  NoDup (names (fold_left upsert files (ks, m)).1).
Proof.
  induction files as [|f files IH]; intros ks m Hok Hnd; simpl; [done|].
  destruct (upsert (ks, m) f) as [ks' m'] eqn:Hu.
  pose proof (upsert_idx_ok ks m f Hok) as H1.
  pose proof (upsert_NoDup ks m f Hok Hnd) as H2.
  rewrite Hu in H1, H2. by apply IH.
Qed.

Lemma loop_keeps files : ∀ ks m f idx,
  idx_ok (names ks) m → Name f ∉ names files →
  m !! Name f = Some idx → ks !! idx = Some f →
  (fold_left upsert files (ks, m)).2 !! Name f = Some idx
  ∧ (fold_left upsert files (ks, m)).1 !! idx = Some f.
Proof.
  induction files as [|g files IH]; intros ks m f idx Hok Hnin Hm Hk; simpl; [done|].
  apply not_elem_of_cons in Hnin as [Hne Hnin].
  destruct (upsert (ks, m) g) as [ks' m'] eqn:Hu.
  pose proof (upsert_idx_ok ks m g Hok) as H1.
  pose proof (upsert_keeps ks m g f idx Hok (not_eq_sym Hne) Hm Hk) as [H2 H3].
  rewrite Hu in H1, H2, H3. by apply IH.
Qed.

Lemma loop_untouched files : ∀ ks m i g,
  idx_ok (names ks) m → ks !! i = Some g → Name g ∉ names files →
  (fold_left upsert files (ks, m)).1 !! i = Some g.
Proof.
  induction files as [|f files IH]; intros ks m i g Hok Hg Hnin; simpl; [done|].
  apply not_elem_of_cons in Hnin as [Hne Hnin].
  destruct (upsert (ks, m) f) as [ks' m'] eqn:Hu.
  pose proof (upsert_idx_ok ks m f Hok) as H1.
  pose proof (upsert_untouched ks m f i g Hok Hg Hne) as H2.
  rewrite Hu in H1, H2. by apply IH.
Qed.

Lemma loop_names_prefix files : ∀ ks m,
  idx_ok (names ks) m →
  names ks `prefix_of` names (fold_left upsert files (ks, m)).1.
Proof.
  induction files as [|f files IH]; intros ks m Hok; simpl; [done|].
  destruct (upsert (ks, m) f) as [ks' m'] eqn:Hu.
  pose proof (upsert_idx_ok ks m f Hok) as H1.
  pose proof (upsert_names_prefix ks m f Hok) as H2.
  rewrite Hu in H1, H2. etrans; [exact H2|]. by apply IH.
Qed.

(** The last file of a name in the batch ends at the index of that name. *)
Lemma loop_last_wins pre f post ks m :
  idx_ok (names ks) m → Name f ∉ names post →
  ∃ idx, (fold_left upsert (pre ++ f :: post) (ks, m)).1 !! idx = Some f
         ∧ (∀ j, m !! Name f = Some j → idx = j).
Proof.
  intros Hok Hnin. rewrite fold_left_app. simpl.
  pose proof (loop_idx_ok pre ks m Hok) as Hok1.
  assert (Hmono : ∀ j, m !! Name f = Some j →
            (fold_left upsert pre (ks, m)).2 !! Name f = Some j).
  { clear Hnin. revert ks m Hok Hok1. induction pre as [|g pre IH]; intros ks m Hok _ j Hj; simpl; [done|].
    destruct (upsert (ks, m) g) as [ks' m'] eqn:Hu.
    pose proof (upsert_idx_ok ks m g Hok) as H1. rewrite Hu in H1.
    apply IH; [done | by apply loop_idx_ok |].
    destruct (m !! Name g) as [k|] eqn:Hk.
    - destruct (upsert_present _ _ _ _ Hok Hk) as (Hu' & _ & _).
      rewrite Hu in Hu'. by simplify_eq.
    - rewrite (upsert_absent _ _ _ Hk) in Hu. simplify_eq.
      rewrite lookup_insert_ne; [done|]. intros Heq. rewrite Heq in Hk. congruence. }
  destruct (fold_left upsert pre (ks, m)) as [ks1 m1]. simpl in *.
  destruct (upsert_places ks1 m1 f Hok1) as (idx & Hm2 & Hk2 & Hfresh).
  pose proof (upsert_idx_ok ks1 m1 f Hok1) as Hok2.
  assert (Hsame : ∀ j, m1 !! Name f = Some j → idx = j).
  { intros j Hj. destruct (upsert_present _ _ _ _ Hok1 Hj) as (Hu' & _ & _).
    rewrite Hu' in Hm2. simpl in Hm2. congruence. }
  destruct (upsert (ks1, m1) f) as [ks2 m2]. simpl in *.
  destruct (loop_keeps post ks2 m2 f idx Hok2 Hnin Hm2 Hk2) as [_ Hfin].
  exists idx. split; [done|]. intros j Hj. apply Hsame. by apply Hmono.
Qed.

Lemma loop_length_le files : ∀ ks m,
  idx_ok (names ks) m →
  length ks ≤ length (fold_left upsert files (ks, m)).1
  ∧ length (fold_left upsert files (ks, m)).1 ≤ length ks + length files.
Proof.
  induction files as [|f files IH]; intros ks m Hok; simpl; [lia|].
  destruct (upsert (ks, m) f) as [ks' m'] eqn:Hu.
  pose proof (upsert_idx_ok ks m f Hok) as H1.
  pose proof (upsert_length ks m f Hok) as H2.
  rewrite Hu in H1, H2. simpl in H2.
  specialize (IH ks' m' H1). case_bool_decide; lia.
Qed.

(** When every name of the batch is stored already the slice keeps its
    names, hence its length. *)
Lemma loop_all_present files : ∀ ks m,
  idx_ok (names ks) m → (∀ f, f ∈ files → Name f ∈ names ks) →
  names (fold_left upsert files (ks, m)).1 = names ks.
Proof.
  induction files as [|f files IH]; intros ks m Hok Hall; simpl; [done|].
  destruct (proj2 Hok (Name f)) as [idx Hi]; [apply Hall; left|].
  destruct (upsert_present _ _ _ _ Hok Hi) as (-> & Hn & _).
  rewrite IH.
  - done.
  - by rewrite Hn.
  - intros g Hg. rewrite Hn. apply Hall. by right.
Qed.

Lemma loop_names_in files : ∀ ks m f,
  idx_ok (names ks) m → f ∈ files →
  Name f ∈ names (fold_left upsert files (ks, m)).1.
Proof.
  induction files as [|g files IH]; intros ks m f Hok Hin; simpl.
  - by apply elem_of_nil in Hin.
  - pose proof (upsert_idx_ok ks m g Hok) as H1.
    apply elem_of_cons in Hin as [->|Hin].
    + destruct (upsert_places ks m g Hok) as (idx & _ & Hk & _).
      destruct (upsert (ks, m) g) as [ks' m']. simpl in *.
      eapply elem_of_prefix; [|by apply loop_names_prefix].
      apply list_elem_of_fmap. exists g. split; [done|].
      by eapply list_elem_of_lookup_2.
    + destruct (upsert (ks, m) g) as [ks' m']. by apply IH.
Qed.

(** A file whose name is stored already, or comes earlier in the batch, adds
    nothing to the length. *)
Lemma loop_length_lt pre f post ks m :
  idx_ok (names ks) m →
  Name f ∈ names ks ∨ Name f ∈ names pre →
  length (fold_left upsert (pre ++ f :: post) (ks, m)).1
  < length ks + length (pre ++ f :: post).
Proof.
  intros Hok Hin. rewrite fold_left_app, length_app. simpl.
  pose proof (loop_idx_ok pre ks m Hok) as Hok1.
  pose proof (loop_length_le pre ks m Hok) as [_ Hle1].
  assert (Hin1 : Name f ∈ names (fold_left upsert pre (ks, m)).1).
  { destruct Hin as [Hin|Hin].
    - eapply elem_of_prefix; [exact Hin|]. by apply loop_names_prefix.
    - apply list_elem_of_fmap in Hin as (g & Hg & Hin). rewrite Hg.
      by apply loop_names_in. }
  destruct (fold_left upsert pre (ks, m)) as [ks1 m1]. simpl in *.
  pose proof (upsert_idx_ok ks1 m1 f Hok1) as Hok2.
  pose proof (upsert_length ks1 m1 f Hok1) as Hlen2.
  rewrite bool_decide_eq_true_2 in Hlen2 by done.
  destruct (upsert (ks1, m1) f) as [ks2 m2]. simpl in *.
  pose proof (loop_length_le post ks2 m2 Hok2) as [_ Hle3]. lia.
Qed.

(** *** AddFiles *)

Lemma AddFiles_unfold files s :
  AddFiles files s
  = ({| messages := messages s;
        knowledge := (fold_left upsert files (knowledge s, index_names (knowledge s) 0 ∅)).1 |},
     length (fold_left upsert files (knowledge s, index_names (knowledge s) 0 ∅)).1).
Proof. reflexivity. Qed.

Lemma AddFiles_total files s :
  (AddFiles files s).2 = length (knowledge (AddFiles files s).1).
Proof. reflexivity. Qed.

Lemma AddFiles_messages files s : messages (AddFiles files s).1 = messages s.
Proof. reflexivity. Qed.

Lemma AddFiles_NoDup files s :
  NoDup (names (knowledge s)) → NoDup (names (knowledge (AddFiles files s).1)).
Proof.
  intros Hnd. rewrite AddFiles_unfold. simpl.
  apply loop_NoDup; [apply index_names_idx_ok | done].
Qed.

Lemma AddFiles_length_le files s :
  length (knowledge s) ≤ (AddFiles files s).2
  ∧ (AddFiles files s).2 ≤ length (knowledge s) + length files.
Proof.
  rewrite AddFiles_unfold. simpl. apply loop_length_le, index_names_idx_ok.
Qed.

(** In any batch, the stored files keep their positions, the last file of
    each name is the one stored, at the position of its name when the name
    was there before, and the files of other names are as they were. *)
Lemma AddFiles_positions files s :
  names (knowledge s) `prefix_of` names (knowledge (AddFiles files s).1)
  ∧ (∀ pre f post, files = pre ++ f :: post → Name f ∉ names post →
       ∃ idx, knowledge (AddFiles files s).1 !! idx = Some f
              ∧ (Name f ∈ names (knowledge s) →
                   names (knowledge s) !! idx = Some (Name f)))
  ∧ (∀ i g, knowledge s !! i = Some g → Name g ∉ names files →
       knowledge (AddFiles files s).1 !! i = Some g).
Proof.
  rewrite AddFiles_unfold. simpl.
  pose proof (index_names_idx_ok (knowledge s)) as Hok.
  split; [by apply loop_names_prefix|]. split.
  - intros pre f post -> Hnin.
    destruct (loop_last_wins pre f post _ _ Hok Hnin) as (idx & Hidx & Hsame).
    exists idx. split; [done|]. intros Hin.
    destruct (proj2 Hok _ Hin) as [j Hj].
    rewrite (Hsame j Hj). by apply Hok.
  - intros i g Hg Hnin. by apply loop_untouched.
Qed.

(** *** RemoveFile *)

Lemma filter_all {A} (P : A → Prop) `{∀ x, Decision (P x)} (l : list A) :
  Forall P l → filter P l = l.
Proof.
  induction 1 as [|x l Hx _ IH]; [done|].
  rewrite filter_cons_True by done. by rewrite IH.
Qed.

(** The loop on the backing array computes the filter: the first [w']
    elements of the array it leaves are the kept files, in order. *)
Lemma RemoveFile_inplace_filter name : ∀ n r w arr,
  w ≤ r → r + n ≤ length arr →
  take (RemoveFile_inplace name n r w arr).2 (RemoveFile_inplace name n r w arr).1
  = take w arr ++ filter (λ f, Name f ≠ name) (take n (drop r arr)).
Proof.
  induction n as [|n IH]; intros r w arr Hwr Hlen; simpl.
  - by rewrite take_0, filter_nil, app_nil_r.
  - destruct (lookup_lt_is_Some_2 arr r) as [f Hf]; [lia|]. rewrite Hf.
    rewrite (drop_S _ _ _ Hf). simpl.
    case_decide as Hkeep.
    + rewrite IH by (rewrite ?length_insert; lia).
      rewrite filter_cons_True by done.
      rewrite drop_insert_lt by lia.
      destruct (lookup_lt_is_Some_2 arr w) as [g Hg]; [lia|].
      rewrite (take_S_r (<[w:=f]> arr) w f)
        by (apply list_lookup_insert_eq; lia).
      rewrite take_insert_ge by lia. by rewrite <- app_assoc.
    + rewrite IH by lia. rewrite filter_cons_False by (intros Hne; by apply Hne). done.
Qed.

(** X3.  The loop of [RemoveFile], which filters the slice in place on its
    backing array, leaves the files of other names, in their order, and
    returns their number: what [RemoveFile] is taken to be above. *)
Lemma RemoveFile_inplace_refines name s :
  take (RemoveFile_inplace name (length (knowledge s)) 0 0 (knowledge s)).2
       (RemoveFile_inplace name (length (knowledge s)) 0 0 (knowledge s)).1
  = knowledge (RemoveFile name s).1
  ∧ (RemoveFile_inplace name (length (knowledge s)) 0 0 (knowledge s)).2
    = (RemoveFile name s).2.
Proof.
  pose proof (RemoveFile_inplace_filter name (length (knowledge s)) 0 0
                (knowledge s) (le_n _) (le_n _)) as Hf.
  rewrite take_0, drop_0, firstn_all in Hf. simpl in Hf. split; [done|].
  simpl. rewrite <- Hf. rewrite length_take.
  assert (Hle : ∀ n r w arr, w ≤ r → r + n ≤ length arr →
            (RemoveFile_inplace name n r w arr).2 ≤ length (RemoveFile_inplace name n r w arr).1).
  { clear. induction n as [|n IH]; intros r w arr Hwr Hlen; simpl; [lia|].
    destruct (arr !! r) as [f|]; [|simpl; lia].
    case_decide; apply IH; rewrite ?length_insert; lia. }
  specialize (Hle (length (knowledge s)) 0 0 (knowledge s)). lia.
Qed.

Lemma RemoveFile_NoDup name s :
  NoDup (names (knowledge s)) → NoDup (names (knowledge (RemoveFile name s).1)).
Proof.
  simpl. unfold names. induction (knowledge s) as [|f ks IH]; [done|].
  rewrite fmap_cons. intros [Hnin Hnd]%NoDup_cons.
  destruct (decide (Name f ≠ name)).
  - rewrite filter_cons_True by done. rewrite fmap_cons. apply NoDup_cons.
    split; [|by apply IH].
    intros (g & Hg & Hin)%list_elem_of_fmap. apply list_elem_of_filter in Hin as [_ Hin].
    apply Hnin. apply list_elem_of_fmap. eauto.
  - rewrite filter_cons_False by done. by apply IH.
Qed.

Lemma RemoveFile_absent_store name s :
  name ∉ names (knowledge s) → RemoveFile name s = (s, length (knowledge s)).
Proof.
  intros Hnin. unfold RemoveFile.
  assert (Hall : filter (λ f, Name f ≠ name) (knowledge s) = knowledge s).
  { apply filter_all. apply Forall_forall. intros f Hf Heq. apply Hnin.
    apply list_elem_of_fmap. eauto. }
  rewrite Hall. by destruct s.
Qed.

(** *** Messages *)

Lemma All_Append msg s : All (Append msg s) = All s ++ [msg].
Proof. reflexivity. Qed.

Lemma All_Reset s : All (Reset s) = [].
Proof. unfold All, Reset. simpl. apply take_0. Qed.

Lemma All_SeedAssistantHello text now s :
  All (SeedAssistantHello text now s)
  = All s ++ [ {| Role_ := RoleAssistant; Content := text; CreatedAt := now |} ].
Proof. reflexivity. Qed.

(** *** Operations in sequence *)

Lemma run_op_NoDup s o :
  NoDup (names (knowledge s)) → NoDup (names (knowledge (run_op s o))).
Proof.
  intros Hnd. destruct o; simpl; try done.
  - by apply AddFiles_NoDup.
  - by apply (RemoveFile_NoDup name s).
  - apply NoDup_nil_2.
Qed.

Lemma run_ops_NoDup ops : ∀ s,
  NoDup (names (knowledge s)) → NoDup (names (knowledge (run_ops ops s))).
Proof.
  induction ops as [|o ops IH]; intros s Hnd; [done|].
  apply IH. by apply run_op_NoDup.
Qed.

Lemma run_op_messages s o :
  is_reset o = false → All (run_op s o) = All s ++ appended_by o.
Proof.
  intros Hr. destruct o; simpl in *; try done; unfold All; simpl;
    by rewrite ?app_nil_r.
Qed.

Lemma run_ops_messages ops : ∀ s,
  no_reset ops = true → All (run_ops ops s) = All s ++ appended ops.
Proof.
  induction ops as [|o ops IH]; intros s Hnr; simpl.
  - by rewrite app_nil_r.
  - simpl in Hnr. apply andb_true_iff in Hnr as [Ho Hnr].
    apply negb_true_iff in Ho.
    rewrite IH by done. rewrite run_op_messages by done.
    by rewrite <- app_assoc.
Qed.

Lemma appended_appends msgs : appended (map OpAppend msgs) = msgs.
Proof. induction msgs as [|m msgs IH]; simpl; [done|]. by rewrite IH. Qed.

Lemma no_reset_appends msgs : no_reset (map OpAppend msgs) = true.
Proof. induction msgs as [|m msgs IH]; simpl; [done|]. done. Qed.

(** *** The specified properties of the store *)

(** C5.  When every uploaded file bears a name that is stored already,
    [AddFiles] returns the number of files there were and leaves that many;
    the names stay where they were in the list; each uploaded file (the last
    of its name in the batch) stands where a file of its name stood; the
    other files and the messages are untouched. *)
Theorem AddFiles_replaces_in_place s files :
  (∀ f, f ∈ files → Name f ∈ names (knowledge s)) →
  (AddFiles files s).2 = length (knowledge s)
  ∧ length (knowledge (AddFiles files s).1) = length (knowledge s)
  ∧ names (knowledge (AddFiles files s).1) = names (knowledge s)
  ∧ messages (AddFiles files s).1 = messages s
  ∧ (∀ pre f post, files = pre ++ f :: post → Name f ∉ names post →
       ∃ idx old, knowledge s !! idx = Some old ∧ Name old = Name f
                  ∧ knowledge (AddFiles files s).1 !! idx = Some f)
  ∧ (∀ i g, knowledge s !! i = Some g → Name g ∉ names files →
       knowledge (AddFiles files s).1 !! i = Some g).
Proof.
  intros Hall.
  assert (Hnames : names (knowledge (AddFiles files s).1) = names (knowledge s)).
  { rewrite AddFiles_unfold. simpl.
    by apply loop_all_present; [apply index_names_idx_ok|]. }
  assert (Hlen : length (knowledge (AddFiles files s).1) = length (knowledge s)).
  { apply (f_equal length) in Hnames. unfold names in Hnames.
    by rewrite !length_fmap in Hnames. }
  destruct (AddFiles_positions files s) as (_ & Hlast & Hother).
  split; [by rewrite AddFiles_total|]. split; [done|]. split; [done|].
  split; [done|]. split; [|done].
  intros pre f post Hfiles Hnin.
  destruct (Hlast pre f post Hfiles Hnin) as (idx & Hidx & Hpos).
  assert (Hin : f ∈ files) by (rewrite Hfiles; set_solver).
  specialize (Hpos (Hall f Hin)). unfold names in Hpos.
  rewrite list_lookup_fmap in Hpos.
  destruct (knowledge s !! idx) as [old|] eqn:Hold; simplify_eq/=.
  exists idx, old. eauto.
Qed.

(** C6.  From the empty store, after any sequence of operations (uploads of
    arbitrary batches, removals, clearings, and the message operations) no
    two stored files share a name. *)
Theorem file_names_unique ops :
  NoDup (names (knowledge (run_ops ops NewMemoryStore))).
Proof. apply run_ops_NoDup. apply NoDup_nil_2. Qed.

(** C7.  Along any sequence of operations without [Reset], [All] returns the
    messages there were followed by exactly the appended ones, in the order
    of arrival; in particular a sequence of appends on the new store lists
    exactly those messages in that order. *)
Theorem messages_in_append_order ops s :
  no_reset ops = true →
  All (run_ops ops s) = All s ++ appended ops
  ∧ (∀ msgs, ops = map OpAppend msgs →
       All (run_ops ops NewMemoryStore) = msgs).
Proof.
  intros Hnr. split; [by apply run_ops_messages|].
  intros msgs ->. rewrite run_ops_messages by done.
  by rewrite appended_appends.
Qed.

End store_facts.

(** * Properties of the handlers *)

Module server_facts.
Import strings provider server spec store_facts.

Lemma buildFilesContext_knowledge s s' :
  knowledge s = knowledge s' → buildFilesContext s = buildFilesContext s'.
Proof. unfold buildFilesContext, ListFiles. by intros ->. Qed.

(** *** OpenAIProvider.Reply *)

Lemma OpenAIProvider_Reply_unfold p history userInput :
  OpenAIProvider_Reply p history userInput
  = match client_Do p (openai_request p history userInput) with
    | Err err => Err err
    | Ok resp =>
        if (400 <=? StatusCode resp)%Z then
          if bool_decide (body_error_Message resp ≠ [])
          then Err (body_error_Message resp)
          else Err (str "openai error: " ++ Status resp)
        else
          match body_Output resp with
          | Err err => Err err
          | Ok ((text :: _) :: _) => Ok text
          | Ok _ => Err (str "respuesta vacía de OpenAI")
          end
    end.
Proof. reflexivity. Qed.

(** [Reply] fails exactly on a transport error, a status of 400 or more, a
    body that does not decode, or an output without a first text block. *)
Lemma OpenAIProvider_Reply_fails_iff p history userInput :
  openai_failure (client_Do p (openai_request p history userInput))
  ↔ ∃ err, OpenAIProvider_Reply p history userInput = Err err.
Proof.
  rewrite OpenAIProvider_Reply_unfold.
  destruct (client_Do p _) as [resp|e]; simpl; [|split; eauto].
  destruct (Z.leb_spec 400 (StatusCode resp)) as [Hs|Hs].
  - split; [intros _|intros _; by left]. case_bool_decide; eauto.
  - destruct (body_Output resp) as [[|[|text c] o]|e].
    + split; [eauto|]. intros _. right. by left.
    + split; [eauto|]. intros _. right. right. eauto.
    + split; [|by intros [? [=]]].
      intros [?|[[=]|[? [=]]]]. lia.
    + split; [eauto|]. intros _. by right.
Qed.

Section Handlers.
Context {P : Type} `{ChatProvider P}.
Variable chat : P.
Variable lower_table : Z → Z.
Variable now : nat → Time.

#[local] Abbreviation serve := (handle chat lower_table now).

(** *** POST /api/messages *)

Lemma POST_api_messages_run content w :
  content ≠ [] →
  let userMsg := user_message now content w in
  let history := All (mem w) ++ [userMsg] in
  let prompt := prompt_of lower_table content w in
  serve (POST_api_messages (Some {| req_Content := content |})) w
  = match Reply chat history prompt with
    | Err err =>
        ({| status := 502; body := H_error err |},
         {| mem := Append userMsg (mem w);
            ticks := S (ticks w);
            provider_calls := provider_calls w ++ [(history, prompt)] |})
    | Ok replyText =>
        let assistantMsg :=
          {| Role_ := RoleAssistant; Content := replyText;
             CreatedAt := now (S (ticks w)) |} in
        ({| status := 200; body := SendMessageResponse assistantMsg (Model chat) |},
         {| mem := Append assistantMsg (Append userMsg (mem w));
            ticks := S (S (ticks w));
            provider_calls := provider_calls w ++ [(history, prompt)] |})
    end.
Proof.
  intros Hne. simpl. unfold handle_POST_api_messages. simpl.
  rewrite bool_decide_eq_false_2 by done.
  unfold mbind, M_bind, time_Now, mem_Append, mem_All, chat_Reply, build_prompt,
    on_mem, prompt_of, user_message, c_JSON, mret, M_ret. simpl.
  destruct (isAnalystQuery lower_table content); simpl;
    by destruct (Reply chat _ _).
Qed.

(** When [Reply] fails the handler answers 502 with the error message; the
    provider has been called once, no assistant message is appended, and the
    store holds the messages it had followed by the user's message. *)
Lemma Reply_error_502 content w err :
  content ≠ [] →
  Reply chat (All (mem w) ++ [user_message now content w])
        (prompt_of lower_table content w) = Err err →
  ∃ w',
    serve (POST_api_messages (Some {| req_Content := content |})) w
    = ({| status := 502; body := H_error err |}, w')
    ∧ provider_calls w'
      = provider_calls w
        ++ [(All (mem w) ++ [user_message now content w],
             prompt_of lower_table content w)]
    ∧ All (mem w') = All (mem w) ++ [user_message now content w]
    ∧ knowledge (mem w') = knowledge (mem w).
Proof.
  intros Hne Hfail. rewrite POST_api_messages_run by done. simpl.
  rewrite Hfail. eexists. split; [reflexivity|]. by simpl.
Qed.

(** X16.  On success the reply is appended after the user's message. *)
Lemma provider_success_200 content w replyText :
  content ≠ [] →
  Reply chat (All (mem w) ++ [user_message now content w])
        (prompt_of lower_table content w) = Ok replyText →
  ∃ w',
    serve (POST_api_messages (Some {| req_Content := content |})) w
    = ({| status := 200;
          body := SendMessageResponse
                    {| Role_ := RoleAssistant; Content := replyText;
                       CreatedAt := now (S (ticks w)) |} (Model chat) |}, w')
    ∧ All (mem w')
      = All (mem w)
        ++ [user_message now content w;
            {| Role_ := RoleAssistant; Content := replyText;
               CreatedAt := now (S (ticks w)) |}].
Proof.
  intros Hne Hok. rewrite POST_api_messages_run by done. simpl.
  rewrite Hok. eexists. split; [reflexivity|]. simpl. unfold All. simpl.
  by rewrite <- app_assoc.
Qed.

(** *** Client input errors *)

(** C3.  Every client input error is answered with its status (400, or 413
    for the file cap) and an error message, and the world after the request
    is the world before it: messages and files untouched, no call made. *)
Theorem client_error_no_mutation r w :
  client_input_error r w →
  ∃ b msg,
    serve r w = ({| status := error_status r; body := b |}, w)
    ∧ error_message b = Some msg
    ∧ (error_status r = 400 ∨ error_status r = 413).
Proof.
  destruct r as [| |[[content]|]| | |[[files]|]| |]; simpl; try done.
  - intros ->. eexists _, _. split; [reflexivity|]. split; [reflexivity|]. by left.
  - intros _. eexists _, _. split; [reflexivity|]. split; [reflexivity|]. by left.
  - intros Herr. unfold handle_POST_api_files. simpl.
    destruct files as [|f files].
    { eexists _, _. split; [reflexivity|]. split; [reflexivity|]. by left. }
    rewrite bool_decide_eq_false_2 by done.
    rewrite (bool_decide_eq_false_2 (f :: files = [])) by done.
    unfold mbind, M_bind, mem_ListFiles, on_mem, ListFiles. simpl.
    assert (Hcap : filesMax < length (knowledge (mem w)) + S (length files)).
    { destruct Herr as [?|[?|Hres]]; [done|done|].
      pose proof (AddFiles_length_le (f :: files) (mem w)) as [_ Hle].
      simpl in Hle. lia. }
    rewrite bool_decide_eq_true_2 by done.
    destruct w. eexists _, _. split; [reflexivity|]. split; [reflexivity|]. by right.
  - intros _. eexists _, _. split; [reflexivity|]. split; [reflexivity|]. by left.
Qed.

(** *** POST /api/reset *)

Lemma POST_api_reset_run w :
  serve POST_api_reset w
  = ({| status := 200; body := H_ok |},
     {| mem := SeedAssistantHello
                 (str "He reiniciado la conversación. ¿En qué te ayudo?")
                 (now (ticks w)) (Reset (mem w));
        ticks := S (ticks w);
        provider_calls := provider_calls w |}).
Proof. reflexivity. Qed.

(** C8.  Whatever the conversation was, after POST /api/reset the message
    list is exactly one message, the seeded assistant greeting; the files
    are kept. *)
Theorem reset_leaves_one_greeting w :
  All (mem (serve POST_api_reset w).2)
  = [ {| Role_ := RoleAssistant;
         Content := str "He reiniciado la conversación. ¿En qué te ayudo?";
         CreatedAt := now (ticks w) |} ]
  ∧ length (All (mem (serve POST_api_reset w).2)) = 1
  ∧ knowledge (mem (serve POST_api_reset w).2) = knowledge (mem w)
  ∧ (serve POST_api_reset w).1 = {| status := 200; body := H_ok |}.
Proof.
  rewrite POST_api_reset_run. cbn [fst snd mem].
  rewrite All_SeedAssistantHello, All_Reset.
  split; [done|]. split; [done|]. split; done.
Qed.

(** *** DELETE /api/files/:name *)

(** C9.  Removing a name that is not stored leaves the store as it is and
    returns the current number of files, which the handler reports. *)
Theorem remove_absent_unchanged name w :
  name ∉ names (knowledge (mem w)) →
  RemoveFile name (mem w) = (mem w, length (knowledge (mem w)))
  ∧ serve (DELETE_api_files_name name) w
    = ({| status := 200; body := H_total (length (knowledge (mem w))) |}, w).
Proof.
  intros Hnin. pose proof (RemoveFile_absent_store name (mem w) Hnin) as Hrm.
  split; [done|]. simpl.
  unfold handle_DELETE_api_files_name, mbind, M_bind, mem_RemoveFile, on_mem.
  rewrite Hrm. by destruct w.
Qed.

(** *** POST /api/files *)

Lemma POST_api_files_run files w :
  files ≠ [] →
  length (knowledge (mem w)) + length files ≤ filesMax →
  serve (POST_api_files (Some {| req_Files := files |})) w
  = ({| status := 200;
        body := UploadFilesResponse (length files) (AddFiles files (mem w)).2 |},
     {| mem := (AddFiles files (mem w)).1;
        ticks := ticks w; provider_calls := provider_calls w |}).
Proof.
  intros Hne Hcap. simpl. unfold handle_POST_api_files. simpl.
  rewrite bool_decide_eq_false_2 by (by destruct files).
  unfold mbind, M_bind, mem_ListFiles, mem_AddFiles, on_mem, ListFiles. simpl.
  rewrite bool_decide_eq_false_2 by lia. done.
Qed.

(** C10.  An accepted upload is answered with [count], the number of entries
    of the request, and [total], the number of files stored after the upsert.
    The store grows by at most [count] files, and by fewer as soon as an
    entry replaces a stored file or repeats a name of the batch. *)
Theorem upload_count_and_total files w :
  files ≠ [] →
  length (knowledge (mem w)) + length files ≤ filesMax →
  ∃ w',
    serve (POST_api_files (Some {| req_Files := files |})) w
    = ({| status := 200;
          body := UploadFilesResponse (length files)
                    (length (knowledge (mem w'))) |}, w')
    ∧ mem w' = (AddFiles files (mem w)).1
    ∧ length (knowledge (mem w')) ≤ length (knowledge (mem w)) + length files
    ∧ (∀ pre f post, files = pre ++ f :: post →
         Name f ∈ names (knowledge (mem w)) ∨ Name f ∈ names pre →
         length (knowledge (mem w')) < length (knowledge (mem w)) + length files).
Proof.
  intros Hne Hcap. rewrite POST_api_files_run by done.
  exists {| mem := (AddFiles files (mem w)).1; ticks := ticks w;
            provider_calls := provider_calls w |}.
  split; [reflexivity|]. simpl. split; [done|]. split.
  - apply AddFiles_length_le.
  - intros pre f post -> Hin.
    apply loop_length_lt; [apply index_names_idx_ok | done].
Qed.

(** *** Every request keeps the file names unique *)

Lemma handle_names_unique r w :
  NoDup (names (knowledge (mem w))) →
  NoDup (names (knowledge (mem (serve r w).2))).
Proof.
  intros Hnd. destruct r as [| |[[content]|]| | |[[files]|]| |name]; try done.
  - destruct (decide (content = [])) as [->|Hne]; [done|].
    rewrite POST_api_messages_run by done. simpl.
    by destruct (Reply chat _ _).
  - destruct (decide (files = [])) as [->|Hne]; [done|].
    destruct (decide (length (knowledge (mem w)) + length files ≤ filesMax))
      as [Hcap|Hcap].
    + rewrite POST_api_files_run by done. simpl. by apply AddFiles_NoDup.
    + simpl. unfold handle_POST_api_files. simpl.
      rewrite bool_decide_eq_false_2 by (by destruct files).
      unfold mbind, M_bind, mem_ListFiles, on_mem, ListFiles. simpl.
      rewrite bool_decide_eq_true_2 by lia. done.
  - simpl. apply NoDup_nil_2.
  - by apply (RemoveFile_NoDup name (mem w)).
Qed.

End Handlers.

(** C4 (as amended).  For every provider: when [Reply] fails,
    POST /api/messages answers 502 with the error message, the provider has
    been called once (no retry), no assistant message is appended, and the
    store holds the messages it had followed by the user's message, with the
    files as they were.  For the OpenAI provider, [Reply] fails exactly on a
    transport error, a status of 400 or more, a body that does not decode, or
    an output without a first text block. *)
Theorem provider_failure_surfaces_502 :
  (∀ (P : Type) (H : ChatProvider P) (chat : P) (lower_table : Z → Z)
     (now : nat → Time) (content : gostring) (w : World) (err : gostring),
     content ≠ [] →
     Reply chat (All (mem w) ++ [user_message now content w])
           (prompt_of lower_table content w) = Err err →
     ∃ w',
       handle chat lower_table now
         (POST_api_messages (Some {| req_Content := content |})) w
       = ({| status := 502; body := H_error err |}, w')
       ∧ provider_calls w'
         = provider_calls w
           ++ [(All (mem w) ++ [user_message now content w],
                prompt_of lower_table content w)]
       ∧ All (mem w') = All (mem w) ++ [user_message now content w]
       ∧ knowledge (mem w') = knowledge (mem w))
  ∧ (∀ (p : OpenAIProvider) (history : list Message) (userInput : gostring),
       openai_failure (client_Do p (openai_request p history userInput))
       ↔ ∃ err, OpenAIProvider_Reply p history userInput = Err err).
Proof.
  split.
  - intros P H chat lower_table now content w err. apply Reply_error_502.
  - apply OpenAIProvider_Reply_fails_iff.
Qed.

End server_facts.

(** * Properties of the string functions *)

Module strings_facts.
Import strings spec.

Lemma HasPrefix_true s p : HasPrefix s p = true ↔ occurs_at s p 0.
Proof.
  unfold HasPrefix, occurs_at. rewrite drop_0, andb_true_iff, !bool_decide_eq_true.
  split; [by intros [_ ?]|]. intros Ht. split; [|done].
  apply (f_equal length) in Ht. rewrite length_take in Ht. lia.
Qed.

Lemma occurs_at_app pre p post : occurs_at (pre ++ p ++ post) p (length pre).
Proof. unfold occurs_at. by rewrite drop_app_length, take_app_length. Qed.

Lemma occurs_at_split s p i :
  occurs_at s p i → s = take i s ++ p ++ drop (i + length p) s.
Proof.
  unfold occurs_at. intros Ho.
  rewrite <- (take_drop i s) at 1. f_equal.
  rewrite <- (take_drop (length p) (drop i s)) at 1.
  rewrite Ho. f_equal. rewrite drop_drop. f_equal.
Qed.

Lemma occurs_at_S c s p i : occurs_at (c :: s) p (S i) ↔ occurs_at s p i.
Proof. reflexivity. Qed.

(** The bytes of an occurrence are the bytes of [p]. *)
Lemma occurs_at_lookup s p i k c :
  occurs_at s p i → p !! k = Some c → s !! (i + k) = Some c.
Proof.
  unfold occurs_at. intros Ho Hk. rewrite <- Ho in Hk.
  apply lookup_take_Some in Hk as [Hk _]. by rewrite lookup_drop in Hk.
Qed.

Lemma Index_sound s p : ∀ i,
  Index s p = Some i → occurs_at s p i ∧ ∀ j, j < i → ¬ occurs_at s p j.
Proof.
  induction s as [|c s IH]; intros i; simpl.
  - destruct (HasPrefix [] p) eqn:Hp; [|done].
    intros [= <-]. split; [by apply HasPrefix_true|]. lia.
  - destruct (HasPrefix (c :: s) p) eqn:Hp.
    + intros [= <-]. split; [by apply HasPrefix_true|]. lia.
    + destruct (Index s p) as [i'|] eqn:Hi; [|done]. simpl.
      intros [= <-]. destruct (IH i' eq_refl) as [Ho Hmin].
      split; [by apply occurs_at_S|].
      intros [|j] Hj.
      * intros Ho0%HasPrefix_true. congruence.
      * rewrite occurs_at_S. apply Hmin. lia.
Qed.

Lemma Index_complete s p : ∀ i,
  occurs_at s p i → ∃ j, j ≤ i ∧ Index s p = Some j.
Proof.
  induction s as [|c s IH]; intros i Ho; simpl.
  - destruct (HasPrefix [] p) eqn:Hp; [exists 0; split; [lia|done]|].
    exfalso. unfold occurs_at in Ho. rewrite drop_nil, take_nil in Ho. subst p.
    done.
  - destruct (HasPrefix (c :: s) p) eqn:Hp; [exists 0; split; [lia|done]|].
    destruct i as [|i].
    { apply HasPrefix_true in Ho. congruence. }
    apply occurs_at_S in Ho. destruct (IH i Ho) as (j & Hj & ->).
    exists (S j). split; [lia|done].
Qed.

(** [Index] is the first occurrence. *)
Lemma Index_first s p i :
  occurs_at s p i → (∀ j, j < i → ¬ occurs_at s p j) → Index s p = Some i.
Proof.
  intros Ho Hmin. destruct (Index_complete s p i Ho) as (j & Hj & Hidx).
  destruct (Index_sound s p j Hidx) as [Hoj _].
  destruct (decide (j = i)) as [->|Hne]; [done|].
  exfalso. apply (Hmin j); [lia|done].
Qed.

Lemma Contains_true s p : Contains s p = true ↔ ∃ i, occurs_at s p i.
Proof.
  unfold Contains. split.
  - destruct (Index s p) as [i|] eqn:Hi; [|done]. intros _.
    exists i. by apply Index_sound.
  - intros [i Ho]. by destruct (Index_complete s p i Ho) as (j & _ & ->).
Qed.

Lemma Contains_app s p : Contains s p = true ↔ ∃ pre post, s = pre ++ p ++ post.
Proof.
  rewrite Contains_true. split.
  - intros [i Ho]. eexists _, _. by apply occurs_at_split.
  - intros (pre & post & ->). exists (length pre). apply occurs_at_app.
Qed.

Lemma Contains_false s p : Contains s p = false ↔ ∀ i, ¬ occurs_at s p i.
Proof.
  rewrite <- not_true_iff_false, Contains_true. split.
  - intros Hn i Ho. apply Hn. eauto.
  - intros Hn [i Ho]. by apply (Hn i).
Qed.

(** A string that contains [p] still does inside a longer one. *)
Lemma Contains_middle x s y p :
  Contains s p = true → Contains (x ++ s ++ y) p = true.
Proof.
  rewrite !Contains_app. intros (pre & post & ->).
  exists (x ++ pre), (post ++ y). by rewrite <- !app_assoc.
Qed.

Lemma Replace_1_at s old new i :
  Index s old = Some i →
  Replace_1 s old new = take i s ++ new ++ drop (i + length old) s.
Proof. unfold Replace_1. by intros ->. Qed.

(** Replacing the occurrence that is known to be the first. *)
Lemma Replace_1_first pre old post new :
  (∀ j, j < length pre → ¬ occurs_at (pre ++ old ++ post) old j) →
  Replace_1 (pre ++ old ++ post) old new = pre ++ new ++ post.
Proof.
  intros Hmin.
  rewrite (Replace_1_at _ _ _ (length pre)).
  - rewrite take_app_length. f_equal. f_equal.
    rewrite drop_app_add. by rewrite drop_app_length.
  - apply Index_first; [apply occurs_at_app | done].
Qed.

(** Whatever precedes it, the replacement leaves what follows an occurrence
    as it is. *)
Lemma Replace_1_keeps_tail pre old post new :
  ∃ x, Replace_1 (pre ++ old ++ post) old new = x ++ post.
Proof.
  destruct (Index_complete _ _ _ (occurs_at_app pre old post)) as (j & Hj & Hidx).
  rewrite (Replace_1_at _ _ _ _ Hidx).
  exists (take j (pre ++ old ++ post) ++ new ++ drop (j + length old) (pre ++ old)).
  rewrite <- !app_assoc. do 2 f_equal.
  rewrite (app_assoc pre old post).
  rewrite drop_app_le; [done|]. rewrite length_app. lia.
Qed.

(** No occurrence of [p] starts in [a ++ c ++ m] when its first byte is in
    neither [a] nor [m], the first byte of [m] is not in [p], and [c] does
    not contain [p]. *)
Lemma no_occurrence_before (a c m p z : gostring) (b n : ascii) p' m' :
  p = b :: p' → m = n :: m' → b ∉ a → b ∉ m → n ∉ p →
  Contains c p = false →
  ∀ j, j < length (a ++ c ++ m) → ¬ occurs_at ((a ++ c ++ m) ++ p ++ z) p j.
Proof.
  intros Hp Hm Hba Hbm Hnp Hc j Hj Ho.
  rewrite !length_app in Hj.
  assert (Hb : ((a ++ c ++ m) ++ p ++ z) !! (j + 0) = Some b).
  { apply (occurs_at_lookup _ p); [done|by rewrite Hp]. }
  rewrite Nat.add_0_r in Hb.
  destruct (decide (j < length a)) as [Hja|Hja].
  { rewrite <- !app_assoc in Hb. rewrite lookup_app_l in Hb by done.
    apply Hba. by eapply list_elem_of_lookup_2. }
  destruct (decide (j < length a + length c)) as [Hjc|Hjc].
  - destruct (decide (j - length a + length p ≤ length c)) as [Hfit|Hfit].
    + rewrite Contains_false in Hc. apply (Hc (j - length a)).
      unfold occurs_at in *. rewrite <- !app_assoc in Ho.
      rewrite drop_app_ge in Ho by lia.
      rewrite drop_app_le in Ho by lia.
      rewrite take_app_le in Ho; [done|]. rewrite length_drop. lia.
    + destruct (lookup_lt_is_Some_2 p (length c - (j - length a))) as [x Hx]; [lia|].
      pose proof (occurs_at_lookup _ _ _ _ _ Ho Hx) as Hs.
      replace (j + (length c - (j - length a))) with (length a + length c) in Hs by lia.
      rewrite <- !app_assoc in Hs.
      rewrite lookup_app_r in Hs by lia.
      rewrite lookup_app_r in Hs by lia.
      replace (length a + length c - length a - length c) with 0 in Hs by lia.
      rewrite Hm in Hs. simpl in Hs. simplify_eq.
      apply Hnp. by eapply list_elem_of_lookup_2.
  - rewrite <- !app_assoc in Hb.
    rewrite lookup_app_r in Hb by lia.
    rewrite lookup_app_r in Hb by lia.
    rewrite lookup_app_l in Hb by lia.
    apply Hbm. by eapply list_elem_of_lookup_2.
Qed.

End strings_facts.

(** * Properties of decoding and lowering *)

Module lower_facts.
Import utf8 strings server spec strings_facts.

#[local] Arguments byte_val : simpl never.

Lemma byte_val_range c : (0 ≤ byte_val c < 256)%Z.
Proof.
  unfold byte_val. pose proof (N_ascii_bounded c). lia.
Qed.

Lemma byte_of_val c : byte_of (byte_val c) = c.
Proof.
  unfold byte_of. pose proof (byte_val_range c).
  rewrite Z.mod_small by lia. unfold byte_val.
  rewrite N2Z.id. apply ascii_N_embedding.
Qed.

Lemma outside_false c r :
  outside c r = false → (fst r ≤ byte_val c ≤ snd r)%Z.
Proof. unfold outside. intros H%orb_false_iff. lia. Qed.

(** The entries of [first]. *)
Lemma first_cases b :
  first b = as_ ∨ first b = xx ∨ first b = s1 ∨ first b = s2 ∨ first b = s3
  ∨ first b = s4 ∨ first b = s5 ∨ first b = s6 ∨ first b = s7.
Proof. unfold first. repeat case_match; tauto. Qed.

Lemma first_ascii b : (b < RuneSelf)%Z → first b = as_.
Proof. unfold first, RuneSelf. intros Hb. by rewrite (proj2 (Z.ltb_lt _ _)). Qed.

(** An ASCII byte decodes to itself, with width 1. *)
Lemma Decode_ascii c t :
  (byte_val c < RuneSelf)%Z → DecodeRuneInString (c :: t) = (byte_val c, 1).
Proof.
  intros Hc. unfold DecodeRuneInString. by rewrite (first_ascii _ Hc).
Qed.

(** The width of the rune at the head of a non-empty string is between 1 and
    the length, and the bytes after the first are continuation bytes, none
    of them ASCII. *)
Lemma Decode_width s :
  s ≠ [] →
  1 ≤ (DecodeRuneInString s).2 ≤ length s
  ∧ ∀ k b, 1 ≤ k < (DecodeRuneInString s).2 → s !! k = Some b →
      (RuneSelf ≤ byte_val b)%Z.
Proof.
  destruct s as [|c0 t]; [done|]. intros _.
  unfold DecodeRuneInString.
  destruct (first_cases (byte_val c0))
    as [Hx|[Hx|[Hx|[Hx|[Hx|[Hx|[Hx|[Hx|Hx]]]]]]]]; rewrite Hx;
    try (simpl; split; [lia|intros; lia]).
  all: change (as_ <=? s1)%Z with false; change (as_ <=? s2)%Z with false;
       change (as_ <=? s3)%Z with false; change (as_ <=? s4)%Z with false;
       change (as_ <=? s5)%Z with false; change (as_ <=? s6)%Z with false;
       change (as_ <=? s7)%Z with false; cbv iota.
  all: change (Z.land s1 7) with 2%Z; change (Z.land s2 7) with 3%Z;
       change (Z.land s3 7) with 3%Z; change (Z.land s4 7) with 3%Z;
       change (Z.land s5 7) with 4%Z; change (Z.land s6 7) with 4%Z;
       change (Z.land s7 7) with 4%Z.
  all: change (acceptRanges (Z.shiftr s1 4)) with (0x80, 0xBF)%Z;
       change (acceptRanges (Z.shiftr s2 4)) with (0xA0, 0xBF)%Z;
       change (acceptRanges (Z.shiftr s3 4)) with (0x80, 0xBF)%Z;
       change (acceptRanges (Z.shiftr s4 4)) with (0x80, 0x9F)%Z;
       change (acceptRanges (Z.shiftr s5 4)) with (0x90, 0xBF)%Z;
       change (acceptRanges (Z.shiftr s6 4)) with (0x80, 0xBF)%Z;
       change (acceptRanges (Z.shiftr s7 4)) with (0x80, 0x8F)%Z;
       change (locb, hicb) with (0x80, 0xBF)%Z.
  all: repeat case_match; cbn [fst snd length]; (split; [lia|]); intros k b Hk Hb.
  all: try lia.
  all: repeat match goal with
       | H : outside _ _ = false |- _ => apply outside_false in H; cbn [fst snd] in H
       end.
  all: unfold RuneSelf.
  all: destruct k as [|[|[|[|k]]]]; cbn [lookup list_lookup] in Hb; simplify_eq; lia.
Qed.

(** Decoding in front of an ASCII byte never reads that byte. *)
Lemma Decode_before_ascii pre a rest :
  pre ≠ [] → (byte_val a < RuneSelf)%Z →
  1 ≤ (DecodeRuneInString (pre ++ a :: rest)).2 ≤ length pre.
Proof.
  intros Hpre Ha.
  destruct (Decode_width (pre ++ a :: rest)) as [[Hw1 _] Hcont].
  { by destruct pre. }
  split; [done|].
  destruct (decide ((DecodeRuneInString (pre ++ a :: rest)).2 ≤ length pre))
    as [|Hgt]; [done|].
  specialize (Hcont (length pre) a).
  assert (0 < length pre) by (destruct pre; [done|simpl; lia]).
  rewrite list_lookup_middle in Hcont by done.
  specialize (Hcont ltac:(lia) eq_refl). lia.
Qed.

Section Lowering.
Variable lower_table : Z → Z.

#[local] Abbreviation lower := (unicode.ToLower lower_table).

Lemma lower_ascii_inv c :
  lower_ascii c = true → (byte_val c < RuneSelf)%Z ∧ isUpperByte c = false.
Proof.
  unfold lower_ascii. intros [H1 H2]%andb_true_iff.
  apply negb_true_iff in H2. split; [lia|done].
Qed.

Lemma unicode_ToLower_ascii c : lower_ascii c = true → lower (byte_val c) = byte_val c.
Proof.
  intros [Hc Hup]%lower_ascii_inv. unfold unicode.ToLower, unicode.MaxASCII.
  unfold RuneSelf in Hc. rewrite (proj2 (Z.leb_le _ _)) by lia.
  unfold isUpperByte in Hup. by rewrite Hup.
Qed.

(** [length s] turns are enough for [Map]: with more fuel the result is the
    same, so the loop has read the whole of [s]. *)
Lemma Map_loop_fuel fuel1 : ∀ fuel2 changed s,
  length s ≤ fuel1 → length s ≤ fuel2 →
  Map_loop lower fuel1 changed s = Map_loop lower fuel2 changed s.
Proof.
  induction fuel1 as [|fuel1 IH]; intros fuel2 changed s H1 H2.
  - destruct s; [|simpl in H1; lia]. by destruct fuel2.
  - destruct s as [|c t]; [by destruct fuel2|].
    destruct fuel2 as [|fuel2]; [simpl in H2; lia|].
    pose proof (Decode_width (c :: t) ltac:(done)) as [[Hw1 Hw2] _].
    cbn [Map_loop]. destruct (DecodeRuneInString (c :: t)) as [r w].
    cbn [snd] in Hw1, Hw2.
    assert (Hd : length (drop w (c :: t)) ≤ fuel1 ∧ length (drop w (c :: t)) ≤ fuel2).
    { rewrite length_drop. simpl in *. lia. }
    destruct Hd as [Hd1 Hd2].
    rewrite (IH fuel2 false _ Hd1 Hd2), (IH fuel2 true _ Hd1 Hd2). done.
Qed.

(** One turn of [Map] on a lower ASCII byte writes that byte, whether a rune
    has changed before or not. *)
Lemma Map_loop_ascii fuel changed c t :
  lower_ascii c = true →
  Map_loop lower (S fuel) changed (c :: t) = c :: Map_loop lower fuel changed t.
Proof.
  intros Hc. pose proof (lower_ascii_inv c Hc) as [Hlt _].
  cbn [Map_loop]. rewrite (Decode_ascii _ _ Hlt), (unicode_ToLower_ascii _ Hc).
  rewrite Z.eqb_refl. unfold RuneSelf in Hlt. pose proof (byte_val_range c).
  assert (Hne : (byte_val c =? RuneError)%Z = false)
    by (apply Z.eqb_neq; unfold RuneError; lia).
  rewrite Hne. destruct changed; simpl.
  - rewrite (proj2 (Z.leb_le 0 (byte_val c))) by lia.
    unfold AppendRune, rune1Max. rewrite (proj2 (Z.leb_le _ _)) by lia.
    by rewrite byte_of_val.
  - by rewrite drop_0.
Qed.

Lemma Map_loop_ascii_run kw : ∀ fuel changed post,
  forallb lower_ascii kw = true → length kw ≤ fuel →
  Map_loop lower fuel changed (kw ++ post)
  = kw ++ Map_loop lower (fuel - length kw) changed post.
Proof.
  induction kw as [|c kw IH]; intros fuel changed post Hkw Hfuel.
  - simpl. by rewrite Nat.sub_0_r.
  - simpl in Hkw. apply andb_true_iff in Hkw as [Hc Hkw].
    destruct fuel as [|fuel]; [simpl in Hfuel; lia|].
    rewrite <- app_comm_cons, Map_loop_ascii by done.
    rewrite IH by (simpl in Hfuel; done || lia). done.
Qed.

(** [Map] reaches every ASCII byte of its input at the start of a rune. *)
Lemma Map_loop_sync n : ∀ pre fuel changed a rest,
  length pre ≤ n → (byte_val a < RuneSelf)%Z →
  length pre + S (length rest) ≤ fuel →
  ∃ x changed' fuel',
    Map_loop lower fuel changed (pre ++ a :: rest)
    = x ++ Map_loop lower fuel' changed' (a :: rest)
    ∧ S (length rest) ≤ fuel'.
Proof.
  induction n as [|n IH]; intros pre fuel changed a rest Hn Ha Hfuel.
  - destruct pre; [|simpl in Hn; lia]. exists [], changed, fuel. by simpl in *.
  - destruct pre as [|p0 pre]; [exists [], changed, fuel; by simpl in *|].
    destruct fuel as [|fuel]; [simpl in Hfuel; lia|].
    pose proof (Decode_before_ascii (p0 :: pre) a rest ltac:(done) Ha) as Hw.
    rewrite <- app_comm_cons. cbn [Map_loop]. rewrite app_comm_cons.
    destruct (DecodeRuneInString ((p0 :: pre) ++ a :: rest)) as [c w].
    cbn [snd] in Hw.
    rewrite drop_app_le by lia.
    destruct (IH (drop w (p0 :: pre)) fuel
                 false a rest) as (x1 & ch1 & f1 & E1 & Hf1);
      [rewrite length_drop; simpl in *; lia | done
      | rewrite length_drop; simpl in *; lia |].
    destruct (IH (drop w (p0 :: pre)) fuel
                 true a rest) as (x2 & ch2 & f2 & E2 & Hf2);
      [rewrite length_drop; simpl in *; lia | done
      | rewrite length_drop; simpl in *; lia |].
    case_match.
    + rewrite E1. eexists (_ ++ x1), ch1, f1. by rewrite <- app_assoc.
    + rewrite E2. eexists (_ ++ x2), ch2, f2. by rewrite <- app_assoc.
Qed.

Lemma lowerByte_lower_ascii kw :
  forallb lower_ascii kw = true → map lowerByte kw = kw.
Proof.
  induction kw as [|c kw IH]; [done|]. simpl.
  intros [Hc Hkw]%andb_true_iff. rewrite IH by done.
  apply lower_ascii_inv in Hc as [_ Hup]. unfold lowerByte. by rewrite Hup.
Qed.

(** Lowering keeps every occurrence of a run of lower ASCII bytes. *)
Lemma ToLower_keeps q kw :
  forallb lower_ascii kw = true →
  Contains q kw = true → Contains (ToLower lower_table q) kw = true.
Proof.
  intros Hkw (pre & post & ->)%Contains_app. unfold ToLower.
  destruct (forallb _ (pre ++ kw ++ post)).
  - destruct (existsb _ (pre ++ kw ++ post)); simpl.
    + rewrite !map_app, (lowerByte_lower_ascii kw) by done.
      apply Contains_app. eauto.
    + apply Contains_app. eauto.
  - unfold Map. destruct kw as [|a kw].
    { apply Contains_true. by exists 0. }
    simpl in Hkw. apply andb_true_iff in Hkw as [Ha Hkw].
    pose proof (lower_ascii_inv a Ha) as [Hlt _].
    rewrite <- app_comm_cons.
    destruct (Map_loop_sync (length pre) pre (length (pre ++ a :: kw ++ post))
                false a (kw ++ post)) as (x & ch & fuel & E & Hfuel);
      [done | done | rewrite ?length_app; simpl; rewrite ?length_app; lia |].
    rewrite E.
    rewrite (app_comm_cons kw post a).
    rewrite Map_loop_ascii_run;
      [| by simpl; rewrite Ha | simpl in *; rewrite length_app in Hfuel; lia].
    apply Contains_app. eauto.
Qed.

(** *** The classifier *)

Lemma isAnalystQuery_true q :
  isAnalystQuery lower_table q = true
  ↔ ∃ kw, kw ∈ keywords ∧ Contains (ToLower lower_table q) kw = true.
Proof.
  unfold isAnalystQuery. rewrite existsb_exists.
  by setoid_rewrite list_elem_of_In.
Qed.

Lemma isAnalystQuery_false q :
  isAnalystQuery lower_table q = false
  ↔ ∀ kw, kw ∈ keywords → Contains (ToLower lower_table q) kw = false.
Proof.
  rewrite <- not_true_iff_false, isAnalystQuery_true. split.
  - intros Hn kw Hkw. apply not_true_iff_false. intros Hc. apply Hn. eauto.
  - intros Hall (kw & Hkw & Hc). rewrite (Hall kw Hkw) in Hc. done.
Qed.

(** A query that contains a keyword written in lower ASCII, as it stands,
    is analytical. *)
Lemma literal_keyword_analyst q kw :
  kw ∈ keywords → forallb lower_ascii kw = true →
  Contains q kw = true → isAnalystQuery lower_table q = true.
Proof.
  intros Hkw Hlow Hc. apply isAnalystQuery_true. exists kw.
  split; [done|]. by apply ToLower_keeps.
Qed.

Lemma resumen_analyst q :
  Contains q (str "resumen") = true → isAnalystQuery lower_table q = true.
Proof.
  apply literal_keyword_analyst; [|done].
  apply (bool_decide_unpack _). vm_compute. exact I.
Qed.

End Lowering.

End lower_facts.

(** * Properties of UTF-8 validity *)

Module valid_facts.
Import utf8 strings server spec lower_facts.

#[local] Arguments byte_val : simpl never.

(** The constants of the tables, computed. *)
Ltac utf8_consts :=
  change (xx =? xx)%Z with true in *;
  change (s1 =? xx)%Z with false in *; change (s2 =? xx)%Z with false in *;
  change (s3 =? xx)%Z with false in *; change (s4 =? xx)%Z with false in *;
  change (s5 =? xx)%Z with false in *; change (s6 =? xx)%Z with false in *;
  change (s7 =? xx)%Z with false in *;
  change (Z.land s1 7) with 2%Z in *; change (Z.land s2 7) with 3%Z in *;
  change (Z.land s3 7) with 3%Z in *; change (Z.land s4 7) with 3%Z in *;
  change (Z.land s5 7) with 4%Z in *; change (Z.land s6 7) with 4%Z in *;
  change (Z.land s7 7) with 4%Z in *;
  change (2 =? 2)%Z with true in *; change (3 =? 2)%Z with false in *;
  change (4 =? 2)%Z with false in *; change (3 =? 3)%Z with true in *;
  change (4 =? 3)%Z with false in *;
  cbv iota in *.

Lemma first_nonascii b : (b <? RuneSelf)%Z = false → first b ≠ as_.
Proof.
  unfold first, RuneSelf. intros ->. repeat case_match; done.
Qed.

Lemma ltb_length_app (c0 : ascii) (t b : gostring) (k : Z) :
  (Z.of_nat (length (c0 :: t)) <? k)%Z = false →
  (Z.of_nat (length (c0 :: t ++ b)) <? k)%Z = false.
Proof.
  rewrite !Z.ltb_ge. simpl. rewrite length_app. lia.
Qed.

Lemma ValidString_app_le n : ∀ a b,
  length a ≤ n → ValidString a = true → ValidString b = true →
  ValidString (a ++ b) = true.
Proof.
  induction n as [|n IH]; intros a b Hn Ha Hb.
  { destruct a; [done|simpl in Hn; lia]. }
  destruct a as [|c0 t]; [done|].
  rewrite <- app_comm_cons. cbn [ValidString] in Ha |- *.
  destruct (byte_val c0 <? RuneSelf)%Z eqn:Hc0.
  { apply IH; [simpl in Hn; lia|done|done]. }
  pose proof (first_nonascii _ Hc0) as Hnas.
  destruct (first_cases (byte_val c0))
    as [Hx|[Hx|[Hx|[Hx|[Hx|[Hx|[Hx|[Hx|Hx]]]]]]]]; [done|..];
    rewrite Hx in Ha |- *; utf8_consts; try done.
  all: destruct (Z.of_nat (length (c0 :: t)) <? _)%Z eqn:Hlen; [done|];
       rewrite (ltb_length_app _ _ b _ Hlen).
  all: destruct t as [|c1 t1]; [done|]; rewrite <- app_comm_cons.
  all: destruct (outside c1 _); [done|].
  all: try (apply IH; [simpl in Hn; lia|done|done]).
  all: destruct t1 as [|c2 t2]; [done|]; rewrite <- app_comm_cons.
  all: destruct (outside c2 _); [done|].
  all: try (apply IH; [simpl in Hn; lia|done|done]).
  all: destruct t2 as [|c3 t3]; [done|]; rewrite <- app_comm_cons.
  all: destruct (outside c3 _); [done|].
  all: apply IH; [simpl in Hn; lia|done|done].
Qed.

Lemma ltb_length_ge (l : gostring) (k : Z) :
  (k ≤ Z.of_nat (length l))%Z → (Z.of_nat (length l) <? k)%Z = false.
Proof. intros. apply Z.ltb_ge. lia. Qed.

(** A valid non-empty string starts with one complete character, of one to
    four bytes, that is valid in front of any string, and goes on with a
    valid string. *)
Lemma ValidString_inv txt :
  txt ≠ [] → ValidString txt = true →
  ∃ h rest, txt = h ++ rest ∧ 1 ≤ length h ≤ 4 ∧ ValidString rest = true
            ∧ ∀ x, ValidString (h ++ x) = ValidString x.
Proof.
  destruct txt as [|c0 t]; [done|]. intros _ Hv.
  cbn [ValidString] in Hv.
  destruct (byte_val c0 <? RuneSelf)%Z eqn:Hc0.
  { exists [c0], t. split; [done|]. split; [simpl; lia|]. split; [done|].
    intros x. cbn [app ValidString]. by rewrite Hc0. }
  pose proof (first_nonascii _ Hc0) as Hnas.
  destruct (first_cases (byte_val c0))
    as [Hx|[Hx|[Hx|[Hx|[Hx|[Hx|[Hx|[Hx|Hx]]]]]]]]; [done|..];
    rewrite Hx in Hv; utf8_consts; try done.
  all: destruct (Z.of_nat (length (c0 :: t)) <? _)%Z eqn:Hlen; [done|].
  all: destruct t as [|c1 t1]; [done|].
  all: destruct (outside c1 _) eqn:Ho1; [done|].
  1: { exists [c0; c1], t1. split; [done|]. split; [simpl; lia|]. split; [done|].
       intros x. cbn [app ValidString]. rewrite Hc0, Hx. utf8_consts.
       rewrite ltb_length_ge by (simpl; lia). by rewrite Ho1. }
  all: destruct t1 as [|c2 t2]; [done|].
  all: destruct (outside c2 _) eqn:Ho2; [done|].
  1-3: exists [c0; c1; c2], t2; (split; [done|]); (split; [simpl; lia|]);
       (split; [done|]); intros x; cbn [app ValidString]; rewrite Hc0, Hx;
       utf8_consts; rewrite ltb_length_ge by (simpl; lia); by rewrite Ho1, Ho2.
  all: destruct t2 as [|c3 t3]; [done|].
  all: destruct (outside c3 _) eqn:Ho3; [done|].
  all: exists [c0; c1; c2; c3], t3; (split; [done|]); (split; [simpl; lia|]);
       (split; [done|]); intros x; cbn [app ValidString]; rewrite Hc0, Hx;
       utf8_consts; rewrite ltb_length_ge by (simpl; lia); by rewrite Ho1, Ho2, Ho3.
Qed.

(** Every cut of a valid string is at most three bytes after a cut that
    leaves a valid string. *)
Lemma valid_prefix_near m : ∀ txt n,
  length txt ≤ m → ValidString txt = true →
  ∃ k, k ≤ 3 ∧ k ≤ n ∧ ValidString (take (n - k) txt) = true.
Proof.
  induction m as [|m IH]; intros txt n Hm Hv.
  { destruct txt; [|simpl in Hm; lia]. exists 0. rewrite take_nil.
    split; [lia|]. split; [lia|done]. }
  destruct txt as [|c t].
  { exists 0. rewrite take_nil. split; [lia|]. split; [lia|done]. }
  destruct (ValidString_inv (c :: t) ltac:(done) Hv)
    as (h & rest & Heq & Hh & Hrest & Hhead).
  rewrite Heq in Hm |- *. rewrite length_app in Hm.
  destruct (decide (n < length h)) as [Hlt|Hge].
  - exists n. split; [lia|]. split; [lia|]. by rewrite Nat.sub_diag, take_0.
  - destruct (IH rest (n - length h) ltac:(lia) Hrest) as (k & Hk3 & Hkn & Hk).
    exists k. split; [done|]. split; [lia|].
    rewrite take_app_ge by lia. rewrite Hhead.
    by replace (n - k - length h) with (n - length h - k) by lia.
Qed.

(** Valid strings concatenate to a valid string. *)
Lemma ValidString_app a b :
  ValidString a = true → ValidString b = true → ValidString (a ++ b) = true.
Proof. by apply (ValidString_app_le (length a)). Qed.

Lemma ValidString_concat ls :
  Forall (λ l, ValidString l = true) ls → ValidString (concat ls) = true.
Proof.
  induction 1 as [|l ls Hl _ IH]; [done|]. simpl. by apply ValidString_app.
Qed.

(** ASCII text is valid. *)
Lemma ValidString_ascii s :
  forallb (λ c, (byte_val c <? RuneSelf)%Z) s = true → ValidString s = true.
Proof.
  induction s as [|c s IH]; [done|]. simpl.
  intros [Hc Hs]%andb_true_iff. rewrite Hc. by apply IH.
Qed.

(** The decimal digits written by [%d] are ASCII. *)
Lemma string_of_uint_ascii d :
  forallb (λ c, (byte_val c <? RuneSelf)%Z)
          (list_ascii_of_string (NilZero.string_of_uint d)) = true.
Proof.
  destruct d as [|d|d|d|d|d|d|d|d|d|d]; [done|..]; simpl.
  all: induction d as [|d IH|d IH|d IH|d IH|d IH|d IH|d IH|d IH|d IH|d IH];
    simpl; rewrite ?IH; done.
Qed.

Lemma verb_d_valid n : ValidString (fmt.verb_d n) = true.
Proof.
  apply ValidString_ascii. unfold fmt.verb_d, str.
  destruct (Z.to_int n) as [d|d]; simpl.
  - apply string_of_uint_ascii.
  - apply string_of_uint_ascii.
Qed.

End valid_facts.

(** * Properties of the files context *)

Module context_facts.
Import strings provider server spec valid_facts.

#[local] Opaque maxTotalBytes maxPerFileBytes.

Lemma ValidString_nil : utf8.ValidString [] = true.
Proof. reflexivity. Qed.

(** The trimming loop stops, on a prefix of its input that is valid. *)
Lemma trim_invalid_spec fuel : ∀ txt,
  length txt ≤ fuel →
  utf8.ValidString (trim_invalid fuel txt) = true
  ∧ trim_invalid fuel txt `prefix_of` txt.
Proof.
  induction fuel as [|fuel IH]; intros txt Hlen; simpl.
  - destruct txt; [done|simpl in Hlen; lia].
  - destruct (utf8.ValidString txt) eqn:Hv; simpl; [done|].
    case_bool_decide as Hpos.
    + destruct (IH (take (length txt - 1) txt)) as [Hvalid Hpre].
      { rewrite length_take. lia. }
      split; [done|]. etrans; [exact Hpre|]. apply prefix_take.
    + destruct txt; [done|simpl in Hpos; lia].
Qed.

(** The trimming loop stops at the longest valid prefix. *)
Lemma trim_invalid_longest fuel : ∀ txt k,
  length txt ≤ fuel →
  utf8.ValidString (take (length txt - k) txt) = true →
  length txt - k ≤ length (trim_invalid fuel txt).
Proof.
  induction fuel as [|fuel IH]; intros txt k Hlen Hk; simpl.
  - lia.
  - destruct (utf8.ValidString txt) eqn:Hv; simpl; [lia|].
    case_bool_decide as Hpos; [|lia].
    destruct k as [|k].
    { rewrite Nat.sub_0_r, firstn_all in Hk. congruence. }
    specialize (IH (take (length txt - 1) txt) k).
    rewrite length_take in IH.
    replace ((length txt - 1) `min` length txt) with (length txt - 1) in IH by lia.
    replace (length txt - S k) with (length txt - 1 - k) by lia.
    apply IH; [lia|].
    rewrite take_take.
    by replace ((length txt - 1 - k) `min` (length txt - 1)) with (length txt - S k) by lia.
Qed.

(** The two cuts leave the first bytes of the text, as many as the text and
    the two limits allow. *)
Lemma file_cut_length total (txt : gostring) :
  total ≤ maxTotalBytes →
  let t1 := if bool_decide (maxPerFileBytes < length txt)
            then take maxPerFileBytes txt else txt in
  let t2 := if bool_decide (maxTotalBytes < total + length t1)
            then take (maxTotalBytes - total) t1 else t1 in
  t2 = take (length t2) txt
  ∧ length t2
    = length txt `min` (maxPerFileBytes `min` (maxTotalBytes - total)).
Proof.
  intros Htot t1 t2.
  assert (H1 : t1 = take (length t1) txt
               ∧ length t1 = length txt `min` maxPerFileBytes).
  { unfold t1. case_bool_decide.
    - rewrite length_take. split; [f_equal|]; lia.
    - rewrite firstn_all. split; [done|lia]. }
  destruct H1 as [E1 L1].
  assert (H2 : t2 = take (length t2) t1
               ∧ length t2 = length t1 `min` (maxTotalBytes - total)).
  { unfold t2. case_bool_decide.
    - rewrite length_take. split; [f_equal|]; lia.
    - rewrite firstn_all. split; [done|lia]. }
  destruct H2 as [E2 L2]. split; [|lia].
  rewrite E2 at 1. rewrite E1 at 1. rewrite take_take. f_equal. lia.
Qed.

(** On a text that is valid UTF-8 the trimming takes at most three bytes
    off the cut. *)
Lemma file_excerpt_near total f :
  total ≤ maxTotalBytes → utf8.ValidString (Text f) = true →
  length (Text f) `min` (maxPerFileBytes `min` (maxTotalBytes - total))
  ≤ length (file_excerpt total f) + 3.
Proof.
  intros Htot Hv. unfold file_excerpt.
  destruct (file_cut_length total (Text f) Htot) as [Ecut Lcut].
  cbv zeta in Ecut, Lcut.
  set (t2 := if bool_decide (maxTotalBytes < total + length _) then _ else _) in *.
  destruct (valid_prefix_near (length (Text f)) (Text f) (length t2) (le_n _) Hv)
    as (k & Hk3 & Hkn & Hk).
  pose proof (trim_invalid_longest (length t2) t2 k (le_n _)) as Hlong.
  rewrite Ecut in Hlong at 2. rewrite take_take in Hlong.
  replace ((length t2 - k) `min` length t2) with (length t2 - k) in Hlong by lia.
  specialize (Hlong Hk). lia.
Qed.

(** An excerpt is a valid prefix of the text, within both limits. *)
Lemma file_excerpt_spec total f :
  total ≤ maxTotalBytes →
  file_excerpt total f `prefix_of` Text f
  ∧ utf8.ValidString (file_excerpt total f) = true
  ∧ length (file_excerpt total f) ≤ maxPerFileBytes
  ∧ total + length (file_excerpt total f) ≤ maxTotalBytes.
Proof.
  intros Htot. unfold file_excerpt.
  set (t1 := if bool_decide (maxPerFileBytes < length (Text f))
             then take maxPerFileBytes (Text f) else Text f).
  set (t2 := if bool_decide (maxTotalBytes < total + length t1)
             then take (maxTotalBytes - total) t1 else t1).
  assert (H1 : t1 `prefix_of` Text f ∧ length t1 ≤ maxPerFileBytes).
  { unfold t1. case_bool_decide; [|split; [done|lia]].
    split; [apply prefix_take|]. rewrite length_take. lia. }
  assert (H2 : t2 `prefix_of` t1 ∧ total + length t2 ≤ maxTotalBytes).
  { unfold t2. case_bool_decide; [|split; [done|lia]].
    split; [apply prefix_take|]. rewrite length_take. lia. }
  destruct (trim_invalid_spec (length t2) t2 (le_n _)) as [Hv Hp].
  pose proof (prefix_length _ _ Hp) as Hl.
  pose proof (prefix_length _ _ (proj1 H2)) as Hl2.
  split; [|split; [done|lia]].
  etrans; [exact Hp|]. etrans; [exact (proj1 H2)|]. exact (proj1 H1).
Qed.

Lemma context_step_render b total f :
  context_step (b, total) f
  = (b ++ render f (excerpt_at total f), total + length (excerpt_at total f)).
Proof.
  unfold context_step, render, excerpt_at. case_bool_decide as Hfull.
  - by rewrite app_nil_r, Nat.add_0_r.
  - case_bool_decide as Hpos.
    + by rewrite <- app_assoc.
    + rewrite app_nil_r. f_equal. lia.
Qed.

Lemma fold_left_step {A B} (g : A → B → A) (x : B) (l : list B) (a : A) :
  fold_left g (x :: l) a = fold_left g l (g a x).
Proof. reflexivity. Qed.

Lemma sum_list_cons n ns : sum_list (n :: ns) = n + sum_list ns.
Proof. reflexivity. Qed.

Lemma excerpts_cons total f fs :
  excerpts total (f :: fs)
  = excerpt_at total f :: excerpts (total + length (excerpt_at total f)) fs.
Proof. reflexivity. Qed.

Lemma context_loop_render files : ∀ b total,
  fold_left context_step files (b, total)
  = (b ++ concat (zip_with render files (excerpts total files)),
     total + sum_list (length <$> excerpts total files)).
Proof.
  induction files as [|f files IH]; intros b total.
  - simpl. by rewrite app_nil_r, Nat.add_0_r.
  - rewrite fold_left_step, context_step_render, IH, excerpts_cons.
    rewrite fmap_cons, sum_list_cons. cbn [zip_with concat].
    f_equal; [by rewrite <- app_assoc | lia].
Qed.

Lemma excerpt_at_spec total f :
  total ≤ maxTotalBytes →
  excerpt_at total f `prefix_of` Text f
  ∧ utf8.ValidString (excerpt_at total f) = true
  ∧ length (excerpt_at total f) ≤ maxPerFileBytes
  ∧ total + length (excerpt_at total f) ≤ maxTotalBytes.
Proof.
  intros Htot. unfold excerpt_at. case_bool_decide as Hfull.
  - split; [apply prefix_nil|]. split; [done|]. simpl. lia.
  - by apply file_excerpt_spec.
Qed.

Lemma excerpt_at_near total f :
  total ≤ maxTotalBytes → utf8.ValidString (Text f) = true →
  length (Text f) `min` (maxPerFileBytes `min` (maxTotalBytes - total))
  ≤ length (excerpt_at total f) + 3.
Proof.
  intros Htot Hv. unfold excerpt_at. case_bool_decide as Hfull.
  - lia.
  - by apply file_excerpt_near.
Qed.

(** The excerpt of the file at position [i] is within three bytes of what
    the text, the per-file limit and the budget left by the excerpts before
    it allow, when the text is valid UTF-8. *)
Lemma excerpts_near files : ∀ total i f e,
  total ≤ maxTotalBytes →
  files !! i = Some f → excerpts total files !! i = Some e →
  utf8.ValidString (Text f) = true →
  length (Text f)
    `min` (maxPerFileBytes
           `min` (maxTotalBytes
                  - (total + sum_list (length <$> take i (excerpts total files)))))
  ≤ length e + 3.
Proof.
  induction files as [|g files IH]; intros total i f e Htot Hf He Hv; [done|].
  rewrite excerpts_cons in He |- *.
  destruct (excerpt_at_spec total g Htot) as (_ & _ & _ & Ht).
  destruct i as [|i].
  - cbn [lookup list_lookup] in Hf, He. simplify_eq.
    rewrite take_0. cbn [fmap list_fmap]. change (sum_list []) with 0.
    rewrite Nat.add_0_r. by apply excerpt_at_near.
  - cbn [lookup list_lookup] in Hf, He.
    rewrite firstn_cons, fmap_cons, sum_list_cons, Nat.add_assoc.
    by apply IH.
Qed.

Lemma excerpts_spec files : ∀ total,
  total ≤ maxTotalBytes →
  Forall2 (λ f e, e `prefix_of` Text f ∧ utf8.ValidString e = true
                  ∧ length e ≤ maxPerFileBytes)
          files (excerpts total files)
  ∧ total + sum_list (length <$> excerpts total files) ≤ maxTotalBytes.
Proof.
  induction files as [|f files IH]; intros total Htot.
  - simpl. split; [constructor|lia].
  - rewrite excerpts_cons, fmap_cons, sum_list_cons.
    destruct (excerpt_at_spec total f Htot) as (Hp & Hv & Hl & Ht).
    destruct (IH (total + length (excerpt_at total f)) Ht) as [Hall Hsum].
    split; [by constructor|]. lia.
Qed.

(** *** The context as a whole *)

Lemma file_line_valid f :
  utf8.ValidString (Name f) = true → utf8.ValidString (file_line f) = true.
Proof.
  intros Hn. unfold file_line.
  repeat apply ValidString_app; try done. apply verb_d_valid.
Qed.

Lemma render_valid f e :
  utf8.ValidString (Name f) = true → utf8.ValidString e = true →
  utf8.ValidString (render f e) = true.
Proof.
  intros Hn He. unfold render.
  apply ValidString_app; [by apply file_line_valid|].
  case_bool_decide; [|done]. unfold content_marker.
  repeat apply ValidString_app; done.
Qed.

Lemma render_length f e :
  length (render f e) ≤ length (file_line f) + 24 + length e.
Proof.
  unfold render. rewrite length_app. case_bool_decide.
  - rewrite !length_app.
    change (length content_marker) with 22. change (length nl) with 1. lia.
  - simpl. lia.
Qed.

Lemma renders_valid files : ∀ es,
  Forall (λ f, utf8.ValidString (Name f) = true) files →
  Forall2 (λ f e, e `prefix_of` Text f ∧ utf8.ValidString e = true
                  ∧ length e ≤ maxPerFileBytes) files es →
  utf8.ValidString (concat (zip_with render files es)) = true.
Proof.
  induction files as [|f files IH]; intros es Hn Hes.
  - by destruct es.
  - apply Forall_cons in Hn as [Hf Hn].
    destruct es as [|e es]; [by apply Forall2_cons_nil_inv in Hes|].
    apply Forall2_cons in Hes as [(_ & He & _) Hes].
    cbn [zip_with concat]. apply ValidString_app; [by apply render_valid|].
    by apply IH.
Qed.

Lemma renders_length files : ∀ es,
  length (concat (zip_with render files es))
  ≤ sum_list (length ∘ file_line <$> files) + 24 * length files
    + sum_list (length <$> es).
Proof.
  induction files as [|f files IH]; intros es; [simpl; lia|].
  destruct es as [|e es]; [simpl; lia|].
  cbn [zip_with concat]. rewrite length_app, !fmap_cons, !sum_list_cons.
  pose proof (render_length f e). specialize (IH es).
  cbn [length]. unfold compose at 1. lia.
Qed.

(** C1 (as amended).  The context of a store without files is empty.
    Otherwise it is the header followed, file by file, by the summary line
    and, when non-empty, the marked excerpt; every excerpt is a prefix of the
    file's text that is valid UTF-8 and at most [maxPerFileBytes] long, and
    the excerpts together are at most [maxTotalBytes] long; when the text is
    valid UTF-8 the excerpt is at most three bytes short of what the text,
    the per-file limit and the budget left allow.  The context as a
    whole is valid UTF-8 when the names of the files are, and is longer than
    the excerpts by the header, the summary lines and 24 bytes of marker and
    newlines per file at most. *)
Theorem buildFilesContext_excerpts s :
  ∃ es : list gostring,
    buildFilesContext s
    = (if bool_decide (knowledge s = []) then []
       else context_header ++ concat (zip_with render (knowledge s) es))
    ∧ Forall2 (λ f e, e `prefix_of` Text f ∧ utf8.ValidString e = true
                      ∧ length e ≤ maxPerFileBytes)
              (knowledge s) es
    ∧ sum_list (length <$> es) ≤ maxTotalBytes
    ∧ (∀ i f e, knowledge s !! i = Some f → es !! i = Some e →
         utf8.ValidString (Text f) = true →
         length (Text f)
           `min` (maxPerFileBytes
                  `min` (maxTotalBytes - sum_list (length <$> take i es)))
         ≤ length e + 3)
    ∧ (Forall (λ f, utf8.ValidString (Name f) = true) (knowledge s) →
       utf8.ValidString (buildFilesContext s) = true)
    ∧ length (buildFilesContext s)
      ≤ length context_header
        + sum_list (length ∘ file_line <$> knowledge s)
        + 24 * length (knowledge s) + maxTotalBytes.
Proof.
  exists (excerpts 0 (knowledge s)).
  destruct (excerpts_spec (knowledge s) 0) as [Hall Hsum]; [lia|].
  assert (Heq : buildFilesContext s
    = (if bool_decide (knowledge s = []) then []
       else context_header
            ++ concat (zip_with render (knowledge s) (excerpts 0 (knowledge s))))).
  { unfold buildFilesContext, ListFiles.
    destruct (knowledge s) as [|f files] eqn:Hks; [done|].
    rewrite bool_decide_eq_false_2 by done.
    rewrite bool_decide_eq_false_2 by done.
    by rewrite context_loop_render. }
  split; [done|]. split; [done|]. split; [lia|]. split.
  { intros i f e Hf He Hv.
    pose proof (excerpts_near (knowledge s) 0 i f e (Nat.le_0_l _) Hf He Hv) as Hn.
    by rewrite Nat.add_0_l in Hn. }
  rewrite Heq. split.
  - intros Hnames. case_bool_decide; [done|].
    apply ValidString_app; [done|]. by apply renders_valid.
  - case_bool_decide; [simpl; lia|].
    rewrite length_app.
    pose proof (renders_length (knowledge s) (excerpts 0 (knowledge s))). lia.
Qed.

(** The whole context is longer than the budget as soon as the excerpts use
    it up: the header, the summary lines and the markers come on top. *)
Lemma buildFilesContext_exceeds_budget :
  (maxTotalBytes <? length (buildFilesContext big_store)) = true.
Proof. vm_compute. reflexivity. Qed.

End context_facts.

(** * Properties of the analyst prompt *)

Module prompt_facts.
Import strings provider server spec strings_facts.

Lemma reassoc (a c m x z : gostring) :
  a ++ c ++ m ++ x ++ z = (a ++ c ++ m) ++ x ++ z.
Proof. by rewrite <- !app_assoc. Qed.

Lemma template_split :
  analystTemplate
  = template_head ++ placeholder_data ++ template_mid ++ placeholder_query
    ++ template_tail.
Proof. vm_compute. reflexivity. Qed.

Lemma template_data_index :
  Index analystTemplate placeholder_data = Some (length template_head).
Proof. vm_compute. reflexivity. Qed.

Lemma template_shape :
  (∃ p', placeholder_query = lbrace :: p')
  ∧ (∃ m', template_mid = newline :: m')
  ∧ (lbrace ∉ template_head) ∧ (lbrace ∉ template_mid)
  ∧ (newline ∉ placeholder_query).
Proof.
  split; [eexists; vm_compute; reflexivity|].
  split; [eexists; vm_compute; reflexivity|].
  repeat split; apply (bool_decide_unpack _); vm_compute; exact I.
Qed.

Lemma template_tail_markers :
  Forall (λ m, Contains template_tail m = true) sectionMarkers.
Proof. apply (bool_decide_unpack _). vm_compute. exact I. Qed.

(** The first replacement always fills the data placeholder. *)
Lemma Replace_data csvContext :
  Replace_1 analystTemplate placeholder_data csvContext
  = template_head ++ csvContext ++ template_mid ++ placeholder_query
    ++ template_tail.
Proof.
  pose proof (Index_sound _ _ _ template_data_index) as [_ Hmin].
  rewrite template_split in Hmin |- *.
  by apply Replace_1_first.
Qed.

(** When the context does not contain the text of the query placeholder, the
    prompt is the filled template. *)
Lemma buildAnalystPrompt_filled userQuery csvContext :
  Contains csvContext placeholder_query = false →
  buildAnalystPrompt userQuery csvContext = filled_template userQuery csvContext.
Proof.
  intros Hc. unfold buildAnalystPrompt, filled_template. rewrite Replace_data.
  destruct template_shape as ((p' & Hp) & (m' & Hm) & Hh & Hmid & Hnl).
  rewrite (reassoc _ _ _ placeholder_query), (reassoc _ _ _ userQuery).
  apply Replace_1_first.
  by eapply no_occurrence_before.
Qed.

(** Whatever the context and the query, the prompt ends with the tail of the
    template, hence contains the section markers. *)
Lemma buildAnalystPrompt_tail userQuery csvContext :
  ∃ x, buildAnalystPrompt userQuery csvContext = x ++ template_tail.
Proof.
  unfold buildAnalystPrompt. rewrite Replace_data.
  rewrite (reassoc _ _ _ placeholder_query).
  apply Replace_1_keeps_tail.
Qed.

Lemma buildAnalystPrompt_markers userQuery csvContext :
  Forall (λ m, Contains (buildAnalystPrompt userQuery csvContext) m = true)
         sectionMarkers.
Proof.
  destruct (buildAnalystPrompt_tail userQuery csvContext) as [x ->].
  eapply Forall_impl; [exact template_tail_markers|].
  intros m Hm. simpl in *.
  rewrite <- (app_nil_r template_tail). by apply Contains_middle.
Qed.

End prompt_facts.

(** * The prompt sent to the provider *)

Module handler_facts.
Import strings provider server spec store_facts server_facts strings_facts
  lower_facts prompt_facts.

Section Prompt.
Context {P : Type} `{ChatProvider P}.
Variable chat : P.
Variable lower_table : Z → Z.
Variable now : nat → Time.

#[local] Abbreviation serve := (handle chat lower_table now).

(** Whatever the provider answers, the handler calls it once, with the
    history that ends with the user's message and the prompt of the query. *)
Lemma POST_api_messages_call content w :
  content ≠ [] →
  provider_calls (serve (POST_api_messages (Some {| req_Content := content |})) w).2
  = provider_calls w
    ++ [(All (mem w) ++ [user_message now content w],
         prompt_of lower_table content w)].
Proof.
  intros Hne. rewrite POST_api_messages_run by done. simpl.
  by destruct (Reply chat _ _).
Qed.

(** A query in which a keyword is found after lowering is analytical: the
    prompt is built from the template, contains the section markers, and is
    the filled template as long as the files context does not contain the
    text of the query placeholder. *)
Lemma analyst_prompt content w kw :
  kw ∈ keywords → Contains (ToLower lower_table content) kw = true →
  prompt_of lower_table content w
  = buildAnalystPrompt content (buildFilesContext (mem w))
  ∧ Forall (λ m, Contains (prompt_of lower_table content w) m = true) sectionMarkers
  ∧ (Contains (buildFilesContext (mem w)) placeholder_query = false →
     prompt_of lower_table content w
     = filled_template content (buildFilesContext (mem w))).
Proof.
  intros Hkw Hc. unfold prompt_of.
  rewrite (proj2 (isAnalystQuery_true lower_table content)) by eauto.
  split; [done|]. split; [apply buildAnalystPrompt_markers|].
  apply buildAnalystPrompt_filled.
Qed.

(** A query in which no keyword is found after lowering is sent as it is. *)
Lemma raw_prompt content w :
  (∀ kw, kw ∈ keywords → Contains (ToLower lower_table content) kw = false) →
  prompt_of lower_table content w = content.
Proof.
  intros Hall. unfold prompt_of.
  by rewrite (proj2 (isAnalystQuery_false lower_table content)).
Qed.

(** C2, at the input where the code departs from it.  The store holds one
    file whose text is the text of the query placeholder, and the query is
    "resumen".  The query is classified as analytical and the prompt sent
    contains the section markers, but it is not the filled template: the
    query went into the files context, and the template's own query
    placeholder is still in the prompt. *)
Theorem analyst_prompt_placeholder_in_context :
  let w := world_of placeholder_store in
  let q := str "resumen" in
  let prompt := prompt_of lower_table q w in
  isAnalystQuery lower_table q = true
  ∧ provider_calls (serve (POST_api_messages (Some {| req_Content := q |})) w).2
    = [(All (mem w) ++ [user_message now q w], prompt)]
  ∧ Forall (λ m, Contains prompt m = true) sectionMarkers
  ∧ prompt ≠ filled_template q (buildFilesContext (mem w))
  ∧ Contains prompt (template_mid ++ placeholder_query) = true
  ∧ Contains prompt (template_mid ++ q) = false.
Proof.
  intros w q prompt.
  assert (Hq : isAnalystQuery lower_table q = true) by (by apply resumen_analyst).
  split; [done|]. split; [by apply POST_api_messages_call|].
  assert (Hp : prompt = buildAnalystPrompt q (buildFilesContext (mem w))).
  { unfold prompt, prompt_of. by rewrite Hq. }
  rewrite Hp. split; [apply buildAnalystPrompt_markers|].
  split; [|split].
  - apply (bool_decide_eq_false_1 _). vm_compute. reflexivity.
  - vm_compute. reflexivity.
  - vm_compute. reflexivity.
Qed.

End Prompt.

End handler_facts.

(** * The properties on concrete stores and requests *)

Module scenarios.
Import strings provider server spec store_facts server_facts context_facts
  handler_facts.

(** Uploading [a.csv] again replaces it: still one file, the new one. *)
Lemma AddFiles_replaces_in_place_witness :
  (AddFiles [a_csv_again] one_file_store).2 = 1
  ∧ ∃ idx old, knowledge one_file_store !! idx = Some old
               ∧ Name old = Name a_csv_again
               ∧ knowledge (AddFiles [a_csv_again] one_file_store).1 !! idx
                 = Some a_csv_again.
Proof.
  destruct (AddFiles_replaces_in_place one_file_store [a_csv_again])
    as (Htotal & _ & _ & _ & Hlast & _).
  - intros f Hf. apply list_elem_of_singleton in Hf. subst f.
    apply (bool_decide_unpack _). vm_compute. exact I.
  - split; [exact Htotal|].
    apply (Hlast [] a_csv_again []); [reflexivity|].
    apply not_elem_of_nil.
Defined.

(** Appends around an upload are listed in the order of arrival. *)
Lemma messages_in_append_order_witness :
  All (run_ops [OpAppend first_message; OpAddFiles [a_csv]; OpAppend second_message]
               NewMemoryStore)
  = All NewMemoryStore
    ++ appended [OpAppend first_message; OpAddFiles [a_csv]; OpAppend second_message].
Proof.
  exact (proj1 (messages_in_append_order
                  [OpAppend first_message; OpAddFiles [a_csv]; OpAppend second_message]
                  NewMemoryStore eq_refl)).
Defined.

(** One file more than the store may hold: 413, nothing changed. *)
Lemma client_error_no_mutation_witness :
  ∃ b msg,
    handle mkMockProvider no_case_table epoch
           (POST_api_files (Some {| req_Files := [b_csv] |})) (world_of full_store)
    = ({| status := 413; body := b |}, world_of full_store)
    ∧ error_message b = Some msg
    ∧ (413 = 400 ∨ 413 = 413).
Proof.
  apply (client_error_no_mutation mkMockProvider no_case_table epoch
           (POST_api_files (Some {| req_Files := [b_csv] |})) (world_of full_store)).
  right. left. apply Nat.ltb_lt. vm_compute. reflexivity.
Defined.

(** The provider answers 500: the handler answers 502 and keeps the user's
    message. *)
Lemma provider_failure_surfaces_502_witness :
  ∃ w',
    handle (openai_with (Ok server_error)) no_case_table epoch
           (POST_api_messages (Some {| req_Content := hola |}))
           (world_of one_file_store)
    = ({| status := 502; body := H_error (str "overloaded") |}, w')
    ∧ All (mem w') = [user_message epoch hola (world_of one_file_store)]
    ∧ length (provider_calls w') = 1.
Proof.
  destruct (proj1 provider_failure_surfaces_502 _ _
              (openai_with (Ok server_error))
              no_case_table epoch hola (world_of one_file_store)
              (str "overloaded"))
    as (w' & Hrun & Hcalls & Hall & _).
  - discriminate.
  - reflexivity.
  - exists w'. split; [exact Hrun|]. split; [exact Hall|].
    rewrite Hcalls. reflexivity.
Defined.

(** Removing [b.csv] from a store that holds [a.csv] only. *)
Lemma remove_absent_unchanged_witness :
  RemoveFile (str "b.csv") one_file_store = (one_file_store, 1)
  ∧ handle mkMockProvider no_case_table epoch
           (DELETE_api_files_name (str "b.csv")) (world_of one_file_store)
    = ({| status := 200; body := H_total 1 |}, world_of one_file_store).
Proof.
  apply (remove_absent_unchanged mkMockProvider no_case_table epoch
           (str "b.csv") (world_of one_file_store)).
  apply (bool_decide_unpack _). vm_compute. exact I.
Defined.

(** An upload of three entries, one replacing [a.csv] and two of the same
    new name: [count] is 3 and the store grows by one file. *)
Lemma upload_count_and_total_witness :
  ∃ w',
    handle mkMockProvider no_case_table epoch
           (POST_api_files (Some {| req_Files := [a_csv_again; b_csv; b_csv] |}))
           (world_of one_file_store)
    = ({| status := 200;
          body := UploadFilesResponse 3 (length (knowledge (mem w'))) |}, w')
    ∧ length (knowledge (mem w')) < 1 + 3.
Proof.
  destruct (upload_count_and_total mkMockProvider no_case_table epoch
              [a_csv_again; b_csv; b_csv] (world_of one_file_store))
    as (w' & Hrun & _ & _ & Hlt).
  - discriminate.
  - apply Nat.leb_le. vm_compute. reflexivity.
  - exists w'. split; [exact Hrun|].
    apply (Hlt [] a_csv_again [b_csv; b_csv]); [reflexivity|].
    left. apply (bool_decide_unpack _). vm_compute. exact I.
Defined.

(** A 3xx status is not a failure of [Reply] by itself: with a body that
    decodes, the handler answers 200 and appends the reply. *)
Lemma redirect_status_is_no_failure :
  ((StatusCode multiple_choices <? 200)%Z || (300 <=? StatusCode multiple_choices)%Z
   = true)
  ∧ OpenAIProvider_Reply (openai_with (Ok multiple_choices))
      [user_message epoch hola (world_of NewMemoryStore)] hola
    = Ok hola
  ∧ status (handle (openai_with (Ok multiple_choices)) no_case_table epoch
              (POST_api_messages (Some {| req_Content := hola |}))
              (world_of NewMemoryStore)).1 = 200
  ∧ All (mem (handle (openai_with (Ok multiple_choices)) no_case_table epoch
                (POST_api_messages (Some {| req_Content := hola |}))
                (world_of NewMemoryStore)).2)
    = [ user_message epoch hola (world_of NewMemoryStore);
        {| Role_ := RoleAssistant; Content := hola; CreatedAt := 0%Z |} ].
Proof. vm_compute. repeat split. Qed.

End scenarios.

(** * More properties of the store *)

Module store_extras.
Import spec spec_requests store_facts.

#[local] Arguments upsert : simpl never.

(** ** Helper lemmas *)

(** With unique names the map that goes with a slice is determined. *)
Lemma idx_ok_unique (ns : list gostring) (m1 m2 : gmap gostring nat) :
  NoDup ns → idx_ok ns m1 → idx_ok ns m2 → m1 = m2.
Proof.
  intros Hnd [Hp1 Ha1] [Hp2 Ha2]. apply map_eq. intros name.
  destruct (m1 !! name) as [i|] eqn:H1.
  - pose proof (Hp1 _ _ H1) as Hi.
    destruct (Ha2 name) as [j Hj]; [by eapply list_elem_of_lookup_2|].
    rewrite Hj. f_equal. pose proof (Hp2 _ _ Hj) as Hj'.
    by eapply NoDup_lookup.
  - destruct (m2 !! name) as [j|] eqn:H2; [|done].
    pose proof (Hp2 _ _ H2) as Hj.
    destruct (Ha1 name) as [i Hi]; [by eapply list_elem_of_lookup_2|].
    congruence.
Qed.

(** Every name of the batch has a last file in the batch. *)
Lemma last_of_name (files : list KnowledgeFile) name :
  name ∈ names files →
  ∃ pre f post, files = pre ++ f :: post ∧ Name f = name ∧ name ∉ names post.
Proof.
  induction files as [|g files IH]; [by intros ?%elem_of_nil|].
  intros Hin. destruct (decide (name ∈ names files)) as [Htl|Htl].
  - destruct (IH Htl) as (pre & f & post & -> & Hf & Hpost).
    exists (g :: pre), f, post. by rewrite app_comm_cons.
  - unfold names in Hin. rewrite fmap_cons in Hin.
    apply elem_of_cons in Hin as [->|Hin]; [|done].
    exists [], g, files. done.
Qed.

(** The names after the loop are the names before and names of the batch. *)
Lemma names_cons (f : KnowledgeFile) files : names (f :: files) = Name f :: names files.
Proof. reflexivity. Qed.

Lemma names_snoc ks (f : KnowledgeFile) : names (ks ++ [f]) = names ks ++ [Name f].
Proof. unfold names. by rewrite fmap_app. Qed.

Lemma loop_names_from files : ∀ ks m name,
  idx_ok (names ks) m →
  name ∈ names (fold_left upsert files (ks, m)).1 →
  name ∈ names ks ∨ name ∈ names files.
Proof.
  induction files as [|f files IH]; intros ks m name Hok Hin; [by left|].
  rewrite names_cons. cbn [fold_left] in Hin.
  pose proof (upsert_idx_ok ks m f Hok) as Hok'.
  destruct (m !! Name f) as [idx|] eqn:Hi.
  - destruct (upsert_present _ _ _ _ Hok Hi) as (Hu & Hn & _).
    rewrite Hu in Hok', Hin. cbn [fst snd] in Hok'.
    destruct (IH _ _ _ Hok' Hin) as [H1|H1].
    + left. by rewrite <- Hn.
    + right. by right.
  - rewrite (upsert_absent _ _ _ Hi) in Hok', Hin. cbn [fst snd] in Hok'.
    destruct (IH _ _ _ Hok' Hin) as [H1|H1].
    + rewrite names_snoc in H1.
      apply elem_of_app in H1 as [H1|H1]; [by left|].
      right. apply list_elem_of_singleton in H1. subst. by left.
    + right. by right.
Qed.

(** Files of fresh, distinct names are appended in the order of the batch. *)
Lemma loop_fresh files : ∀ ks m,
  idx_ok (names ks) m → NoDup (names files) →
  (∀ f, f ∈ files → Name f ∉ names ks) →
  (fold_left upsert files (ks, m)).1 = ks ++ files.
Proof.
  induction files as [|f files IH]; intros ks m Hok Hnd Hfresh; simpl.
  - by rewrite app_nil_r.
  - unfold names in Hnd. rewrite fmap_cons in Hnd.
    apply NoDup_cons in Hnd as [Hf Hnd].
    assert (Hnone : m !! Name f = None).
    { destruct (m !! Name f) as [i|] eqn:Hi; [|done].
      exfalso. apply (Hfresh f); [by left|].
      eapply list_elem_of_lookup_2. by apply Hok. }
    pose proof (upsert_idx_ok ks m f Hok) as Hok'.
    rewrite (upsert_absent _ _ _ Hnone) in Hok' |- *. simpl in Hok'.
    rewrite IH; [by rewrite <- app_assoc|done|done|].
    intros g Hg. unfold names. rewrite fmap_app.
    intros [Hin|Hin]%elem_of_app.
    + apply (Hfresh g); [by right|done].
    + apply list_elem_of_singleton in Hin. apply Hf. rewrite <- Hin.
      apply list_elem_of_fmap. eauto.
Qed.

Lemma length_filter_NoDup (ks : list KnowledgeFile) name :
  NoDup (names ks) → name ∈ names ks →
  length (filter (λ f, Name f ≠ name) ks) + 1 = length ks.
Proof.
  induction ks as [|g ks IH]; [by intros _ ?%elem_of_nil|].
  unfold names. rewrite fmap_cons. intros [Hg Hnd]%NoDup_cons Hin.
  destruct (decide (Name g = name)) as [Heq|Hne].
  - rewrite filter_cons_False by (intros Hn; by apply Hn).
    rewrite filter_all; [simpl; lia|].
    apply Forall_forall. intros h Hh Hn. apply Hg. rewrite Heq, <- Hn.
    apply list_elem_of_fmap. eauto.
  - rewrite filter_cons_True by done. simpl.
    apply elem_of_cons in Hin as [Hin|Hin]; [congruence|].
    specialize (IH Hnd Hin). lia.
Qed.

(** ** RemoveFile *)

(** X1.  Removing a name leaves exactly the files of other names, in their
    order; the name is gone, the messages are untouched, the count returned
    is the number of files left, one less than before when the names were
    unique and the name was stored. *)
Theorem RemoveFile_removes name s :
  (name ∉ names (knowledge (RemoveFile name s).1))
  ∧ (∀ g, g ∈ knowledge (RemoveFile name s).1 ↔ g ∈ knowledge s ∧ Name g ≠ name)
  ∧ (knowledge (RemoveFile name s).1 `sublist_of` knowledge s)
  ∧ messages (RemoveFile name s).1 = messages s
  ∧ (RemoveFile name s).2 = length (knowledge (RemoveFile name s).1)
  ∧ (NoDup (names (knowledge s)) → name ∈ names (knowledge s) →
     (RemoveFile name s).2 + 1 = length (knowledge s)).
Proof.
  simpl. split.
  { intros (g & Hg & Hin)%list_elem_of_fmap.
    apply list_elem_of_filter in Hin as [Hne _]. congruence. }
  split.
  { intros g. rewrite list_elem_of_filter. tauto. }
  split; [apply sublist_filter|]. split; [done|]. split; [done|].
  apply length_filter_NoDup.
Qed.

(** X2.  Removing twice is removing once. *)
Theorem RemoveFile_idempotent name s :
  RemoveFile name (RemoveFile name s).1 = RemoveFile name s.
Proof.
  unfold RemoveFile. simpl.
  rewrite (filter_all _ (filter _ (knowledge s))); [done|].
  apply Forall_forall. intros g Hg. by apply list_elem_of_filter in Hg as [? _].
Qed.

(** ** AddFiles *)

(** X4.  Uploading a file of a new name and removing that name gives the store
    back, with its number of files. *)
Theorem AddFiles_RemoveFile_roundtrip s f :
  Name f ∉ names (knowledge s) →
  RemoveFile (Name f) (AddFiles [f] s).1 = (s, length (knowledge s)).
Proof.
  intros Hnew.
  assert (Hk : knowledge (AddFiles [f] s).1 = knowledge s ++ [f]).
  { rewrite AddFiles_unfold. simpl.
    apply (loop_fresh [f]); [apply index_names_idx_ok|apply NoDup_singleton|].
    by intros g ->%list_elem_of_singleton. }
  unfold RemoveFile. rewrite Hk, AddFiles_messages.
  rewrite filter_app, filter_cons_False by (intros Hn; by apply Hn).
  rewrite filter_nil, app_nil_r, filter_all.
  - by destruct s.
  - apply Forall_forall. intros g Hg Heq. apply Hnew. rewrite <- Heq.
    apply list_elem_of_fmap. eauto.
Qed.

(** X5.  A batch of distinct names, none of them stored, is appended to the list
    in the order of the batch, and the total is the sum. *)
Theorem AddFiles_fresh_appends s files :
  NoDup (names files) →
  (∀ f, f ∈ files → Name f ∉ names (knowledge s)) →
  AddFiles files s
  = ({| messages := messages s; knowledge := knowledge s ++ files |},
     length (knowledge s) + length files).
Proof.
  intros Hnd Hfresh. rewrite AddFiles_unfold.
  rewrite (loop_fresh files) by (done || apply index_names_idx_ok).
  by rewrite length_app.
Qed.

Lemma AddFiles_elems s files g :
  NoDup (names (knowledge s)) →
  g ∈ knowledge (AddFiles files s).1
  ↔ (∃ pre post, files = pre ++ g :: post ∧ Name g ∉ names post)
    ∨ (g ∈ knowledge s ∧ Name g ∉ names files).
Proof.
  intros Hnd.
  destruct (AddFiles_positions files s) as (_ & Hlast & Hother).
  pose proof (AddFiles_NoDup files s Hnd) as Hnd'.
  split.
  - intros Hg. apply list_elem_of_lookup in Hg as [i Hi].
    destruct (decide (Name g ∈ names files)) as [Hin|Hnin].
    + left. destruct (last_of_name files _ Hin) as (pre & f & post & Hf & Hn & Hpost).
      rewrite <- Hn in Hpost.
      destruct (Hlast pre f post Hf Hpost) as (idx & Hidx & _).
      assert (idx = i) as ->.
      { eapply NoDup_lookup; [exact Hnd'| |].
        - unfold names. by rewrite list_lookup_fmap, Hidx.
        - unfold names. rewrite list_lookup_fmap, Hi. simpl. by rewrite Hn. }
      assert (f = g) as -> by congruence. eauto.
    + right. split; [|done].
      assert (Hfrom : Name g ∈ names (knowledge s)).
      { rewrite AddFiles_unfold in Hi. simpl in Hi.
        destruct (loop_names_from files (knowledge s) _ (Name g)
                    (index_names_idx_ok _)) as [?|?]; [|done|done].
        apply list_elem_of_fmap. exists g. split; [done|].
        by eapply list_elem_of_lookup_2. }
      apply list_elem_of_fmap in Hfrom as (old & Hname & Hold).
      apply list_elem_of_lookup in Hold as [j Hj].
      assert (Hj' : knowledge (AddFiles files s).1 !! j = Some old).
      { apply Hother; [done|]. by rewrite <- Hname. }
      assert (j = i) as ->.
      { eapply NoDup_lookup; [exact Hnd'| |].
        - unfold names. by rewrite list_lookup_fmap, Hj'.
        - unfold names. rewrite list_lookup_fmap, Hi. simpl. by rewrite Hname. }
      assert (old = g) as -> by congruence.
      by eapply list_elem_of_lookup_2.
  - intros [(pre & post & Hf & Hpost)|[Hg Hnin]].
    + destruct (Hlast pre g post Hf Hpost) as (idx & Hidx & _).
      by eapply list_elem_of_lookup_2.
    + apply list_elem_of_lookup in Hg as [i Hi].
      eapply list_elem_of_lookup_2. by apply Hother.
Qed.

(** X6.  With unique names in the store, the files stored after an upload are
    exactly the last file of each name of the batch and the stored files
    whose names are not in the batch. *)
Theorem AddFiles_members s files g :
  NoDup (names (knowledge s)) →
  g ∈ knowledge (AddFiles files s).1
  ↔ (∃ pre post, files = pre ++ g :: post ∧ Name g ∉ names post)
    ∨ (g ∈ knowledge s ∧ Name g ∉ names files).
Proof. apply AddFiles_elems. Qed.

(** Two lists of files with the same names, all different, and the files of
    the one among the files of the other, are the same list. *)
Lemma same_names_same_files (l1 l2 : list KnowledgeFile) :
  names l1 = names l2 → NoDup (names l1) → (∀ g, g ∈ l1 → g ∈ l2) → l1 = l2.
Proof.
  intros Hn Hnd Hsub. apply list_eq. intros i.
  destruct (l1 !! i) as [g|] eqn:Hi.
  - assert (Hg : g ∈ l2) by (apply Hsub; by eapply list_elem_of_lookup_2).
    apply list_elem_of_lookup in Hg as [j Hj].
    assert (j = i) as ->; [|done].
    eapply NoDup_lookup; [exact Hnd| |].
    + rewrite Hn. unfold names. by rewrite list_lookup_fmap, Hj.
    + unfold names. by rewrite list_lookup_fmap, Hi.
  - apply lookup_ge_None in Hi. symmetry. apply lookup_ge_None.
    apply (f_equal length) in Hn. unfold names in Hn.
    rewrite !length_fmap in Hn. lia.
Qed.

(** X7.  With unique names in the store, the upload of a batch that has just
    been uploaded changes nothing. *)
Theorem AddFiles_idempotent s files :
  NoDup (names (knowledge s)) →
  AddFiles files (AddFiles files s).1 = AddFiles files s.
Proof.
  intros Hnd.
  pose proof (AddFiles_total files s) as Htot.
  pose proof (AddFiles_NoDup files s Hnd) as Hnd1.
  pose proof (λ g, AddFiles_elems s files g Hnd) as Hel.
  assert (Hin : ∀ f, f ∈ files → Name f ∈ names (knowledge (AddFiles files s).1)).
  { intros f Hf. rewrite AddFiles_unfold. cbn [fst knowledge].
    apply loop_names_in; [apply index_names_idx_ok|done]. }
  destruct (AddFiles files s) as [s1 n1]. cbn [fst snd] in *. subst n1.
  assert (Hk : knowledge (AddFiles files s1).1 = knowledge s1).
  { apply same_names_same_files.
    - rewrite AddFiles_unfold. cbn [fst knowledge].
      apply loop_all_present; [apply index_names_idx_ok|done].
    - by apply AddFiles_NoDup.
    - intros g Hg.
      apply (AddFiles_elems s1 files g Hnd1) in Hg as [Hlast|[Hg _]]; [|done].
      apply Hel. by left. }
  rewrite AddFiles_unfold in Hk |- *. cbn [fst knowledge] in Hk. rewrite Hk.
  by destruct s1.
Qed.

(** X8.  With unique names in the store, two uploads in a row leave the store
    that the upload of the two batches as one leaves. *)
Theorem AddFiles_app s files1 files2 :
  NoDup (names (knowledge s)) →
  AddFiles files2 (AddFiles files1 s).1 = AddFiles (files1 ++ files2) s.
Proof.
  intros Hnd. rewrite !AddFiles_unfold. cbn [fst messages knowledge].
  rewrite fold_left_app.
  pose proof (index_names_idx_ok (knowledge s)) as Hok.
  pose proof (loop_idx_ok files1 _ _ Hok) as Hok1.
  pose proof (loop_NoDup files1 _ _ Hok Hnd) as Hnd1.
  destruct (fold_left upsert files1 (knowledge s, index_names (knowledge s) 0 ∅))
    as [ks1 m1]. simpl in *.
  by rewrite (idx_ok_unique _ _ _ Hnd1 (index_names_idx_ok ks1) Hok1).
Qed.

(** ** Messages and files *)

(** X9.  After a [Reset], the messages are those appended since. *)
Theorem messages_since_reset ops1 ops2 s :
  no_reset ops2 = true →
  All (run_ops (ops1 ++ OpReset :: ops2) s) = appended ops2.
Proof.
  intros Hnr. unfold run_ops. rewrite fold_left_app. simpl.
  fold (run_ops ops2 (Reset (fold_left run_op ops1 s))).
  rewrite run_ops_messages by done. by rewrite All_Reset.
Qed.

Lemma run_op_file_knowledge o s1 s2 :
  file_op o = true → knowledge s1 = knowledge s2 →
  knowledge (run_op s1 o) = knowledge (run_op s2 o).
Proof.
  intros Ho Hk. destruct o; try done; cbn [run_op];
    rewrite ?AddFiles_unfold; unfold RemoveFile; cbn [fst knowledge];
    by rewrite Hk.
Qed.

Lemma run_op_other_knowledge o s :
  file_op o = false → knowledge (run_op s o) = knowledge s.
Proof. intros Ho. by destruct o. Qed.

Lemma run_op_file_messages o s :
  file_op o = true → messages (run_op s o) = messages s.
Proof. intros Ho. by destruct o. Qed.

Lemma run_op_other_messages o s1 s2 :
  file_op o = false → messages s1 = messages s2 →
  messages (run_op s1 o) = messages (run_op s2 o).
Proof.
  intros Ho Hm. destruct o; try done; cbn [run_op];
    unfold SeedAssistantHello, Append; cbn [messages]; by rewrite Hm.
Qed.

(** X10.  The messages and the files of the store do not act on each other: after
    any sequence of operations the files are those that the operations on
    files alone leave, and the messages those that the other operations
    alone leave. *)
Theorem messages_and_files_independent ops s :
  knowledge (run_ops ops s) = knowledge (run_ops (filter (λ o, file_op o = true) ops) s)
  ∧ messages (run_ops ops s)
    = messages (run_ops (filter (λ o, file_op o ≠ true) ops) s).
Proof.
  split.
  - assert (Hgen : ∀ s1 s2, knowledge s1 = knowledge s2 →
              knowledge (run_ops ops s1)
              = knowledge (run_ops (filter (λ o, file_op o = true) ops) s2));
      [|by apply Hgen].
    induction ops as [|o ops IH]; intros s1 s2 Hk; [done|].
    destruct (file_op o) eqn:Ho.
    + rewrite filter_cons_True by done. cbn [run_ops fold_left].
      apply IH. by apply run_op_file_knowledge.
    + rewrite filter_cons_False by (rewrite Ho; done). cbn [run_ops fold_left].
      apply IH. by rewrite run_op_other_knowledge.
  - assert (Hgen : ∀ s1 s2, messages s1 = messages s2 →
              messages (run_ops ops s1)
              = messages (run_ops (filter (λ o, file_op o ≠ true) ops) s2));
      [|by apply Hgen].
    induction ops as [|o ops IH]; intros s1 s2 Hm; [done|].
    destruct (file_op o) eqn:Ho.
    + rewrite filter_cons_False by (rewrite Ho; intros Hn; by apply Hn).
      cbn [run_ops fold_left]. apply IH. by rewrite run_op_file_messages.
    + rewrite filter_cons_True by (rewrite Ho; done). cbn [run_ops fold_left].
      apply IH. by apply run_op_other_messages.
Qed.

End store_extras.

(** * More properties of the handlers *)

Module handler_extras.
Import strings provider server spec spec_requests store_facts server_facts.

Section Handlers.
Context {P : Type} `{ChatProvider P}.
Variable chat : P.
Variable lower_table : Z → Z.
Variable now : nat → Time.

#[local] Abbreviation serve := (handle chat lower_table now).
#[local] Abbreviation after := (store_after chat lower_table now).
#[local] Abbreviation run := (run_requests chat lower_table now).

(** ** Helper lemmas: the world after a request *)

Lemma POST_api_files_rejected files w :
  filesMax < length (knowledge (mem w)) + length files →
  (serve (POST_api_files (Some {| req_Files := files |})) w).2 = w.
Proof.
  intros Hcap. simpl. unfold handle_POST_api_files. simpl.
  case_bool_decide; [done|].
  unfold mbind, M_bind, mem_ListFiles, on_mem, ListFiles. simpl.
  rewrite bool_decide_eq_true_2 by lia. by destruct w.
Qed.

Lemma handle_world r w :
  (serve r w).2
  = {| mem := after r w;
       ticks := ticks w + clock_reads chat lower_table now r w;
       provider_calls := provider_calls w ++ calls_of lower_table now r w |}.
Proof.
  destruct r as [| |[[content]|]| | |[[files]|]| |name].
  - simpl. rewrite Nat.add_0_r, app_nil_r. by destruct w.
  - simpl. rewrite Nat.add_0_r, app_nil_r. by destruct w.
  - unfold store_after, clock_reads, calls_of, reply_of. cbn [req_Content].
    destruct (decide (content = [])) as [->|Hc].
    + simpl. rewrite Nat.add_0_r, app_nil_r. by destruct w.
    + rewrite !bool_decide_eq_false_2 by done.
      rewrite POST_api_messages_run by done. cbv zeta.
      destruct (Reply chat _ _); simpl; f_equal; lia.
  - simpl. rewrite Nat.add_0_r, app_nil_r. by destruct w.
  - rewrite POST_api_reset_run. simpl. rewrite app_nil_r. f_equal. lia.
  - simpl. rewrite Nat.add_0_r, app_nil_r. by destruct w.
  - unfold store_after, clock_reads, calls_of. cbn [req_Files].
    rewrite Nat.add_0_r, app_nil_r.
    destruct (decide (files = [])) as [->|Hf].
    + simpl. by destruct w.
    + rewrite bool_decide_eq_false_2 by done. case_bool_decide as Hcap.
      * rewrite POST_api_files_rejected by done. by destruct w.
      * rewrite POST_api_files_run by (done || lia). done.
  - simpl. rewrite Nat.add_0_r, app_nil_r. by destruct w.
  - simpl. rewrite Nat.add_0_r, app_nil_r. done.
  - simpl. rewrite Nat.add_0_r, app_nil_r. done.
Qed.

Lemma handle_mem r w : mem (serve r w).2 = after r w.
Proof. by rewrite handle_world. Qed.

Lemma run_requests_snoc rs r w :
  run (rs ++ [r]) w = (serve r (run rs w)).2.
Proof. unfold run_requests. by rewrite fold_left_app. Qed.

Lemma after_cap r w :
  length (knowledge (mem w)) ≤ filesMax →
  length (knowledge (after r w)) ≤ filesMax.
Proof.
  intros Hcap. destruct r as [| |[[content]|]| | |[[files]|]| |name];
    unfold store_after; cbn [req_Content req_Files]; try done.
  - case_bool_decide; [done|]. by destruct (reply_of _ _ _ _ _).
  - case_bool_decide; [done|]. case_bool_decide; [done|].
    pose proof (AddFiles_length_le files (mem w)) as [_ Hle].
    rewrite AddFiles_total in Hle. lia.
  - unfold ClearFiles. cbn [knowledge]. rewrite take_0. cbn [length]. lia.
  - unfold RemoveFile. cbn [fst knowledge].
    etrans; [apply length_filter|done].
Qed.

Lemma after_NoDup r w :
  NoDup (names (knowledge (mem w))) → NoDup (names (knowledge (after r w))).
Proof. rewrite <- handle_mem. apply handle_names_unique. Qed.

(** What every request keeps holds after every sequence of requests. *)
Lemma run_invariant (I : World → Prop) rs w :
  (∀ r w, I w → I (serve r w).2) → I w → I (run rs w).
Proof.
  intros Hstep Hw. induction rs as [|r rs IH] using rev_ind; [done|].
  rewrite run_requests_snoc. by apply Hstep.
Qed.

Lemma chronological_snoc msgs m :
  chronological msgs → not_after (CreatedAt m) msgs → chronological (msgs ++ [m]).
Proof.
  intros Hc Hn i j mi mj Hij Hi Hj.
  apply lookup_snoc_Some in Hi as [[Hi1 Hi]|[Hi1 Hi]];
    apply lookup_snoc_Some in Hj as [[Hj1 Hj]|[Hj1 Hj]]; subst.
  - exact (Hc i j mi mj Hij Hi Hj).
  - unfold not_after in Hn. rewrite Forall_forall in Hn.
    apply Hn. by eapply list_elem_of_lookup_2.
  - lia.
  - done.
Qed.

Lemma not_after_mono t t' msgs :
  (t ≤ t')%Z → not_after t msgs → not_after t' msgs.
Proof.
  intros Ht Hn. unfold not_after in *. eapply Forall_impl; [exact Hn|].
  intros m Hm. simpl in Hm. lia.
Qed.

Lemma not_after_snoc t msgs m :
  not_after t msgs → (CreatedAt m ≤ t)%Z → not_after t (msgs ++ [m]).
Proof.
  intros Hn Hm. apply Forall_app. split; [done|]. by apply Forall_singleton.
Qed.

(** ** Invariants of the files *)

(** X11.  From a world whose files have unique names and are at most [filesMax],
    every sequence of requests leads to such a world. *)
Theorem requests_keep_files_bounded rs w :
  NoDup (names (knowledge (mem w))) →
  length (knowledge (mem w)) ≤ filesMax →
  NoDup (names (knowledge (mem (run rs w))))
  ∧ length (knowledge (mem (run rs w))) ≤ filesMax.
Proof.
  intros Hnd Hcap. induction rs as [|r rs IH] using rev_ind; [done|].
  destruct IH as [IH1 IH2]. rewrite run_requests_snoc, handle_mem.
  split; [by apply after_NoDup | by apply after_cap].
Qed.

(** ** The conversation *)

(** X12.  No request but POST /api/reset drops or changes a message: the
    conversation before the request is a prefix of the conversation after
    it, which has at most two messages more. *)
Theorem only_reset_drops_messages r w :
  r ≠ POST_api_reset →
  All (mem w) `prefix_of` All (mem (serve r w).2)
  ∧ length (All (mem (serve r w).2)) ≤ length (All (mem w)) + 2.
Proof.
  intros Hr. rewrite handle_mem.
  assert (Hsame : All (mem w) `prefix_of` All (mem w)
                  ∧ length (All (mem w)) ≤ length (All (mem w)) + 2)
    by (split; [done|lia]).
  destruct r as [| |[[content]|]| | |[[files]|]| |name];
    unfold store_after; cbn [req_Content req_Files]; try done.
  - case_bool_decide; [done|].
    destruct (reply_of _ _ _ _ _); rewrite !All_Append.
    + split; [|rewrite !length_app; simpl; lia].
      rewrite <- app_assoc. by apply prefix_app_r.
    + split; [|rewrite !length_app; simpl; lia]. by apply prefix_app_r.
  - case_bool_decide; [done|]. by case_bool_decide.
Qed.

(** X13.  A request calls the provider at most once, and only a message with
    content does: with the conversation, the new message included, and the
    prompt. *)
Theorem provider_calls_per_request r w :
  provider_calls (serve r w).2
  = provider_calls w ++ calls_of lower_table now r w
  ∧ length (calls_of lower_table now r w) ≤ 1
  ∧ ((∀ req, r = POST_api_messages (Some req) → req_Content req = []) →
     provider_calls (serve r w).2 = provider_calls w).
Proof.
  rewrite handle_world. cbn [provider_calls]. split; [done|]. split.
  - destruct r as [| |[[content]|]| | |[[files]|]| |name]; simpl; try lia.
    case_bool_decide; simpl; lia.
  - intros Hr. destruct r as [| |[[content]|]| | |[[files]|]| |name]; simpl;
      rewrite ?app_nil_r; try done.
    rewrite bool_decide_eq_true_2; [by rewrite app_nil_r|].
    by apply (Hr {| req_Content := content |}).
Qed.

(** X14.  With a clock that does not go back the conversation stays in the order
    of its times: when the messages are in that order and none is later
    than the clock, the same holds after every sequence of requests. *)
Theorem conversation_chronological rs w :
  monotone now →
  chronological (All (mem w)) →
  not_after (now (ticks w)) (All (mem w)) →
  chronological (All (mem (run rs w)))
  ∧ not_after (now (ticks (run rs w))) (All (mem (run rs w))).
Proof.
  intros Hmono Hc Hn.
  apply (run_invariant
           (λ w, chronological (All (mem w))
                 ∧ not_after (now (ticks w)) (All (mem w)))); [|done].
  clear w Hc Hn. intros r w [Hc Hn]. rewrite handle_world. cbn [mem ticks].
  destruct r as [| |[[content]|]| | |[[files]|]| |name];
    unfold store_after, clock_reads; cbn [req_Content req_Files];
    rewrite ?Nat.add_0_r; try done.
  - case_bool_decide; [by rewrite Nat.add_0_r|].
    pose proof (chronological_snoc _ (user_message now content w) Hc Hn) as Hc1.
    assert (Hn1 : not_after (now (S (ticks w)))
                    (All (mem w) ++ [user_message now content w])).
    { apply not_after_snoc; [|apply Hmono; lia].
      eapply not_after_mono; [|done]. apply Hmono. lia. }
    destruct (reply_of _ _ _ _ _) as [text|err]; rewrite !All_Append.
    + split.
      * apply chronological_snoc; [done|]. exact Hn1.
      * replace (ticks w + 2) with (S (S (ticks w))) by lia.
        apply not_after_snoc; [|apply Hmono; simpl; lia].
        eapply not_after_mono; [|done]. apply Hmono. lia.
    + replace (ticks w + 1) with (S (ticks w)) by lia. done.
  - rewrite All_SeedAssistantHello, All_Reset. cbn [app].
    replace (ticks w + 1) with (S (ticks w)) by lia. split.
    + intros i j mi mj Hij Hi Hj.
      apply list_lookup_singleton_Some in Hi as [_ <-].
      apply list_lookup_singleton_Some in Hj as [_ <-]. done.
    + apply Forall_singleton. cbn [CreatedAt]. apply Hmono. lia.
  - case_bool_decide; [done|]. by case_bool_decide.
Qed.

Lemma starts_with_greeting_app msgs more :
  starts_with_greeting msgs → starts_with_greeting (msgs ++ more).
Proof.
  intros (m & Hm & Hg). exists m. split; [|done].
  by apply lookup_app_l_Some.
Qed.

Lemma after_greeting r w :
  starts_with_greeting (All (mem w)) →
  starts_with_greeting (All (after r w)).
Proof.
  intros Hg. destruct r as [| |[[content]|]| | |[[files]|]| |name];
    unfold store_after; cbn [req_Content req_Files]; try done.
  - case_bool_decide; [done|].
    destruct (reply_of _ _ _ _ _); rewrite !All_Append;
      repeat apply starts_with_greeting_app; done.
  - rewrite All_SeedAssistantHello, All_Reset. eexists. split; [reflexivity|].
    split; [done|]. cbn [Content]. unfold greetings. set_solver.
  - case_bool_decide; [done|]. by case_bool_decide.
Qed.

(** ** Status codes *)

(** X15.  The handlers answer 200, 400, 413 or 502: 400 and 413 only to a client
    input error, 502 only to a message with content whose provider call
    fails, with the error of the provider as the message. *)
Theorem status_classification r w :
  (status (serve r w).1 = 200
   ∨ status (serve r w).1 = 400
   ∨ status (serve r w).1 = 413
   ∨ status (serve r w).1 = 502)
  ∧ (status (serve r w).1 = 400 ∨ status (serve r w).1 = 413 →
     client_input_error r w)
  ∧ (status (serve r w).1 = 502 →
     ∃ req err, r = POST_api_messages (Some req) ∧ req_Content req ≠ []
                ∧ reply_of chat lower_table now (req_Content req) w = Err err
                ∧ body (serve r w).1 = H_error err).
Proof.
  destruct r as [| |[[content]|]| | |[[files]|]| |name];
    try (split; [by left|split; [by intros [[=]|[=]]|by intros [=]]]).
  - destruct (decide (content = [])) as [->|Hc].
    { split; [right; by left|]. split; [done|by intros [=]]. }
    rewrite POST_api_messages_run by done. cbv zeta.
    destruct (Reply chat _ _) as [text|err] eqn:Hr.
    + split; [by left|split; [by intros [[=]|[=]]|by intros [=]]].
    + split; [by do 3 right|]. split; [by intros [[=]|[=]]|]. intros _.
      by exists {| req_Content := content |}, err.
  - split; [right; by left|]. split; [done|by intros [=]].
  - destruct (decide (files = [])) as [->|Hf].
    { split; [right; by left|]. split; [by left|by intros [=]]. }
    destruct (decide (filesMax < length (knowledge (mem w)) + length files))
      as [Hcap|Hcap].
    + assert (Hst : status (serve (POST_api_files (Some {| req_Files := files |})) w).1
                    = 413).
      { simpl. unfold handle_POST_api_files. simpl.
        rewrite bool_decide_eq_false_2 by (by destruct files).
        unfold mbind, M_bind, mem_ListFiles, on_mem, ListFiles. simpl.
        by rewrite bool_decide_eq_true_2 by lia. }
      rewrite Hst. split; [right; right; by left|].
      split; [|by intros [=]]. intros _. right. by left.
    + rewrite POST_api_files_run by (done || lia).
      split; [by left|split; [by intros [[=]|[=]]|by intros [=]]].
  - split; [right; by left|]. split; [done|by intros [=]].
Qed.

End Handlers.

(** ** The mock provider *)

(** X17.  With the mock provider no request is answered 502, and a message with
    content is answered 200, with the prompt between quotes as the reply;
    the conversation grows by the message and the reply. *)
Theorem mock_provider_answers lower_table now :
  (∀ r w, status (handle mkMockProvider lower_table now r w).1 ≠ 502)
  ∧ (∀ content w, content ≠ [] →
       let reply :=
         {| Role_ := RoleAssistant;
            Content := str "Entendido. (mock) Me pediste: " ++ dquote
                       ++ prompt_of lower_table content w ++ dquote;
            CreatedAt := now (S (ticks w)) |} in
       (handle mkMockProvider lower_table now
          (POST_api_messages (Some {| req_Content := content |})) w).1
       = {| status := 200;
            body := SendMessageResponse reply (str "mock-lola-ia") |}
       ∧ All (mem (handle mkMockProvider lower_table now
                     (POST_api_messages (Some {| req_Content := content |})) w).2)
         = All (mem w) ++ [user_message now content w; reply]).
Proof.
  split.
  - intros r w. destruct r as [| |[[content]|]| | |[[files]|]| |name]; try done.
    + destruct (decide (content = [])) as [->|Hc]; [done|].
      by rewrite POST_api_messages_run.
    + destruct (decide (files = [])) as [->|Hf]; [done|].
      destruct (decide (filesMax < length (knowledge (mem w)) + length files))
        as [Hcap|Hcap].
      * simpl. unfold handle_POST_api_files. simpl.
        rewrite bool_decide_eq_false_2 by (by destruct files).
        unfold mbind, M_bind, mem_ListFiles, on_mem, ListFiles. simpl.
        by rewrite bool_decide_eq_true_2 by lia.
      * by rewrite POST_api_files_run by (done || lia).
  - intros content w Hc reply. rewrite POST_api_messages_run by done.
    cbv zeta. cbn [Reply MockProvider_ChatProvider MockProvider_Reply fst snd mem].
    rewrite !All_Append, <- app_assoc. done.
Qed.

(** ** The OpenAI provider *)

(** X18.  What the OpenAI provider is sent for a message with content: the model,
    and as input the system line, the conversation before the message, the
    message, and the prompt as one more user item; for a query that is not
    analytical the prompt is the message, which is so sent twice. *)
Theorem openai_payload_of_message lower_table now (p : OpenAIProvider) content w :
  content ≠ [] →
  let history := All (mem w) ++ [user_message now content w] in
  let prompt := prompt_of lower_table content w in
  provider_calls
    (handle p lower_table now
       (POST_api_messages (Some {| req_Content := content |})) w).2
  = provider_calls w ++ [(history, prompt)]
  ∧ payload_Model (Body (openai_request p history prompt)) = model p
  ∧ payload_Input (Body (openai_request p history prompt))
    = system_item :: (item_of <$> All (mem w))
      ++ [ {| item_Role := str "user"; item_Content := content |};
           {| item_Role := str "user"; item_Content := prompt |} ]
  ∧ (isAnalystQuery lower_table content = false → prompt = content).
Proof.
  intros Hc history prompt. split.
  { pose proof (handle_world p lower_table now
                  (POST_api_messages (Some {| req_Content := content |})) w) as Hw.
    rewrite Hw. cbn [provider_calls calls_of req_Content].
    by rewrite bool_decide_eq_false_2. }
  split; [done|]. split.
  - cbn [openai_request Body OpenAIProvider_payload payload_Input].
    unfold history. rewrite map_app. cbn [map app].
    rewrite <- app_assoc. done.
  - intros Hq. unfold prompt, prompt_of. by rewrite Hq.
Qed.

(** X30.  How an exchange with OpenAI is answered, for a message with content:
    on a status of 400 or more, 502 with the error message of the body, or
    with the status line when the body has none; on a status below 400 with
    a first text block, 200 with that text as the reply of the assistant
    and the model of the provider. *)
Theorem openai_exchange_outcomes lower_table now (p : OpenAIProvider) content w resp :
  content ≠ [] →
  client_Do p (openai_request p (All (mem w) ++ [user_message now content w])
                 (prompt_of lower_table content w)) = Ok resp →
  ((400 ≤ StatusCode resp)%Z →
   (handle p lower_table now
      (POST_api_messages (Some {| req_Content := content |})) w).1
   = {| status := 502;
        body := H_error (if bool_decide (body_error_Message resp ≠ [])
                         then body_error_Message resp
                         else str "openai error: " ++ Status resp) |})
  ∧ ((StatusCode resp < 400)%Z →
     ∀ text blocks outputs,
       body_Output resp = Ok ((text :: blocks) :: outputs) →
       (handle p lower_table now
          (POST_api_messages (Some {| req_Content := content |})) w).1
       = {| status := 200;
            body := SendMessageResponse
                      {| Role_ := RoleAssistant; Content := text;
                         CreatedAt := now (S (ticks w)) |} (model p) |}).
Proof.
  intros Hc Hdo. rewrite POST_api_messages_run by done. cbv zeta.
  cbn [Reply OpenAIProvider_ChatProvider]. rewrite OpenAIProvider_Reply_unfold, Hdo.
  split.
  - intros Hs. rewrite (proj2 (Z.leb_le _ _)) by done. by case_bool_decide.
  - intros Hs text blocks outputs Hout.
    rewrite (proj2 (Z.leb_gt _ _)) by done. by rewrite Hout.
Qed.

End handler_extras.

(** * The start of the server *)

Module startup_extras.
Import strings provider server spec os startup spec_requests.
Import store_facts server_facts store_extras handler_extras.

#[local] Arguments upsert : simpl never.
#[local] Opaque filesMax.

(** ** The provider *)

(** X19.  The provider chosen at start-up: the mock when OPENAI_API_KEY is unset
    or empty, the OpenAI provider with that key otherwise, for the model
    OPENAI_MODEL, or gpt-4.1-mini when that is unset or empty. *)
Theorem choose_provider_by_env env client :
  let key := Getenv env (str "OPENAI_API_KEY") in
  let mdl := Getenv env (str "OPENAI_MODEL") in
  (key = [] → choose_provider env client = Chat_Mock mkMockProvider)
  ∧ (key ≠ [] →
     choose_provider env client
     = Chat_OpenAI {| apiKey := key;
                      model := if bool_decide (mdl = []) then str "gpt-4.1-mini"
                               else mdl;
                      client_Do := client |})
  ∧ Model (choose_provider env client)
    = (if bool_decide (key = []) then str "mock-lola-ia"
       else if bool_decide (mdl = []) then str "gpt-4.1-mini" else mdl).
Proof.
  cbv zeta. unfold choose_provider, NewOpenAIProvider, LookupEnv, Getenv.
  destruct (env !! str "OPENAI_API_KEY") as [k|]; cbn [default].
  - split; [intros ->; by rewrite bool_decide_eq_true_2|].
    split; [intros Hne; by rewrite bool_decide_eq_false_2|].
    by case_bool_decide.
  - split; [done|]. split; done.
Qed.

(** ** preloadSeedCSVs *)

Section Preload.
Variable lower_table : Z → Z.
Variable fs : FileSystem.
Variable filepath_Join : gostring → gostring → gostring.

#[local] Abbreviation preload := (preloadSeedCSVs lower_table fs filepath_Join).
#[local] Abbreviation seed := (seed_file lower_table fs filepath_Join).

Lemma omap_seed_cons dir e entries :
  omap (seed dir) (e :: entries)
  = match seed dir e with
    | Some f => f :: omap (seed dir) entries
    | None => omap (seed dir) entries
    end.
Proof. reflexivity. Qed.

(** The loop over the entries gathers the files of the entries, in order. *)
Lemma gather_omap dir entries : ∀ files,
  fold_left (gather lower_table fs filepath_Join dir) entries files
  = files ++ omap (seed dir) entries.
Proof.
  induction entries as [|e entries IH]; intros files; cbn [fold_left].
  - symmetry. apply app_nil_r.
  - rewrite IH, omap_seed_cons. unfold gather, seed_file.
    destruct (entry_IsDir e); [reflexivity|].
    destruct (HasSuffix _ _); [|reflexivity].
    destruct (ReadFile fs _); [|reflexivity].
    rewrite <- app_assoc. reflexivity.
Qed.

Lemma seed_file_spec dir e f :
  seed dir e = Some f →
  Name f = entry_Name e
  ∧ entry_IsDir e = false
  ∧ Size f = Z.of_nat (length (Text f))
  ∧ HasSuffix (ToLower lower_table (Name f)) (str ".csv") = true.
Proof.
  unfold seed_file. destruct (entry_IsDir e); [done|].
  destruct (HasSuffix _ _) eqn:Hs; [|done].
  destruct (ReadFile fs _); [|done]. by intros [= <-].
Qed.

(** What [preloadSeedCSVs] does, in one of two ways: nothing, or the upload
    of the first files of the directory. *)
Lemma preload_cases dir s :
  preload dir s = (s, 0)
  ∨ ∃ entries files,
      ReadDir fs dir = Ok entries
      ∧ files `prefix_of` omap (seed dir) entries
      ∧ files ≠ []
      ∧ length (knowledge s) + length files ≤ filesMax
      ∧ preload dir s = ((AddFiles files s).1, length files).
Proof.
  unfold preloadSeedCSVs.
  case_bool_decide; [by left|].
  destruct (Stat fs dir) as [[]|]; cbn [negb]; [|by left|by left].
  destruct (ReadDir fs dir) as [entries|]; [|by left].
  rewrite gather_omap. cbn [app]. unfold ListFiles.
  case_bool_decide as Hlen; [by left|].
  case_bool_decide as Hmax.
  - case_bool_decide as Hslots; [by left|]. right.
    exists entries, (take (Z.to_nat (Z.of_nat filesMax
                                      - Z.of_nat (length (knowledge s))))
                       (omap (seed dir) entries)).
    split; [done|]. split; [apply prefix_take|]. split.
    + intros Hnil%(f_equal length). rewrite length_take in Hnil.
      cbn [length] in Hnil. lia.
    + rewrite length_take. split; [lia|done].
  - right. exists entries, (omap (seed dir) entries).
    split; [done|]. split; [done|]. split.
    + by intros Hnil%(f_equal length).
    + split; [lia|done].
Qed.

(** Every file in the store after the loop of [AddFiles] was there before or
    is of the batch. *)
Lemma loop_elems_from files : ∀ ks (m : gmap gostring nat) g,
  g ∈ (fold_left upsert files (ks, m)).1 → g ∈ ks ∨ g ∈ files.
Proof.
  induction files as [|f files IH]; intros ks m g Hin; cbn [fold_left] in Hin;
    [by left|].
  unfold upsert in Hin. destruct (m !! Name f) as [idx|].
  - destruct (IH _ _ _ Hin) as [H1|H1]; [|right; by right].
    apply list_elem_of_lookup in H1 as [i Hi].
    apply list_lookup_insert_Some in Hi as [(-> & <- & _)|[_ Hi]].
    + right. by left.
    + left. by eapply list_elem_of_lookup_2.
  - destruct (IH _ _ _ Hin) as [H1|H1]; [|right; by right].
    apply elem_of_app in H1 as [H1|H1]; [by left|].
    apply list_elem_of_singleton in H1 as ->. right. by left.
Qed.

(** X20.  [preloadSeedCSVs] keeps the messages, the bound on the number of files
    and the uniqueness of their names; it adds at most the number of files
    it returns, and each file it adds has a name that ends in .csv in some
    case of the letters and the size of its text. *)
Theorem preloadSeedCSVs_keeps_bounds dir s :
  messages (preload dir s).1 = messages s
  ∧ (length (knowledge s) ≤ filesMax →
     length (knowledge (preload dir s).1) ≤ filesMax)
  ∧ (NoDup (names (knowledge s)) → NoDup (names (knowledge (preload dir s).1)))
  ∧ length (knowledge (preload dir s).1) ≤ length (knowledge s) + (preload dir s).2
  ∧ (∀ f, f ∈ knowledge (preload dir s).1 →
       f ∈ knowledge s
       ∨ (Size f = Z.of_nat (length (Text f))
          ∧ HasSuffix (ToLower lower_table (Name f)) (str ".csv") = true)).
Proof.
  destruct (preload_cases dir s)
    as [->|(entries & files & _ & Hpre & _ & Hcap & ->)]; cbn [fst snd].
  { split; [done|]. split; [done|]. split; [done|]. split; [lia|]. by left. }
  pose proof (AddFiles_length_le files s) as [_ Hle].
  rewrite AddFiles_total in Hle.
  split; [done|]. split; [intros _; lia|].
  split; [apply AddFiles_NoDup|]. split; [done|].
  intros f Hf. rewrite AddFiles_unfold in Hf. cbn [fst knowledge] in Hf.
  apply loop_elems_from in Hf as [Hf|Hf]; [by left|]. right.
  destruct Hpre as [rest Hpre].
  assert (Hin : f ∈ omap (seed dir) entries).
  { rewrite Hpre. apply elem_of_app. by left. }
  apply list_elem_of_omap in Hin as (e & _ & He).
  by destruct (seed_file_spec _ _ _ He) as (_ & _ & ? & ?).
Qed.

(** X21.  A store that is full takes no seed file. *)
Theorem preloadSeedCSVs_full_store dir s :
  filesMax ≤ length (knowledge s) → preload dir s = (s, 0).
Proof.
  intros Hfull. destruct (preload_cases dir s)
    as [->|(entries & files & _ & _ & Hne & Hcap & _)]; [done|].
  destruct files; [done|]. simpl in Hcap. lia.
Qed.

(** ** The store when the routes are registered *)

Variable env : Env.
Variable now : nat → Time.

#[local] Abbreviation booted :=
  (boot lower_table fs filepath_Join env now initial_world).2.

Lemma boot_world :
  booted
  = {| mem := (preload (seedDir env)
                 (SeedAssistantHello hello (now 0) NewMemoryStore)).1;
       ticks := 1; provider_calls := [] |}.
Proof.
  unfold boot, startup, mem_SeedAssistantHello, mbind, M_bind, time_Now, on_mem,
    mret, M_ret, initial_world. cbn [mem ticks provider_calls].
  by destruct (preloadSeedCSVs _ _ _ _ _).
Qed.

Lemma names_omap_seed dir entries :
  NoDup (entry_Name <$> entries) → NoDup (names (omap (seed dir) entries)).
Proof.
  induction entries as [|e entries IH]; [done|].
  rewrite fmap_cons. intros [Hnin Hnd]%NoDup_cons. rewrite omap_seed_cons.
  destruct (seed dir e) as [f|] eqn:He; [|by apply IH].
  rewrite names_cons. apply NoDup_cons. split; [|by apply IH].
  destruct (seed_file_spec _ _ _ He) as (Hn & _). rewrite Hn.
  intros (g & Hg & Hin)%list_elem_of_fmap.
  apply list_elem_of_omap in Hin as (e' & He' & Hs).
  destruct (seed_file_spec _ _ _ Hs) as (Hn' & _).
  apply Hnin. rewrite Hg, Hn'. apply list_elem_of_fmap. eauto.
Qed.

(** Into a store without files, the upload of files of distinct names
    stores them as they are. *)
Lemma AddFiles_empty files s :
  knowledge s = [] → NoDup (names files) →
  (AddFiles files s).1 = {| messages := messages s; knowledge := files |}.
Proof.
  intros Hk Hnd. rewrite AddFiles_unfold. cbn [fst]. rewrite Hk.
  rewrite (loop_fresh files [] _ (index_names_idx_ok []) Hnd); [done|].
  intros f _ Hin. by apply elem_of_nil in Hin.
Qed.

Lemma preload_empty_store dir s entries :
  dir ≠ [] → Stat fs dir = Ok true → ReadDir fs dir = Ok entries →
  NoDup (entry_Name <$> entries) → knowledge s = [] →
  (preload dir s).1
  = {| messages := messages s;
       knowledge := take filesMax (omap (seed dir) entries) |}.
Proof.
  intros Hdir Hstat Hread Hnd Hk. unfold preloadSeedCSVs.
  rewrite bool_decide_eq_false_2 by done. rewrite Hstat, Hread. cbn [negb].
  rewrite gather_omap. cbn [app]. unfold ListFiles. rewrite Hk. cbn [length].
  pose proof (names_omap_seed dir entries Hnd) as Hnd'.
  set (files := omap (seed dir) entries) in *.
  case_bool_decide as Hlen.
  { destruct files; [|done]. rewrite take_nil. cbn [fst]. destruct s.
    simpl in Hk. by subst. }
  case_bool_decide as Hmax.
  - rewrite Z.sub_0_r. case_bool_decide as Hslots.
    + assert (filesMax = 0) as -> by lia. rewrite take_0. cbn [fst].
      destruct s. simpl in Hk. by subst.
    + cbn [fst]. rewrite Nat2Z.id. apply AddFiles_empty; [done|].
      unfold names. rewrite fmap_take.
      eapply sublist_NoDup; [exact Hnd'|apply sublist_take].
  - cbn [fst]. rewrite take_ge by lia. by apply AddFiles_empty.
Qed.

(** X22.  When the seed directory can be read and its entries have distinct
    names, the server starts with the greeting as its one message and with
    the first [filesMax] CSV files of the directory that can be read, in the
    order of the entries. *)
Theorem boot_seeds_first_files entries :
  Stat fs (seedDir env) = Ok true →
  ReadDir fs (seedDir env) = Ok entries →
  NoDup (entry_Name <$> entries) →
  All (mem booted)
  = [ {| Role_ := RoleAssistant; Content := hello; CreatedAt := now 0 |} ]
  ∧ ListFiles (mem booted) = take filesMax (omap (seed (seedDir env)) entries).
Proof.
  intros Hstat Hread Hnd. rewrite boot_world. cbn [mem].
  rewrite (preload_empty_store _ _ entries); try done.
  unfold seedDir. by case_bool_decide.
Qed.

(** X23.  Whatever the environment and the file system are, after the start and
    any sequence of requests the conversation starts with a greeting of the
    assistant, the files have unique names and are at most [filesMax]. *)
Theorem served_store_invariants {P : Type} `{ChatProvider P} (chat : P) rs :
  let w := run_requests chat lower_table now rs booted in
  starts_with_greeting (All (mem w))
  ∧ NoDup (names (knowledge (mem w)))
  ∧ length (knowledge (mem w)) ≤ filesMax.
Proof.
  cbv zeta.
  apply (run_invariant chat lower_table now
           (λ w, starts_with_greeting (All (mem w))
                 ∧ NoDup (names (knowledge (mem w)))
                 ∧ length (knowledge (mem w)) ≤ filesMax)).
  - intros r w (Hg & Hnd & Hcap). rewrite handle_mem.
    split; [by apply after_greeting|].
    split; [by apply after_NoDup|by apply after_cap].
  - rewrite boot_world. cbn [mem].
    set (s := SeedAssistantHello hello (now 0) NewMemoryStore).
    destruct (preload_cases (seedDir env) s)
      as [->|(entries & files & _ & _ & _ & Hcap & ->)]; cbn [fst].
    + split; [|split; [apply NoDup_nil_2|]].
      * eexists. split; [reflexivity|]. split; [done|].
        cbn [Content]. unfold greetings, hello. set_solver.
      * unfold s. cbn [knowledge SeedAssistantHello Append NewMemoryStore length].
        lia.
    + split; [|split].
      * rewrite AddFiles_messages. eexists. split; [reflexivity|].
        split; [done|]. cbn [Content]. unfold greetings, hello. set_solver.
      * apply AddFiles_NoDup. apply NoDup_nil_2.
      * pose proof (AddFiles_length_le files s) as [_ Hle].
        rewrite AddFiles_total in Hle. lia.
Qed.

End Preload.

End startup_extras.

(** * More properties of the classifier *)

Module classifier_extras.
Import utf8 strings provider server spec spec_requests.
Import strings_facts lower_facts.

#[local] Arguments byte_val : simpl never.

Lemma is_ascii_cons c s :
  is_ascii (c :: s) = true ↔ (byte_val c < RuneSelf)%Z ∧ is_ascii s = true.
Proof.
  unfold is_ascii. cbn [forallb]. rewrite andb_true_iff, Z.ltb_lt. done.
Qed.

Lemma is_ascii_app s t :
  is_ascii (s ++ t) = true ↔ is_ascii s = true ∧ is_ascii t = true.
Proof. unfold is_ascii. rewrite forallb_app, andb_true_iff. done. Qed.

(** Without an upper-case letter there is nothing to lower. *)
Lemma lowerByte_no_upper s :
  existsb isUpperByte s = false → map lowerByte s = s.
Proof.
  induction s as [|c s IH]; [done|]. cbn [existsb map].
  intros [Hc Hs]%orb_false_iff. rewrite IH by done.
  unfold lowerByte. by rewrite Hc.
Qed.

Section Lowering.
Variable lower_table : Z → Z.

#[local] Abbreviation lower := (unicode.ToLower lower_table).

(** [Map] writes an ASCII byte as its lower-case byte. *)
Lemma Map_loop_ascii_any fuel changed c t :
  (byte_val c < RuneSelf)%Z →
  ∃ changed',
    Map_loop lower (S fuel) changed (c :: t)
    = lowerByte c :: Map_loop lower fuel changed' t.
Proof.
  intros Hlt. destruct (isUpperByte c) eqn:Hup.
  - exists true. cbn [Map_loop]. rewrite (Decode_ascii _ _ Hlt).
    unfold lowerByte. rewrite Hup.
    assert (Hl : lower (byte_val c)
                 = (byte_val c + (unicode.char_a - unicode.char_A))%Z).
    { unfold unicode.ToLower, unicode.MaxASCII. unfold RuneSelf in Hlt.
      rewrite (proj2 (Z.leb_le _ _)) by lia.
      unfold isUpperByte in Hup. by rewrite Hup. }
    rewrite Hl. unfold isUpperByte in Hup.
    apply andb_true_iff in Hup as [H1 H2].
    apply Z.leb_le in H1, H2.
    unfold unicode.char_a, unicode.char_A, unicode.char_Z in *.
    assert (Hne : ((byte_val c + (97 - 65)) =? byte_val c)%Z = false)
      by (apply Z.eqb_neq; lia).
    rewrite Hne, andb_false_r, andb_false_l.
    rewrite (proj2 (Z.leb_le 0 _)) by lia.
    unfold AppendRune, rune1Max. rewrite (proj2 (Z.leb_le _ _)) by lia.
    reflexivity.
  - exists changed. rewrite Map_loop_ascii.
    + unfold lowerByte. by rewrite Hup.
    + unfold lower_ascii. rewrite Hup. cbn [negb]. rewrite andb_true_r.
      by apply Z.ltb_lt.
Qed.

Lemma Map_loop_ascii_any_run u : ∀ fuel changed post,
  is_ascii u = true → length u ≤ fuel →
  ∃ changed',
    Map_loop lower fuel changed (u ++ post)
    = map lowerByte u ++ Map_loop lower (fuel - length u) changed' post.
Proof.
  induction u as [|c u IH]; intros fuel changed post Hu Hfuel.
  - exists changed. cbn [app map length]. by rewrite Nat.sub_0_r.
  - apply is_ascii_cons in Hu as [Hc Hu].
    destruct fuel as [|fuel]; [simpl in Hfuel; lia|].
    rewrite <- app_comm_cons.
    destruct (Map_loop_ascii_any fuel changed c (u ++ post) Hc) as [ch1 ->].
    destruct (IH fuel ch1 post Hu) as [ch2 ->]; [simpl in Hfuel; lia|].
    exists ch2. done.
Qed.

(** [ToLower] lowers every run of ASCII bytes where it stands. *)
Lemma ToLower_lowers q u :
  is_ascii u = true →
  Contains q u = true → Contains (ToLower lower_table q) (map lowerByte u) = true.
Proof.
  intros Hu (pre & post & ->)%Contains_app. unfold ToLower.
  destruct (forallb _ (pre ++ u ++ post)).
  - assert (Hmap : Contains (map lowerByte (pre ++ u ++ post)) (map lowerByte u)
                   = true).
    { rewrite !map_app. apply Contains_app. eauto. }
    destruct (existsb _ (pre ++ u ++ post)) eqn:Hup; cbn [negb]; [done|].
    by rewrite lowerByte_no_upper in Hmap.
  - unfold Map. destruct u as [|a u].
    { apply Contains_true. by exists 0. }
    pose proof Hu as Hau. apply is_ascii_cons in Hu as [Ha Hu].
    rewrite <- app_comm_cons.
    destruct (Map_loop_sync lower_table (length pre) pre
                (length (pre ++ a :: u ++ post))
                false a (u ++ post)) as (x & ch & fuel & E & Hfuel);
      [done | done | rewrite ?length_app; simpl; rewrite ?length_app; lia |].
    rewrite E. rewrite (app_comm_cons u post a).
    destruct (Map_loop_ascii_any_run (a :: u) fuel ch post Hau) as [ch' ->];
      [simpl in *; rewrite length_app in Hfuel; lia|].
    apply Contains_app. eauto.
Qed.

(** On a query of ASCII bytes [ToLower] is the lowering of each byte. *)
Lemma ToLower_ascii q :
  is_ascii q = true → ToLower lower_table q = map lowerByte q.
Proof.
  intros Hq. unfold ToLower. unfold is_ascii in Hq. rewrite Hq.
  destruct (existsb _ q) eqn:Hup; cbn [negb]; [done|].
  by rewrite lowerByte_no_upper.
Qed.

(** X24.  A keyword is found in whatever case its ASCII letters are written: a
    query that contains a run of ASCII bytes whose lowering is a keyword is
    analytical, whatever else the query contains. *)
Theorem keyword_in_any_ascii_case q u kw :
  kw ∈ keywords → is_ascii u = true → map lowerByte u = kw →
  Contains q u = true →
  isAnalystQuery lower_table q = true.
Proof.
  intros Hkw Hu Hl Hc. apply isAnalystQuery_true. exists kw.
  split; [done|]. rewrite <- Hl. by apply ToLower_lowers.
Qed.

(** X25.  On a query of ASCII bytes the classifier does not depend on the case
    tables of Unicode: the query is analytical exactly when its byte-wise
    lowering contains a keyword. *)
Theorem isAnalystQuery_ascii q :
  is_ascii q = true →
  isAnalystQuery lower_table q
  = existsb (λ kw, Contains (map lowerByte q) kw) keywords.
Proof.
  intros Hq. unfold isAnalystQuery. by rewrite ToLower_ascii.
Qed.

End Lowering.

End classifier_extras.

(** * More properties of the context and of the prompt *)

Module prompt_extras.
Import utf8 strings provider server spec spec_requests.
Import strings_facts valid_facts context_facts prompt_facts.

#[local] Opaque maxTotalBytes maxPerFileBytes.

(** ** Files within the limits *)

Lemma trim_invalid_valid fuel txt :
  ValidString txt = true → trim_invalid fuel txt = txt.
Proof. intros Hv. destruct fuel; [done|]. cbn [trim_invalid]. by rewrite Hv. Qed.

Lemma excerpt_at_whole total f :
  ValidString (Text f) = true →
  length (Text f) ≤ maxPerFileBytes →
  total + length (Text f) ≤ maxTotalBytes →
  excerpt_at total f = Text f.
Proof.
  intros Hv Hper Htot. unfold excerpt_at. case_bool_decide as Hfull.
  - destruct (Text f); [done|]. cbn [length] in Htot. lia.
  - unfold file_excerpt. cbv zeta.
    rewrite (bool_decide_eq_false_2 (maxPerFileBytes < _)) by lia.
    rewrite (bool_decide_eq_false_2 (maxTotalBytes < _)) by lia.
    by apply trim_invalid_valid.
Qed.

Lemma excerpts_whole files : ∀ total,
  Forall (λ f, ValidString (Text f) = true
               ∧ length (Text f) ≤ maxPerFileBytes) files →
  total + sum_list (length ∘ Text <$> files) ≤ maxTotalBytes →
  excerpts total files = Text <$> files.
Proof.
  induction files as [|f files IH]; intros total Hall Hsum; [done|].
  apply Forall_cons in Hall as [[Hv Hper] Hall].
  rewrite fmap_cons, sum_list_cons in Hsum. unfold compose at 1 in Hsum.
  rewrite excerpts_cons, fmap_cons.
  rewrite excerpt_at_whole by (done || lia).
  rewrite IH by (done || lia). done.
Qed.

Lemma zip_with_render_fmap (files : list KnowledgeFile) :
  zip_with render files (Text <$> files) = (λ f, render f (Text f)) <$> files.
Proof.
  induction files as [|f files IH]; [done|].
  rewrite !fmap_cons. cbn [zip_with]. by rewrite IH.
Qed.

(** X26.  Files within the limits are in the context in full: when every text is
    valid UTF-8 and at most [maxPerFileBytes] long, and the texts together
    are at most [maxTotalBytes] long, the context is the header and, for
    each file, its summary line and its whole text. *)
Theorem buildFilesContext_whole_texts s :
  knowledge s ≠ [] →
  Forall (λ f, ValidString (Text f) = true
               ∧ length (Text f) ≤ maxPerFileBytes) (knowledge s) →
  sum_list (length ∘ Text <$> knowledge s) ≤ maxTotalBytes →
  buildFilesContext s
  = context_header ++ concat ((λ f, render f (Text f)) <$> knowledge s).
Proof.
  intros Hne Hall Hsum. unfold buildFilesContext, ListFiles.
  rewrite bool_decide_eq_false_2 by (by destruct (knowledge s)).
  rewrite context_loop_render. cbn [fst].
  rewrite excerpts_whole by (done || lia).
  by rewrite zip_with_render_fmap.
Qed.

(** ** Files without braces *)

Lemma not_lbrace_forallb s : forallb not_lbrace s = true → lbrace ∉ s.
Proof.
  induction s as [|c s IH]; [intros _; apply not_elem_of_nil|].
  cbn [forallb]. intros [Hc Hs]%andb_true_iff.
  apply not_elem_of_cons. split; [|by apply IH].
  intros <-. unfold not_lbrace in Hc. by rewrite Ascii.eqb_refl in Hc.
Qed.

Lemma forallb_not_lbrace s : lbrace ∉ s → forallb not_lbrace s = true.
Proof.
  induction s as [|c s IH]; [done|].
  intros [Hc Hs]%not_elem_of_cons. cbn [forallb]. rewrite IH by done.
  rewrite andb_true_r. unfold not_lbrace. apply negb_true_iff.
  apply Ascii.eqb_neq. congruence.
Qed.

Lemma string_of_uint_no_lbrace d :
  forallb not_lbrace (list_ascii_of_string (NilZero.string_of_uint d)) = true.
Proof.
  destruct d as [|d|d|d|d|d|d|d|d|d|d]; [done|..]; simpl.
  all: induction d as [|d IH|d IH|d IH|d IH|d IH|d IH|d IH|d IH|d IH|d IH];
    simpl; rewrite ?IH; done.
Qed.

Lemma verb_d_no_lbrace n : forallb not_lbrace (fmt.verb_d n) = true.
Proof.
  unfold fmt.verb_d, str. destruct (Z.to_int n) as [d|d]; simpl.
  - apply string_of_uint_no_lbrace.
  - apply string_of_uint_no_lbrace.
Qed.

Lemma file_line_no_lbrace f :
  forallb not_lbrace (Name f) = true → forallb not_lbrace (file_line f) = true.
Proof.
  intros Hn. unfold file_line.
  rewrite !forallb_app, Hn, verb_d_no_lbrace. reflexivity.
Qed.

Lemma render_no_lbrace f e :
  forallb not_lbrace (Name f) = true → forallb not_lbrace e = true →
  forallb not_lbrace (render f e) = true.
Proof.
  intros Hn He. unfold render.
  rewrite forallb_app, file_line_no_lbrace by done.
  case_bool_decide; [|done]. unfold content_marker.
  rewrite !forallb_app, He. reflexivity.
Qed.

Lemma forallb_prefix {A} (p : A → bool) (l k : list A) :
  l `prefix_of` k → forallb p k = true → forallb p l = true.
Proof.
  intros [rest ->]. rewrite forallb_app. by intros [? _]%andb_true_iff.
Qed.

Lemma renders_no_lbrace files : ∀ es,
  Forall (λ f, forallb not_lbrace (Name f) = true
               ∧ forallb not_lbrace (Text f) = true) files →
  Forall2 (λ f e, e `prefix_of` Text f ∧ ValidString e = true
                  ∧ length e ≤ maxPerFileBytes) files es →
  forallb not_lbrace (concat (zip_with render files es)) = true.
Proof.
  induction files as [|f files IH]; intros es Hn Hes.
  - by destruct es.
  - apply Forall_cons in Hn as [[Hf Ht] Hn].
    destruct es as [|e es]; [by apply Forall2_cons_nil_inv in Hes|].
    apply Forall2_cons in Hes as [(Hpre & _) Hes].
    cbn [zip_with concat]. rewrite forallb_app.
    rewrite render_no_lbrace; [|done|by eapply forallb_prefix].
    by rewrite IH.
Qed.

(** The context of files without braces has no brace. *)
Lemma buildFilesContext_no_lbrace s :
  (∀ f, f ∈ knowledge s → (lbrace ∉ Name f) ∧ (lbrace ∉ Text f)) →
  lbrace ∉ buildFilesContext s.
Proof.
  intros Hall. apply not_lbrace_forallb.
  unfold buildFilesContext, ListFiles. case_bool_decide; [done|].
  rewrite context_loop_render. cbn [fst]. rewrite forallb_app.
  destruct (excerpts_spec (knowledge s) 0) as [Hspec _]; [lia|].
  rewrite renders_no_lbrace; [done| |done].
  apply Forall_forall. intros f Hf. destruct (Hall f Hf).
  split; by apply forallb_not_lbrace.
Qed.

(** A string without a brace does not contain the query placeholder. *)
Lemma no_lbrace_no_placeholder c :
  lbrace ∉ c → Contains c placeholder_query = false.
Proof.
  intros Hc. apply Contains_false. intros i Ho. apply Hc.
  destruct template_shape as ((p' & Hp) & _).
  assert (Hk : placeholder_query !! 0 = Some lbrace) by (by rewrite Hp).
  pose proof (occurs_at_lookup _ _ _ _ _ Ho Hk) as Hl.
  by eapply list_elem_of_lookup_2.
Qed.

(** X27.  When no stored file has a brace in its name or in its text, the prompt
    of every analytical query is the filled template: the template with the
    context of the files in the place of the data placeholder and the query
    in the place of the query placeholder. *)
Theorem analyst_prompt_filled_without_braces lower_table q w :
  (∀ f, f ∈ knowledge (mem w) → (lbrace ∉ Name f) ∧ (lbrace ∉ Text f)) →
  isAnalystQuery lower_table q = true →
  prompt_of lower_table q w = filled_template q (buildFilesContext (mem w)).
Proof.
  intros Hall Hq. unfold prompt_of. rewrite Hq.
  apply buildAnalystPrompt_filled, no_lbrace_no_placeholder.
  by apply buildFilesContext_no_lbrace.
Qed.

End prompt_extras.

(** * The list of attachments of the frontend *)

Module frontend_extras.
Import spec frontend store_facts store_extras.

#[local] Arguments upsert : simpl never.

Section Attachments.
Context {K V : Type} `{EqDecision K}.
Variable name : V → K.

#[local] Abbreviation set_all :=
  (fold_left (λ (m : list (K * V)) a, Map_set m (name a) a)).

Lemma Map_set_absent (m : list (K * V)) k v :
  k ∉ m.*1 → Map_set m k v = m ++ [(k, v)].
Proof.
  induction m as [|[k' v'] m IH]; [done|].
  rewrite fmap_cons. intros [Hne Hnin]%not_elem_of_cons. cbn [Map_set fst] in *.
  rewrite decide_False by done. by rewrite IH.
Qed.

Lemma Map_set_present (m : list (K * V)) k v i :
  NoDup m.*1 → m.*1 !! i = Some k → Map_set m k v = <[i := (k, v)]> m.
Proof.
  revert i. induction m as [|[k' v'] m IH]; intros i; [done|].
  rewrite fmap_cons. intros [Hnin Hnd]%NoDup_cons Hi. cbn [Map_set fst] in *.
  destruct i as [|i]; cbn in Hi.
  - injection Hi as ->. by rewrite decide_True.
  - rewrite decide_False.
    + cbn. by rewrite (IH i).
    + intros ->. apply Hnin. by eapply list_elem_of_lookup_2.
Qed.

Lemma Map_set_keys (m : list (K * V)) k v :
  (Map_set m k v).*1 = if decide (k ∈ m.*1) then m.*1 else m.*1 ++ [k].
Proof.
  induction m as [|[k' v'] m IH]; [done|].
  cbn [Map_set]. rewrite !fmap_cons. cbn [fst].
  destruct (decide (k' = k)) as [->|Hne].
  - rewrite decide_True by (by left). done.
  - rewrite fmap_cons, IH. cbn [fst].
    destruct (decide (k ∈ m.*1)) as [Hin|Hnin].
    + rewrite decide_True by (by right). done.
    + rewrite decide_False; [done|].
      intros [?|?]%elem_of_cons; congruence.
Qed.

Lemma Map_set_NoDup (m : list (K * V)) k v : NoDup m.*1 → NoDup (Map_set m k v).*1.
Proof.
  intros Hnd. rewrite Map_set_keys. case_decide; [done|].
  apply NoDup_app. split; [done|]. split; [|apply NoDup_singleton].
  intros x Hx ->%list_elem_of_singleton. done.
Qed.

Lemma Map_set_keyed (m : list (K * V)) v :
  keyed name m → keyed name (Map_set m (name v) v).
Proof.
  unfold keyed. induction m as [|[k' v'] m IH]; intros Hm; cbn [Map_set].
  - by apply Forall_singleton.
  - apply Forall_cons in Hm as [Hkv Hm]. cbn [fst snd] in Hkv.
    case_decide as Hk; apply Forall_cons; split.
    + exact Hk.
    + exact Hm.
    + exact Hkv.
    + by apply IH.
Qed.

Lemma Map_set_values (m : list (K * V)) k v x :
  x ∈ (Map_set m k v).*2 → x ∈ m.*2 ∨ x = v.
Proof.
  induction m as [|[k' v'] m IH]; cbn [Map_set].
  - intros ->%list_elem_of_singleton. by right.
  - case_decide; rewrite !fmap_cons; cbn [snd].
    + intros [->|Hx]%elem_of_cons; [by right|]. left. by right.
    + intros [->|Hx]%elem_of_cons; [left; by left|].
      destruct (IH Hx) as [?|?]; [left; by right|by right].
Qed.

Lemma set_all_inv loaded : ∀ m : list (K * V),
  NoDup m.*1 → keyed name m →
  NoDup (set_all loaded m).*1 ∧ keyed name (set_all loaded m).
Proof.
  induction loaded as [|a loaded IH]; intros m Hnd Hk; [done|].
  cbn [fold_left]. apply IH; [by apply Map_set_NoDup|by apply Map_set_keyed].
Qed.

Lemma set_all_values loaded : ∀ (m : list (K * V)) x,
  x ∈ (set_all loaded m).*2 → x ∈ m.*2 ∨ x ∈ loaded.
Proof.
  induction loaded as [|a loaded IH]; intros m x Hx; [by left|].
  cbn [fold_left] in Hx. destruct (IH _ _ Hx) as [H1|H1]; [|right; by right].
  destruct (Map_set_values _ _ _ _ H1) as [?| ->]; [by left|right; by left].
Qed.

Lemma keyed_names (m : list (K * V)) : keyed name m → name <$> m.*2 = m.*1.
Proof.
  induction 1 as [|[k v] m Hkv _ IH]; [done|].
  rewrite !fmap_cons, IH. cbn [fst snd] in *. by rewrite Hkv.
Qed.

(** X28.  Whatever the list was, after the update of [handleFilesSelected] no two
    attachments have the same name, and every attachment was in the list
    or is one of the files read. *)
Theorem merge_attachments_unique prev loaded :
  NoDup (name <$> merge_attachments name prev loaded)
  ∧ (∀ a, a ∈ merge_attachments name prev loaded → a ∈ prev ∨ a ∈ loaded).
Proof.
  unfold merge_attachments, Map_of.
  destruct (set_all_inv prev []) as [Hnd1 Hk1];
    [apply NoDup_nil_2|apply Forall_nil_2|].
  destruct (set_all_inv loaded _ Hnd1 Hk1) as [Hnd2 Hk2].
  split.
  - by rewrite keyed_names.
  - intros a Ha. apply set_all_values in Ha as [Ha|Ha]; [|by right].
    apply set_all_values in Ha as [Ha|Ha]; [|by left].
    by apply elem_of_nil in Ha.
Qed.

(** The [Map] of a list of attachments of distinct names has them in the
    order of the list. *)
Lemma Map_of_NoDup prev :
  NoDup (name <$> prev) → Map_of name prev = (λ a, (name a, a)) <$> prev.
Proof.
  unfold Map_of. induction prev as [|a prev IH] using rev_ind; [done|].
  rewrite fmap_app. intros (Hnd & Hnin & _)%NoDup_app.
  rewrite fold_left_app. cbn [fold_left]. rewrite IH by done.
  rewrite Map_set_absent.
  - by rewrite fmap_app.
  - rewrite <- list_fmap_compose. intros Hin. apply (Hnin (name a)); [done|].
    cbn. by left.
Qed.

End Attachments.

(** ** The update of the frontend and the upload of the backend *)

Lemma set_all_upsert loaded : ∀ (m : list (gostring * KnowledgeFile)) idx,
  NoDup m.*1 → keyed Name m → idx_ok (names m.*2) idx →
  (fold_left (λ m a, Map_set m (Name a) a) loaded m).*2
  = (fold_left upsert loaded (m.*2, idx)).1.
Proof.
  induction loaded as [|f loaded IH]; intros m idx Hnd Hk Hok; [done|].
  cbn [fold_left].
  pose proof (keyed_names Name m Hk) as Hkeys. fold (names m.*2) in Hkeys.
  pose proof (upsert_idx_ok m.*2 idx f Hok) as Hok'.
  assert (Hstep : (Map_set m (Name f) f).*2 = (upsert (m.*2, idx) f).1).
  { destruct (idx !! Name f) as [i|] eqn:Hi.
    - destruct (upsert_present _ _ _ _ Hok Hi) as (-> & _ & Hn). cbn [fst].
      rewrite (Map_set_present m _ _ i); [|done|by rewrite <- Hkeys].
      by rewrite list_fmap_insert.
    - rewrite (upsert_absent _ _ _ Hi). cbn [fst].
      rewrite Map_set_absent; [by rewrite fmap_app|].
      rewrite <- Hkeys. intros Hin. destruct (proj2 Hok _ Hin) as [j Hj].
      congruence. }
  rewrite (IH _ (upsert (m.*2, idx) f).2).
  - rewrite Hstep. by destruct (upsert (m.*2, idx) f).
  - by apply Map_set_NoDup.
  - by apply Map_set_keyed.
  - by rewrite Hstep.
Qed.

(** X29.  For files and names as the backend receives them: when the list of the
    frontend is the list of files of the store, with unique names, the
    update of [handleFilesSelected] gives the list that [AddFiles] leaves in
    the store, and the update of [removeAttachment] the list that
    [RemoveFile] leaves. *)
Theorem attachments_follow_store s loaded n :
  NoDup (names (knowledge s)) →
  merge_attachments Name (knowledge s) loaded = knowledge (AddFiles loaded s).1
  ∧ remove_attachment Name n (knowledge s) = knowledge (RemoveFile n s).1.
Proof.
  intros Hnd. split; [|done].
  unfold merge_attachments. rewrite Map_of_NoDup by done.
  rewrite AddFiles_unfold. cbn [fst knowledge].
  assert (Hval : ((λ a, (Name a, a)) <$> knowledge s).*2 = knowledge s).
  { rewrite <- list_fmap_compose. apply list_fmap_id. }
  rewrite (set_all_upsert loaded _ (index_names (knowledge s) 0 ∅)).
  - by rewrite Hval.
  - rewrite <- list_fmap_compose. exact Hnd.
  - apply Forall_fmap, Forall_forall. by intros a _.
  - rewrite Hval. apply index_names_idx_ok.
Qed.

End frontend_extras.

(** * More properties on concrete stores and requests *)

Module more_scenarios.
Import utf8 strings provider server spec os startup spec_requests frontend.
Import store_facts server_facts store_extras handler_extras startup_extras
  classifier_extras prompt_extras frontend_extras.

Ltac by_computation := apply (bool_decide_unpack _); vm_compute; exact I.

(** [b.csv] uploaded to a store that holds [a.csv], then removed. *)
Lemma AddFiles_RemoveFile_roundtrip_witness :
  RemoveFile (Name b_csv) (AddFiles [b_csv] one_file_store).1
  = (one_file_store, length (knowledge one_file_store)).
Proof.
  apply (AddFiles_RemoveFile_roundtrip one_file_store b_csv). by_computation.
Defined.

Lemma AddFiles_fresh_appends_witness :
  AddFiles [b_csv] one_file_store
  = ({| messages := messages one_file_store;
        knowledge := knowledge one_file_store ++ [b_csv] |},
     length (knowledge one_file_store) + length [b_csv]).
Proof.
  apply (AddFiles_fresh_appends one_file_store [b_csv]).
  - by_computation.
  - intros f Hf. apply list_elem_of_singleton in Hf. subst f. by_computation.
Defined.

Lemma AddFiles_members_witness :
  b_csv ∈ knowledge (AddFiles [a_csv_again; b_csv] one_file_store).1
  ↔ (∃ pre post, [a_csv_again; b_csv] = pre ++ b_csv :: post
                 ∧ Name b_csv ∉ names post)
    ∨ (b_csv ∈ knowledge one_file_store
       ∧ Name b_csv ∉ names [a_csv_again; b_csv]).
Proof.
  apply (AddFiles_members one_file_store [a_csv_again; b_csv] b_csv).
  by_computation.
Defined.

Lemma AddFiles_idempotent_witness :
  AddFiles [a_csv; b_csv; a_csv_again]
    (AddFiles [a_csv; b_csv; a_csv_again] NewMemoryStore).1
  = AddFiles [a_csv; b_csv; a_csv_again] NewMemoryStore.
Proof.
  apply (AddFiles_idempotent NewMemoryStore [a_csv; b_csv; a_csv_again]).
  by_computation.
Defined.

Lemma AddFiles_app_witness :
  AddFiles [b_csv] (AddFiles [a_csv_again] one_file_store).1
  = AddFiles ([a_csv_again] ++ [b_csv]) one_file_store.
Proof.
  apply (AddFiles_app one_file_store [a_csv_again] [b_csv]). by_computation.
Defined.

Lemma messages_since_reset_witness :
  All (run_ops ([OpAppend first_message] ++ OpReset :: [OpAppend second_message])
               NewMemoryStore)
  = appended [OpAppend second_message].
Proof.
  exact (messages_since_reset [OpAppend first_message] [OpAppend second_message]
           NewMemoryStore eq_refl).
Defined.

(** An upload and a removal on a store that holds [a.csv]. *)
Lemma requests_keep_files_bounded_witness :
  NoDup (names (knowledge (mem (run_requests mkMockProvider no_case_table epoch
                                  two_requests (world_of one_file_store)))))
  ∧ length (knowledge (mem (run_requests mkMockProvider no_case_table epoch
                              two_requests (world_of one_file_store))))
    ≤ filesMax.
Proof.
  apply (requests_keep_files_bounded mkMockProvider no_case_table epoch
           two_requests (world_of one_file_store)).
  - by_computation.
  - apply Nat.leb_le. vm_compute. reflexivity.
Defined.

Lemma only_reset_drops_messages_witness :
  All (mem (world_of one_file_store))
    `prefix_of` All (mem (handle mkMockProvider no_case_table epoch
                            (POST_api_messages (Some {| req_Content := hola |}))
                            (world_of one_file_store)).2)
  ∧ length (All (mem (handle mkMockProvider no_case_table epoch
                        (POST_api_messages (Some {| req_Content := hola |}))
                        (world_of one_file_store)).2))
    ≤ length (All (mem (world_of one_file_store))) + 2.
Proof.
  apply (only_reset_drops_messages mkMockProvider no_case_table epoch
           (POST_api_messages (Some {| req_Content := hola |}))
           (world_of one_file_store)).
  discriminate.
Defined.

(** A message and a reset, with a clock that advances at each reading. *)
Lemma conversation_chronological_witness :
  chronological
    (All (mem (run_requests mkMockProvider no_case_table tick_clock
                 [POST_api_messages (Some {| req_Content := hola |}); POST_api_reset;
                  POST_api_messages (Some {| req_Content := hola |})]
                 initial_world)))
  ∧ not_after
      (tick_clock
         (ticks (run_requests mkMockProvider no_case_table tick_clock
                   [POST_api_messages (Some {| req_Content := hola |});
                    POST_api_reset;
                    POST_api_messages (Some {| req_Content := hola |})]
                   initial_world)))
      (All (mem (run_requests mkMockProvider no_case_table tick_clock
                   [POST_api_messages (Some {| req_Content := hola |});
                    POST_api_reset;
                    POST_api_messages (Some {| req_Content := hola |})]
                   initial_world))).
Proof.
  apply (conversation_chronological mkMockProvider no_case_table tick_clock).
  - intros i j Hij. unfold tick_clock. lia.
  - intros i j mi mj _ Hi. discriminate Hi.
  - apply Forall_nil_2.
Defined.

(** The payload for [hola], the first message of a conversation. *)
Lemma openai_payload_of_message_witness :
  payload_Input
    (Body (openai_request (openai_with (Ok multiple_choices))
             (All (mem (world_of NewMemoryStore))
              ++ [user_message epoch hola (world_of NewMemoryStore)])
             (prompt_of no_case_table hola (world_of NewMemoryStore))))
  = system_item :: (item_of <$> All (mem (world_of NewMemoryStore)))
    ++ [ {| item_Role := str "user"; item_Content := hola |};
         {| item_Role := str "user";
            item_Content := prompt_of no_case_table hola (world_of NewMemoryStore) |} ]
  ∧ prompt_of no_case_table hola (world_of NewMemoryStore) = hola.
Proof.
  destruct (openai_payload_of_message no_case_table epoch
              (openai_with (Ok multiple_choices)) hola (world_of NewMemoryStore))
    as (_ & _ & Hinput & Hraw).
  - discriminate.
  - split; [exact Hinput|]. apply Hraw. vm_compute. reflexivity.
Defined.

(** OpenAI answers 500 with an error message in the body. *)
Lemma openai_exchange_outcomes_witness :
  (handle (openai_with (Ok server_error)) no_case_table epoch
     (POST_api_messages (Some {| req_Content := hola |})) (world_of one_file_store)).1
  = {| status := 502; body := H_error (str "overloaded") |}.
Proof.
  apply (proj1 (openai_exchange_outcomes no_case_table epoch
                  (openai_with (Ok server_error)) hola (world_of one_file_store)
                  server_error ltac:(discriminate) eq_refl)).
  vm_compute. discriminate.
Defined.

(** The mock answers [hola]. *)
Lemma provider_success_200_witness :
  ∃ w',
    handle mkMockProvider no_case_table epoch
      (POST_api_messages (Some {| req_Content := hola |})) (world_of one_file_store)
    = ({| status := 200;
          body := SendMessageResponse
                    {| Role_ := RoleAssistant;
                       Content := str "Entendido. (mock) Me pediste: " ++ dquote
                                  ++ hola ++ dquote;
                       CreatedAt := epoch 1 |} (Model mkMockProvider) |}, w').
Proof.
  destruct (provider_success_200 mkMockProvider no_case_table epoch hola
              (world_of one_file_store)
              (str "Entendido. (mock) Me pediste: " ++ dquote ++ hola ++ dquote))
    as (w' & Hrun & _).
  - discriminate.
  - vm_compute. reflexivity.
  - exists w'. exact Hrun.
Defined.

(** A store of fifty files takes no seed file. *)
Lemma preloadSeedCSVs_full_store_witness :
  preloadSeedCSVs no_case_table seed_fs join_slash (str "./seed") full_store
  = (full_store, 0).
Proof.
  apply (preloadSeedCSVs_full_store no_case_table seed_fs join_slash
           (str "./seed") full_store).
  apply Nat.leb_le. vm_compute. reflexivity.
Defined.

(** The start on the seed directory: [a.csv] and [B.CSV] are loaded. *)
Lemma boot_seeds_first_files_witness :
  All (mem (boot no_case_table seed_fs join_slash no_env epoch initial_world).2)
  = [ {| Role_ := RoleAssistant; Content := hello; CreatedAt := epoch 0 |} ]
  ∧ ListFiles (mem (boot no_case_table seed_fs join_slash no_env epoch
                      initial_world).2)
    = take filesMax
        (omap (seed_file no_case_table seed_fs join_slash (seedDir no_env))
              seed_entries).
Proof.
  apply (boot_seeds_first_files no_case_table seed_fs join_slash no_env epoch
           seed_entries).
  - reflexivity.
  - reflexivity.
  - by_computation.
Defined.

(** [RESUMEN] in upper case, in a query with letters outside ASCII. *)
Lemma keyword_in_any_ascii_case_witness :
  isAnalystQuery no_case_table (str "Dame un RESUMEN, ¿sí?") = true.
Proof.
  apply (keyword_in_any_ascii_case no_case_table (str "Dame un RESUMEN, ¿sí?")
           (str "RESUMEN") (str "resumen")).
  - by_computation.
  - vm_compute. reflexivity.
  - vm_compute. reflexivity.
  - vm_compute. reflexivity.
Defined.

Lemma isAnalystQuery_ascii_witness :
  isAnalystQuery no_case_table (str "Top 3 TEMAS")
  = existsb (λ kw, Contains (map lowerByte (str "Top 3 TEMAS")) kw) keywords.
Proof.
  apply (isAnalystQuery_ascii no_case_table (str "Top 3 TEMAS")).
  vm_compute. reflexivity.
Defined.

(** The context of the store that holds [a.csv]. *)
Lemma buildFilesContext_whole_texts_witness :
  buildFilesContext one_file_store
  = context_header
    ++ concat ((λ f, render f (Text f)) <$> knowledge one_file_store).
Proof.
  apply (buildFilesContext_whole_texts one_file_store).
  - discriminate.
  - apply Forall_singleton. split.
    + vm_compute. reflexivity.
    + apply Nat.leb_le. vm_compute. reflexivity.
  - apply Nat.leb_le. vm_compute. reflexivity.
Defined.

Lemma analyst_prompt_filled_without_braces_witness :
  prompt_of no_case_table (str "resumen") (world_of one_file_store)
  = filled_template (str "resumen") (buildFilesContext (mem (world_of one_file_store))).
Proof.
  apply (analyst_prompt_filled_without_braces no_case_table (str "resumen")
           (world_of one_file_store)).
  - intros f Hf. apply list_elem_of_singleton in Hf. subst f.
    split; by_computation.
  - vm_compute. reflexivity.
Defined.

(** The list of the frontend after [a.csv] is read again together with
    [b.csv], and after [a.csv] is removed. *)
Lemma attachments_follow_store_witness :
  merge_attachments Name (knowledge one_file_store) [a_csv_again; b_csv]
  = knowledge (AddFiles [a_csv_again; b_csv] one_file_store).1
  ∧ remove_attachment Name (str "a.csv") (knowledge one_file_store)
    = knowledge (RemoveFile (str "a.csv") one_file_store).1.
Proof.
  apply (attachments_follow_store one_file_store [a_csv_again; b_csv] (str "a.csv")).
  by_computation.
Defined.

End more_scenarios.
